(** * redigo_lock: a Redis-backed distributed lock

    A shallow embedding of the lock package (lock.go, options.go, redis.go
    and the RedLock file) together with the properties its specification
    states about it.

    Conventions of the embedding:
    - [int64] and [time.Duration] values are [Z]; every Go multiplication
      on them is written with its 64-bit wrap-around ([wrap64]);
    - a method with a pointer receiver takes the receiver's value and
      returns the updated value;
    - everything outside the process (the Redis servers, the network, the
      wall clock, the scheduler's choice in a [select]) lives in a [World]
      that is threaded through the calls;
    - the body of [sync.Mutex] sections is modelled as it runs once the mutex
      is held: one call at a time;
    - the renewal goroutine runs beside the calls: what it does to the
      server reaches a call like what any other client does, and the one
      place where a call waits for it, the compare-and-swap loop of
      [watchDog], is modelled by the instant at which the goroutine
      leaves. *)

From Stdlib Require Import ZArith Lia.
From stdpp Require Import gmap strings list pretty.

Open Scope Z_scope.

(** ** Machine integers and durations *)

Definition wrap64 (z : Z) : Z := (z + 2 ^ 63) mod 2 ^ 64 - 2 ^ 63.

Definition maxInt64 : Z := 2 ^ 63 - 1.
Definition minInt64 : Z := - 2 ^ 63.

(** [a * b] on int64 operands. *)
Definition mul64 (a b : Z) : Z := wrap64 (a * b).

(** time.Duration counts nanoseconds. *)
Definition Millisecond : Z := 1000000.
Definition Second : Z := 1000000000.

(** *** float64, as far as [Duration.Seconds] needs it

    A finite float64 that is not negative is kept by its exact value, a
    pair (numerator, denominator) with a positive denominator. An
    operation gives the float64 nearest to the exact result, the one with
    an even significand of two equally near (53 bits of significand). The
    exponent range is left out: the values met here lie between 1e-9 and
    2^34. *)

(** floor (log2 (n / d)), for positive [n] and [d]. *)
Definition ilog2 (n d : Z) : Z :=
  let k := Z.log2 n - Z.log2 d in
  if n * 2 ^ Z.max 0 (- k) <? d * 2 ^ Z.max 0 k then k - 1 else k.

(** The integer nearest to [n / d], the even one of two equally near. *)
Definition roundEven (n d : Z) : Z :=
  let q := n / d in
  let r := n mod d in
  if 2 * r <? d then q
  else if d <? 2 * r then q + 1
  else if Z.even q then q else q + 1.

(** The float64 nearest to [n / d]: a significand of 53 bits, in units of
    the last place [2 ^ e]. *)
Definition float64_round (n d : Z) : Z * Z :=
  if n =? 0 then (0, 1)
  else
    let e := ilog2 n d - 52 in
    (roundEven (n * 2 ^ Z.max 0 (- e)) (d * 2 ^ Z.max 0 e) * 2 ^ Z.max 0 e,
     2 ^ Z.max 0 (- e)).

(** [d.Seconds()] for a duration that is not negative:
    [sec := d / Second; nsec := d % Second;
     return float64(sec) + float64(nsec)/1e9].
    Both conversions are exact (the integers are below 2^53); the division
    and the addition round. *)
Definition Duration_Seconds (d : Z) : Z * Z :=
  let sec := d / Second in
  let nsec := d mod Second in
  let f := float64_round nsec 1000000000 in
  float64_round (sec * f.2 + f.1) f.2.

(** [int64(d.Seconds())]: the conversion truncates toward zero. Go's
    [/] and [%] truncate toward zero too and rounding to nearest is
    symmetric, so a negative duration gives the opposite of what its
    absolute value gives. *)
Definition Duration_Seconds_int64 (d : Z) : Z :=
  let s := Duration_Seconds (Z.abs d) in
  Z.sgn d * (s.1 / s.2).

(** ** Errors *)

(** Package-level error values; [errors.Is] compares them by identity. *)
Inductive sentinel :=
| AcquiredByOthers      (* ErrLockAcquiredByOthers *)
| ContextCanceled       (* context.Canceled *)
| ContextDeadline.      (* context.DeadlineExceeded *)

#[global] Instance sentinel_eq_dec : EqDecision sentinel.
Proof. solve_decision. Defined.

Definition sentinel_text (s : sentinel) : string :=
  match s with
  | AcquiredByOthers => "This lock is acquired by others"
  | ContextCanceled => "context canceled"
  | ContextDeadline => "context deadline exceeded"
  end.

Inductive error :=
| Sentinel (s : sentinel)
| errorString (msg : string)              (* a value made by errors.New at a return site *)
| wrapError (msg : string) (err : error)  (* fmt.Errorf with one %w verb *)
| connError (msg : string).               (* an error of the connection layer or of the server: net, redigo *)

#[global] Instance error_eq_dec : EqDecision error.
Proof. solve_decision. Defined.

Definition ErrLockAcquiredByOthers : error := Sentinel AcquiredByOthers.

Definition Error (e : error) : string :=
  match e with
  | Sentinel s => sentinel_text s
  | errorString msg => msg
  | wrapError msg _ => msg
  | connError msg => msg
  end.

(** [fmt.Errorf(prefix + "%w", e)]: the text before the verb, then [e]. *)
Definition Errorf_w (prefix : string) (e : error) : error :=
  wrapError (prefix +:+ Error e) e.

(** [errors.Is(err, target)] for a package-level [target]: the chain of
    [Unwrap] is walked until a value identical to [target] is met. *)
Fixpoint errors_Is (err : error) (target : sentinel) : bool :=
  match err with
  | Sentinel s => bool_decide (s = target)
  | errorString _ => false
  | wrapError _ inner => errors_Is inner target
  | connError _ => false
  end.

Definition IsRetryableErr (err : error) : bool :=
  errors_Is err AcquiredByOthers.

(** ** Options (options.go) *)

Definition DefaultIdleTimeoutSeconds : Z := 10.
Definition DefaultMaxActive : Z := 100.
Definition DefaultMaxIdle : Z := 20.
Definition DefaultLockExpireSeconds : Z := 30.
Definition WatchDogWorkStepSeconds : Z := 10.
Definition DefaultSingleLockTimeout : Z := 50 * Millisecond.

Record ClientOptions := mkClientOptions {
  maxIdle : Z;
  idleTimeoutSeconds : Z;
  maxActive : Z;
  wait : bool;
  network : string;
  address : string;
  password : string
}.

(** The exported constructors of [ClientOption]; the fields are unexported,
    so a caller outside the package has no other way to build one. *)
Inductive ClientOption :=
| WithMaxIdle (n : Z)
| WithIdleTimeoutSeconds (n : Z)
| WithMaxActive (n : Z)
| WithWaitMode.

Definition applyClientOption (opt : ClientOption) (c : ClientOptions) : ClientOptions :=
  match opt with
  | WithMaxIdle n =>
      mkClientOptions n (idleTimeoutSeconds c) (maxActive c) (wait c) (network c) (address c) (password c)
  | WithIdleTimeoutSeconds n =>
      mkClientOptions (maxIdle c) n (maxActive c) (wait c) (network c) (address c) (password c)
  | WithMaxActive n =>
      mkClientOptions (maxIdle c) (idleTimeoutSeconds c) n (wait c) (network c) (address c) (password c)
  | WithWaitMode =>
      mkClientOptions (maxIdle c) (idleTimeoutSeconds c) (maxActive c) true (network c) (address c) (password c)
  end.

Definition setClientArgs (c : ClientOptions) : ClientOptions :=
  let c1 := if maxIdle c <? 0
            then mkClientOptions DefaultMaxIdle (idleTimeoutSeconds c) (maxActive c) (wait c) (network c) (address c) (password c)
            else c in
  let c2 := if idleTimeoutSeconds c1 <? 0
            then mkClientOptions (maxIdle c1) DefaultIdleTimeoutSeconds (maxActive c1) (wait c1) (network c1) (address c1) (password c1)
            else c1 in
  if maxActive c2 <? 0
  then mkClientOptions (maxIdle c2) (idleTimeoutSeconds c2) DefaultMaxActive (wait c2) (network c2) (address c2) (password c2)
  else c2.

Record LockOptions := mkLockOptions {
  isBlock : bool;
  blockWaitingSeconds : Z;
  expireSeconds : Z;
  watchDogMode : bool
}.

(** The zero value a Go struct starts from. *)
Definition zeroLockOptions : LockOptions := mkLockOptions false 0 0 false.

Inductive LockOption :=
| WithBlock
| WithBlockWaitingSeconds (waitingSeconds : Z)
| WithExpireSeconds (expireSeconds : Z).

Definition applyLockOption (opt : LockOption) (o : LockOptions) : LockOptions :=
  match opt with
  | WithBlock => mkLockOptions true (blockWaitingSeconds o) (expireSeconds o) (watchDogMode o)
  | WithBlockWaitingSeconds s => mkLockOptions (isBlock o) s (expireSeconds o) (watchDogMode o)
  | WithExpireSeconds s => mkLockOptions (isBlock o) (blockWaitingSeconds o) s (watchDogMode o)
  end.

(** [for _, opt := range opts { opt(&o) }] *)
Definition applyLockOptions (opts : list LockOption) (o : LockOptions) : LockOptions :=
  foldl (fun acc opt => applyLockOption opt acc) o opts.

Definition setLockOptions (lock : LockOptions) : LockOptions :=
  let lock1 :=
    if isBlock lock && (blockWaitingSeconds lock <=? 0)
    then mkLockOptions (isBlock lock) 5 (expireSeconds lock) (watchDogMode lock)
    else lock in
  if 0 <? expireSeconds lock1
  then lock1
  else mkLockOptions (isBlock lock1) (blockWaitingSeconds lock1) DefaultLockExpireSeconds true.

Record RedLockOptions := mkRedLockOptions {
  singleNodesTimeout : Z;
  expireDuration : Z
}.

Definition zeroRedLockOptions : RedLockOptions := mkRedLockOptions 0 0.

Inductive RedLockOption :=
| WithSingleNodesTimeout (singleNodesTimeout : Z)
| WithRedLockExpireDuration (expireDuration : Z).

Definition applyRedLockOption (opt : RedLockOption) (o : RedLockOptions) : RedLockOptions :=
  match opt with
  | WithSingleNodesTimeout t => mkRedLockOptions t (expireDuration o)
  | WithRedLockExpireDuration d => mkRedLockOptions (singleNodesTimeout o) d
  end.

Definition applyRedLockOptions (opts : list RedLockOption) (o : RedLockOptions) : RedLockOptions :=
  foldl (fun acc opt => applyRedLockOption opt acc) o opts.

Definition setRedLockOption (r : RedLockOptions) : RedLockOptions :=
  if singleNodesTimeout r <=? 0
  then mkRedLockOptions DefaultSingleLockTimeout (expireDuration r)
  else r.

Record SingleNodeConf := mkSingleNodeConf {
  Network : string;
  Address : string;
  Password : string;
  Opts : list ClientOption
}.

(** ** The Redis server and the connection layer

    The server, the network and redigo's pool are outside the repository.
    The server is modelled by what the three commands the client sends do
    to its key space; the pool and the wire by a [fate] per round trip. *)

Record entry := mkEntry {
  held : string;   (* the stored value *)
  ttl : Z          (* seconds given with EX or EXPIRE *)
}.

#[global] Instance entry_eq_dec : EqDecision entry.
Proof. solve_decision. Defined.

Abbreviation keyspace := (gmap string entry).

(** What redigo hands back from [conn.Do]. *)
Inductive reply :=
| ReplyNil
| ReplyInt64 (n : Z)
| ReplyStatus (s : string)
| ReplyInt (n : Z).       (* a Go [int], as in [return -1, err] of Client.Eval *)

#[global] Instance reply_eq_dec : EqDecision reply.
Proof. solve_decision. Defined.

Inductive arg :=
| ArgString (s : string)
| ArgInt64 (n : Z).

#[global] Instance arg_eq_dec : EqDecision arg.
Proof. solve_decision. Defined.

(** The two Lua scripts the lock sends, by name. *)
Inductive script :=
| LuaCheckAndDeleteDistributionLock
| LuaCheckAndExpireDistributionLock.

#[global] Instance script_eq_dec : EqDecision script.
Proof. solve_decision. Defined.

(** [SET key value EX seconds NX]: Redis refuses a non-positive expire
    time, answers nil and changes nothing when the key exists, and stores
    the value and answers OK otherwise. *)
Definition cmdSetEXNX (key value : string) (seconds : Z) (ks : keyspace)
  : (reply + error) * keyspace :=
  if seconds <=? 0
  then (inr (connError "ERR invalid expire time in 'set' command"), ks)
  else match ks !! key with
       | Some _ => (inl ReplyNil, ks)
       | None => (inl (ReplyStatus "OK"), <[key := mkEntry value seconds]> ks)
       end.

(** Modelled from the spec: the Lua scripts behind
    [LuaCheckAndDeleteDistributionLock] and
    [LuaCheckAndExpireDistributionLock] are missing from the sources.
    check-and-delete: given (key, token), if store[key] == token, delete
    key and return 1; else return 0 (no mutation).
    check-and-expire: given (key, token, newTtlSeconds), if
    store[key] == token, set EXPIRE(key, newTtlSeconds) and return 1; else
    return 0 (no mutation). EXPIRE with a time of 0 or less deletes the
    key. *)
Definition cmdEval (src : script) (keyCount : Z) (keysAndArgs : list arg) (ks : keyspace)
  : (reply + error) * keyspace :=
  match src, keyCount, keysAndArgs with
  | LuaCheckAndDeleteDistributionLock, 1, [ArgString key; ArgString token] =>
      match ks !! key with
      | Some e => if decide (held e = token)
                  then (inl (ReplyInt64 1), delete key ks)
                  else (inl (ReplyInt64 0), ks)
      | None => (inl (ReplyInt64 0), ks)
      end
  | LuaCheckAndExpireDistributionLock, 1, [ArgString key; ArgString token; ArgInt64 seconds] =>
      match ks !! key with
      | Some e => if decide (held e = token)
                  then (inl (ReplyInt64 1),
                        if seconds <=? 0 then delete key ks
                        else <[key := mkEntry (held e) seconds]> ks)
                  else (inl (ReplyInt64 0), ks)
      | None => (inl (ReplyInt64 0), ks)
      end
  | _, _, _ => (inr (connError "ERR Error running script"), ks)
  end.

(** How one round trip to a server goes. *)
Inductive transport :=
| Delivered                                  (* the reply comes back *)
| DialError (msg : string)                   (* pool.GetContext fails *)
| ConnError (msg : string) (executed : bool). (* conn.Do fails, before or after the server ran the command *)

Record fate := mkFate {
  meddle : keyspace -> keyspace;  (* what other clients and key expiry did to the server since the last call *)
  took : N;                       (* nanoseconds the round trip lasts *)
  link : transport
}.

Definition calm : fate := mkFate (fun ks => ks) 0 Delivered.

Inductive event :=
| EvSetNEX (at_ : Z) (addr key value : string) (seconds : Z) (code : Z) (err : option error)
| EvEval (at_ : Z) (addr : string) (src : script) (keysAndArgs : list arg) (res : reply) (err : option error)
| EvGo (ctxid : nat)       (* go r.runWatchDog(ctx) with the context [ctxid] *)
| EvCancel (ctxid : nat).  (* the CancelFunc of the context [ctxid] is called *)

(** A caller's [context.Context]: when it is done, if ever, and what
    [ctx.Err()] then is. *)
Inductive ctxCause := Canceled | DeadlineExceeded.

Record Context := mkContext {
  doneAt : option Z;
  cause : ctxCause
}.

(** A renewal task (the goroutine [watchDog] starts), by the context
    [context.WithCancel] made for it. *)
Record dog := mkDog {
  leash : Context;      (* the context [watchDog] was given, parent of the task's own *)
  born : Z;             (* the instant of the [go] statement: the task's ticker starts then *)
  stopped : option Z    (* the instant the task's CancelFunc was first called *)
}.

Record World := mkWorld {
  now : Z;                          (* the wall clock, in nanoseconds *)
  servers : gmap string keyspace;   (* by address *)
  future : list fate;               (* the round trips to come, in order; [calm] when it runs out *)
  coins : list bool;                (* the picks of [select] between two ready cases; [false] when it runs out *)
  nextCtx : nat;                    (* the next context made by context.WithCancel *)
  cancelled : list nat;             (* contexts whose CancelFunc was called *)
  trace : list event;               (* what happened, oldest first *)
  dogs : gmap nat dog;              (* the renewal tasks started, by context *)
  pace : nat -> list N              (* by task, the nanoseconds its renewals last, in order; 0 when it runs out *)
}.

Definition setNow (t : Z) (w : World) : World :=
  mkWorld t (servers w) (future w) (coins w) (nextCtx w) (cancelled w) (trace w) (dogs w) (pace w).

Definition setServer (addr : string) (ks : keyspace) (w : World) : World :=
  mkWorld (now w) (<[addr := ks]> (servers w)) (future w) (coins w) (nextCtx w) (cancelled w) (trace w) (dogs w) (pace w).

Definition setFuture (f : list fate) (w : World) : World :=
  mkWorld (now w) (servers w) f (coins w) (nextCtx w) (cancelled w) (trace w) (dogs w) (pace w).

Definition setCoins (c : list bool) (w : World) : World :=
  mkWorld (now w) (servers w) (future w) c (nextCtx w) (cancelled w) (trace w) (dogs w) (pace w).

Definition emit (e : event) (w : World) : World :=
  mkWorld (now w) (servers w) (future w) (coins w) (nextCtx w) (cancelled w) (trace w ++ [e]) (dogs w) (pace w).

Definition server (addr : string) (w : World) : keyspace :=
  default ∅ (servers w !! addr).

Definition nextFate (w : World) : fate := default calm (head (future w)).

(** The key space of [addr] as the next command will find it. *)
Definition arriving (addr : string) (w : World) : keyspace :=
  meddle (nextFate w) (server addr w).

(** ** The client (redis.go) *)

(** [strings.ToLower] on the ASCII letters, which is all a status reply of
    the server is made of. *)
Definition lowerAscii (a : Ascii.ascii) : Ascii.ascii :=
  let n := Ascii.nat_of_ascii a in
  if ((65 <=? n) && (n <=? 90))%nat then Ascii.ascii_of_nat (n + 32) else a.

Fixpoint strings_ToLower (s : string) : string :=
  match s with
  | EmptyString => EmptyString
  | String a rest => String (lowerAscii a) (strings_ToLower rest)
  end.

(** redigo's [redis.Pool], by the fields [getRedisPool] sets. [Dial] is a
    closure over the client the pool was built from: it is kept as that
    client's options, which hold the network, the address and the password
    it dials ([TestOnBorrow], a PING, is part of how a round trip goes). An
    empty address makes [Dial] panic and is not modelled: addresses are
    taken to be non-empty. *)
Record Pool := mkPool {
  Dial :> ClientOptions;
  MaxIdle : Z;
  MaxActive : Z;
  IdleTimeout : Z;      (* a time.Duration *)
  Wait : bool
}.

(** [NewClient] returns [&Client{pool: pool}]: the options live on in the
    pool only, and the embedded [ClientOptions] of the client returned,
    which nothing reads, is left out. *)
Record Client := mkClient { pool :> Pool }.

Definition getRedisPool (c : ClientOptions) : Pool :=
  mkPool c (maxIdle c) (maxActive c) (mul64 (idleTimeoutSeconds c) Second) (wait c).

Definition NewClient (network address password : string) (opts : list ClientOption) : Client :=
  mkClient
    (getRedisPool
       (setClientArgs
          (foldl (fun acc opt => applyClientOption opt acc)
                 (mkClientOptions 0 0 0 false network address password) opts))).

(** A connection borrowed from the pool, with how its round trip will go. *)
Record Conn := mkConn { peer : string; wire : fate }.

(** [c.pool.GetContext(ctx)]: the next fate is drawn; meanwhile the other
    clients have acted on the server. *)
Definition pool_GetContext (c : Client) (w : World) : (Conn + error) * World :=
  let f := nextFate w in
  let w1 := setServer (address c) (arriving (address c) w) (setFuture (tail (future w)) w) in
  match link f with
  | DialError msg => (inr (connError msg), setNow (now w + Z.of_N (took f)) w1)
  | _ => (inl (mkConn (address c) f), w1)
  end.

(** [conn.Do(cmd...)] followed by the deferred [conn.Close()]. *)
Definition conn_Do (conn : Conn) (cmd : keyspace -> (reply + error) * keyspace) (w : World)
  : (reply + error) * World :=
  let w1 := setNow (now w + Z.of_N (took (wire conn))) w in
  let '(res, ks) := cmd (server (peer conn) w) in
  match link (wire conn) with
  | ConnError msg executed =>
      (inr (connError msg), if executed then setServer (peer conn) ks w1 else w1)
  | _ => (res, setServer (peer conn) ks w1)
  end.

Definition SetNEX (c : Client) (key value : string) (expireSeconds : Z) (w : World)
  : (Z * option error) * World :=
  let at_ := now w in
  let log code err w' := ((code, err), emit (EvSetNEX at_ (address c) key value expireSeconds code err) w') in
  if decide (key = "" ∨ value = "")
  then log (-1) (Some (errorString "ERROR: redis SET keyNX or value can't be empty")) w
  else
    match pool_GetContext c w with
    | (inr err, w1) => log (-1) (Some err) w1
    | (inl conn, w1) =>
        match conn_Do conn (cmdSetEXNX key value expireSeconds) w1 with
        | (inr err, w2) => log (-1) (Some err) w2
        | (inl rep, w2) =>
            match rep with
            | ReplyStatus resp =>
                if decide (strings_ToLower resp = "ok") then log 1 None w2 else log 0 None w2
            | ReplyInt64 n => log n None w2     (* r, _ := reply.(int64) *)
            | _ => log 0 None w2
            end
        end
    end.

Definition Eval (c : Client) (src : script) (keyCount : Z) (keysAndArgs : list arg) (w : World)
  : (reply * option error) * World :=
  let at_ := now w in
  let log rep err w' := ((rep, err), emit (EvEval at_ (address c) src keysAndArgs rep err) w') in
  match pool_GetContext c w with
  | (inr err, w1) => log (ReplyInt (-1)) (Some err) w1
  | (inl conn, w1) =>
      match conn_Do conn (cmdEval src keyCount keysAndArgs) w1 with
      | (inr err, w2) => log ReplyNil (Some err) w2
      | (inl rep, w2) => log rep None w2
      end
  end.

(** ** The single lock (lock.go) *)

Definition RedisLockKeyPrefix : string := "REDIS_LOCK_PREFIX_".

Definition Background : Context := mkContext None Canceled.

(** Whether [<-ctx.Done()] is ready at instant [t]. *)
Definition ctx_Done (ctx : Context) (t : Z) : bool :=
  match doneAt ctx with
  | Some d => d <=? t
  | None => false
  end.

Definition ctx_Err (ctx : Context) : error :=
  match cause ctx with
  | Canceled => Sentinel ContextCanceled
  | DeadlineExceeded => Sentinel ContextDeadline
  end.

Record RedisLock := mkRedisLock {
  options : LockOptions;     (* the embedded LockOptions *)
  key : string;
  token : string;
  client : Client;
  runningDog : Z;            (* as the calls of this lock left it; the 0 a renewal task stores
                                when it leaves is seen where it is read, in [casLoop] *)
  stopDog : option nat       (* nil, or the CancelFunc of the renewal task's context *)
}.

(** What a call that may never come back does. *)
Inductive Outcome (A : Type) :=
| Returns (a : A)
| Spins        (* turns for ever in the compare-and-swap loop of watchDog *)
| OutOfFuel.   (* the bound given to a loop of the model was too small *)
Arguments Returns {A} a.
Arguments Spins {A}.
Arguments OutOfFuel {A}.

Definition getLockKey (r : RedisLock) : string := RedisLockKeyPrefix +:+ key r.

(** [token] stands for [utils.GetProcessAndGoroutineIDStr()], a string made
    of the process and goroutine identifiers. *)
Definition NewRedisLock (token key : string) (client : Client) (opts : list LockOption) : RedisLock :=
  mkRedisLock (setLockOptions (applyLockOptions opts zeroLockOptions)) key token client 0 None.

Definition tryLock (ctx : Context) (r : RedisLock) (w : World) : option error * World :=
  match SetNEX (client r) (getLockKey r) (token r) (expireSeconds (options r)) w with
  | ((_, Some err), w1) => (Some err, w1)
  | ((reply, None), w1) =>
      if decide (reply ≠ 1)
      then (Some (Errorf_w ("reply: " +:+ pretty reply +:+ ", err: ") ErrLockAcquiredByOthers), w1)
      else (None, w1)
  end.

(** The period of the renewal task's ticker:
    [WatchDogWorkStepSeconds * time.Second]. *)
Definition dogPeriod : Z := WatchDogWorkStepSeconds * Second.

(** The instant from which the context of a renewal task is done: its
    CancelFunc was called, or the context it derives from is done. *)
Definition dogDoneAt (d : dog) : option Z :=
  match stopped d, doneAt (leash d) with
  | Some s, Some p => Some (Z.min s p)
  | Some s, None => Some s
  | None, Some p => Some p
  | None, None => None
  end.

(** The first tick of a renewal task's ticker after instant [t]; the
    ticker is started when the task is, at [born]. *)
Definition dogTick (born t : Z) : Z := born + ((t - born) / dogPeriod + 1) * dogPeriod.

(** The instant of the [k]-th receive of [for range ticker.C] in
    [runWatchDog], the first being at the first tick: after a renewal the
    next tick is waited for, or received at once if it came during the
    renewal (the channel keeps one tick). [durs] is how long the renewals
    last. *)
Fixpoint dogVisit (born : Z) (durs : list N) (k : nat) : Z :=
  match k with
  | O => born + dogPeriod
  | S k' =>
      let t := dogVisit born durs k' in
      Z.max (t + Z.of_N (default 0%N (durs !! k'))) (dogTick born t)
  end.

(** The first of the visits [k], [k + 1], ... at which [ready] holds, [n]
    of them being looked at. *)
Fixpoint firstFrom (ready : nat -> bool) (n k : nat) : nat :=
  match n with
  | O => k
  | S n' => if ready k then k else firstFrom ready n' (S k)
  end.

(** When a renewal task leaves and its deferred
    [atomic.StoreInt32(&r.runningDog, 0)] runs: [runWatchDog] looks at its
    context each time it receives a tick, so it leaves at the first of its
    visits at which the context is done, and never when the context is
    never done. That visit is among the first [(c - born) / dogPeriod + 1],
    the visit [k] being no earlier than the tick [k + 1]. *)
Definition dogLeavesAt (durs : list N) (d : dog) : option Z :=
  match dogDoneAt d with
  | Some c =>
      Some (dogVisit (born d) durs
              (firstFrom (fun k => c <=? dogVisit (born d) durs k)
                         (Z.to_nat ((c - born d) / dogPeriod) + 1) 0))
  | None => None
  end.

(** [for !atomic.CompareAndSwapInt32(&r.runningDog, 0, 1) {}]. With
    [runningDog] at 0 the swap succeeds at once. Otherwise the task started
    earlier, the one [stopDog] stops, is still registered: the loop turns
    until that task has left and stored 0, which may already have happened,
    and for ever when that task never leaves. [None] is the loop that turns
    for ever. *)
Definition casLoop (r : RedisLock) (w : World) : option World :=
  if decide (runningDog r = 0) then Some w
  else
    match stopDog r with
    | Some id =>
        match dogs w !! id with
        | Some d =>
            match dogLeavesAt (pace w id) d with
            | Some t => Some (setNow (Z.max (now w) t) w)
            | None => None
            end
        | None => None
        end
    | None => None
    end.

(** [watchDog] up to the [go] statement. *)
Definition watchDog (ctx : Context) (r : RedisLock) (w : World) : Outcome (RedisLock * World) :=
  if negb (watchDogMode (options r))
  then Returns (r, w)
  else
    match casLoop r w with
    | Some w0 =>
        let id := nextCtx w0 in
        Returns (mkRedisLock (options r) (key r) (token r) (client r) 1 (Some id),
                 emit (EvGo id)
                      (mkWorld (now w0) (servers w0) (future w0) (coins w0) (S id) (cancelled w0)
                               (trace w0) (<[id := mkDog ctx (now w0) None]> (dogs w0)) (pace w0)))
    | None => Spins
    end.

Definition DelayExpire (ctx : Context) (r : RedisLock) (expireSeconds : Z) (w : World)
  : option error * World :=
  match Eval (client r) LuaCheckAndExpireDistributionLock 1
             [ArgString (getLockKey r); ArgString (token r); ArgInt64 expireSeconds] w with
  | ((_, Some err), w1) => (Some err, w1)
  | ((rep, None), w1) =>
      let code := match rep with ReplyInt64 n => n | _ => 0 end in
      if decide (code ≠ 1)
      then (Some (errorString "ERROR: Can not expire lock without ownership of lock"), w1)
      else (None, w1)
  end.

(** One tick of [runWatchDog]'s ticker: leave if the context is done,
    renew otherwise. [true] means the task goes on. *)
Definition runWatchDog_tick (ctx : Context) (id : nat) (r : RedisLock) (w : World) : bool * World :=
  if ctx_Done ctx (now w) || bool_decide (id ∈ cancelled w)
  then (false, w)
  else (true, snd (DelayExpire ctx r (WatchDogWorkStepSeconds + 5) w)).

(** *** The polling loop of blocking mode *)

Definition pollPeriod : Z := 50 * Millisecond.

(** The instant of the first tick of a ticker started at [t0] that fires
    after [t]. *)
Definition nextTick (t0 t : Z) : Z := t0 + ((t - t0) / pollPeriod + 1) * pollPeriod.

Inductive selected := CtxDone | TimedOut | Default.

(** The [select] of the loop at instant [t]: a ready case is taken, one of
    them as the runtime picks when both are, else the default. *)
Definition select (ctx : Context) (timeoutAt t : Z) (w : World) : selected * World :=
  match ctx_Done ctx t, timeoutAt <=? t with
  | true, true =>
      (if default false (head (coins w)) then CtxDone else TimedOut, setCoins (tail (coins w)) w)
  | true, false => (CtxDone, w)
  | false, true => (TimedOut, w)
  | false, false => (Default, w)
  end.

(** [for range ticker.C { ... }]; [last] is the instant of the previous
    receive from the ticker (its channel keeps one tick, so a tick that
    fired during the body is received at once). *)
Fixpoint pollLoop (fuel : nat) (ctx : Context) (r : RedisLock) (t0 timeoutAt last : Z) (w : World)
  : option (option error * World) :=
  match fuel with
  | O => None
  | S fuel' =>
      let t := Z.max (now w) (nextTick t0 last) in
      match select ctx timeoutAt t (setNow t w) with
      | (CtxDone, w1) =>
          Some (Some (Errorf_w "ERROR: Lock failed, ctx timeout, err: " (ctx_Err ctx)), w1)
      | (TimedOut, w1) =>
          Some (Some (Errorf_w "ERROR: Block waiting time out, err: " ErrLockAcquiredByOthers), w1)
      | (Default, w1) =>
          match tryLock ctx r w1 with
          | (None, w2) => Some (None, w2)
          | (Some err, w2) =>
              if negb (IsRetryableErr err)
              then Some (Some err, w2)
              else pollLoop fuel' ctx r t0 timeoutAt t w2
          end
      end
  end.

(** [time.Duration(r.blockWaitingSeconds) * time.Second] *)
Definition blockingCeiling (r : RedisLock) : Z :=
  mul64 (blockWaitingSeconds (options r)) Second.

(** Rounds of the loop after which the timer of [time.After] has fired. *)
Definition pollRounds (r : RedisLock) : nat :=
  Z.to_nat (blockingCeiling r / pollPeriod) + 1.

Definition tryGetBlockingLock (ctx : Context) (r : RedisLock) (w : World)
  : option (option error * World) :=
  pollLoop (pollRounds r) ctx r (now w) (now w + blockingCeiling r) (now w) w.

(** The function [Lock] defers: the renewal task is started on success
    only. [err] is the error [Lock] is about to return. *)
Definition Lock_deferred (ctx : Context) (r : RedisLock) (err : option error) (w : World)
  : Outcome (option error * RedisLock * World) :=
  match err with
  | Some _ => Returns (err, r, w)
  | None =>
      match watchDog ctx r w with
      | Returns (r', w') => Returns (None, r', w')
      | Spins => Spins
      | OutOfFuel => OutOfFuel
      end
  end.

Definition Lock (ctx : Context) (r : RedisLock) (w : World)
  : Outcome (option error * RedisLock * World) :=
  match tryLock ctx r w with
  | (None, w1) => Lock_deferred ctx r None w1
  | (Some err, w1) =>
      if negb (isBlock (options r)) then Lock_deferred ctx r (Some err) w1
      else if negb (IsRetryableErr err) then Lock_deferred ctx r (Some err) w1
      else match tryGetBlockingLock ctx r w1 with
           | Some (err', w2) => Lock_deferred ctx r err' w2
           | None => OutOfFuel
           end
  end.

(** A CancelFunc is called at instant [t]: the first call counts. *)
Definition stopAt (id : nat) (t : Z) (ds : gmap nat dog) : gmap nat dog :=
  match ds !! id with
  | Some d => <[id := mkDog (leash d) (born d) (Some (default t (stopped d)))]> ds
  | None => ds
  end.

(** The function [Unlock] defers, run on every way out: the renewal task,
    if one was ever started, is told to stop. *)
Definition Unlock_deferred (r : RedisLock) (err : option error) (w : World)
  : option error * RedisLock * World :=
  match stopDog r with
  | Some id =>
      (err, r, emit (EvCancel id)
                 (mkWorld (now w) (servers w) (future w) (coins w) (nextCtx w)
                          (cancelled w ++ [id]) (trace w) (stopAt id (now w) (dogs w)) (pace w)))
  | None => (err, r, w)
  end.

Definition Unlock (ctx : Context) (r : RedisLock) (w : World) : option error * RedisLock * World :=
  match Eval (client r) LuaCheckAndDeleteDistributionLock 1
             [ArgString (getLockKey r); ArgString (token r)] w with
  | ((_, Some err), w1) => Unlock_deferred r (Some err) w1
  | ((rep, None), w1) =>
      let code := match rep with ReplyInt64 n => n | _ => 0 end in
      if decide (code ≠ 1)
      then Unlock_deferred r (Some (errorString "ERROR: Can not unlock without ownership of lock")) w1
      else Unlock_deferred r None w1
  end.

(** ** The quorum lock (RedLock) *)

(** [successLocks] holds pointers to elements of [locks]; they are kept as
    positions in [locks], so that both lists see one lock object. *)
Record RedLock := mkRedLock {
  locks : list RedisLock;
  successLocks : list nat;
  redOptions : RedLockOptions    (* the embedded RedLockOptions *)
}.

(** All node locks are built on one goroutine, hence with one [token]. *)
Definition NewRedLock (token key : string) (confs : list SingleNodeConf) (opts : list RedLockOption)
  : RedLock + error :=
  if (Z.of_nat (length confs) <? 3)
  then inr (errorString "ERROR: Can not use RedLock less than 3 nodes")
  else
    let o := setRedLockOption (applyRedLockOptions opts zeroRedLockOptions) in
    if (0 <? expireDuration o)
       && (expireDuration o <? mul64 (mul64 (Z.of_nat (length confs)) (singleNodesTimeout o)) 10)
    then inr (errorString "ERROR: expire thresholds of single node is too long")
    else
      inl (mkRedLock
             (map (fun conf =>
                     NewRedisLock token key
                       (NewClient (Network conf) (Address conf) (Password conf) (Opts conf))
                       [WithExpireSeconds (Duration_Seconds_int64 (expireDuration o))])
                  confs)
             []
             o).

(** The first loop of [RedLock.Lock], from position [i] on: the locks as the
    calls leave them, the success list and the success count. *)
Fixpoint lockEach (ctx : Context) (budget : Z) (i : nat) (todo : list RedisLock)
    (success : list nat) (successCount : Z) (w : World)
  : Outcome (list RedisLock * list nat * Z * World) :=
  match todo with
  | [] => Returns ([], success, successCount, w)
  | lock :: rest =>
      let startTime := now w in
      match Lock ctx lock w with
      | Returns (err, lock', w1) =>
          let cost := now w1 - startTime in
          let '(success', successCount') :=
            if bool_decide (err = None) && (cost <=? budget)
            then (success ++ [i], successCount + 1)
            else (success, successCount) in
          match lockEach ctx budget (S i) rest success' successCount' w1 with
          | Returns (rest', s, n, w2) => Returns (lock' :: rest', s, n, w2)
          | Spins => Spins
          | OutOfFuel => OutOfFuel
          end
      | Spins => Spins
      | OutOfFuel => OutOfFuel
      end
  end.

(** [for _, lock := range r.successLocks { lock.Unlock(ctx) }] *)
Fixpoint rollback (ctx : Context) (ls : list RedisLock) (success : list nat) (w : World)
  : list RedisLock * World :=
  match success with
  | [] => (ls, w)
  | i :: rest =>
      match ls !! i with
      | Some lock =>
          let '(_, lock', w1) := Unlock ctx lock w in
          rollback ctx (<[i := lock']> ls) rest w1
      | None => rollback ctx ls rest w
      end
  end.

Definition RedLock_Lock (ctx : Context) (r : RedLock) (w : World)
  : Outcome (option error * RedLock * World) :=
  match lockEach ctx (singleNodesTimeout (redOptions r)) 0 (locks r) (successLocks r) 0 w with
  | Returns (ls, success, successCount, w1) =>
      if successCount <? Z.shiftr (Z.of_nat (length (locks r))) 1 + 1
      then
        let '(ls', w2) := rollback ctx ls success w1 in
        Returns (Some (errorString "ERROR: RedLock lock failed"),
                 mkRedLock ls' success (redOptions r), w2)
      else Returns (None, mkRedLock ls success (redOptions r), w1)
  | Spins => Spins
  | OutOfFuel => OutOfFuel
  end.

(** The loop of [RedLock.UnLock]: the last error met is kept. *)
Fixpoint unlockEach (ctx : Context) (ls : list RedisLock) (success : list nat)
    (err : option error) (w : World)
  : option error * list RedisLock * World :=
  match success with
  | [] => (err, ls, w)
  | i :: rest =>
      match ls !! i with
      | Some lock =>
          let '(_err, lock', w1) := Unlock ctx lock w in
          unlockEach ctx (<[i := lock']> ls) rest
                     (match _err with Some e => Some e | None => err end) w1
      | None => unlockEach ctx ls rest err w
      end
  end.

Definition RedLock_UnLock (ctx : Context) (r : RedLock) (w : World)
  : option error * RedLock * World :=
  let '(err, ls, w1) := unlockEach ctx (locks r) (successLocks r) None w in
  (err, mkRedLock ls (successLocks r) (redOptions r), w1).

(** ** Vocabulary of the specification *)



Definition isGo (ev : event) : bool :=
  match ev with EvGo _ => true | _ => false end.

(** The instant an operation on a server was started. *)
Definition atOf (ev : event) : Z :=
  match ev with
  | EvSetNEX t _ _ _ _ _ _ => t
  | EvEval t _ _ _ _ _ => t
  | _ => 0
  end.

(** One acquisition attempt of the lock [r]: its SET NX EX round trip. *)
Definition attempt (r : RedisLock) (t code : Z) (err : option error) : event :=
  EvSetNEX t (address (client r)) (getLockKey r) (token r) (expireSeconds (options r)) code err.

Definition contended (r : RedisLock) (ev : event) : Prop :=
  ∃ t code, code ≠ 1 ∧ ev = attempt r t code None.

Definition succeeded (r : RedisLock) (ev : event) : Prop :=
  ∃ t, ev = attempt r t 1 None.

Definition failedWith (r : RedisLock) (e : error) (ev : event) : Prop :=
  ∃ t code, ev = attempt r t code (Some e).

Definition isAttempt (r : RedisLock) (ev : event) : Prop :=
  ∃ t code err, ev = attempt r t code err.

(** The two errors the polling loop makes itself. *)
Definition errBlockingTimeout : error :=
  Errorf_w "ERROR: Block waiting time out, err: " ErrLockAcquiredByOthers.

Definition errContextDone (ctx : Context) : error :=
  Errorf_w "ERROR: Lock failed, ctx timeout, err: " (ctx_Err ctx).

Definition errNotOwner : error :=
  errorString "ERROR: Can not unlock without ownership of lock".

Definition errQuorum : error := errorString "ERROR: RedLock lock failed".

(** The value stored at the lock's key on the lock's server. *)
Definition storedAt (r : RedisLock) (ks : keyspace) : option string :=
  held <$> ks !! getLockKey r.

(** The release of lock [r] as it shows in the trace: the check-and-delete
    script sent with the lock's key and token. *)
Definition isReleaseOf (r : RedisLock) (ev : event) : Prop :=
  ∃ t rep err,
    ev = EvEval t (address (client r)) LuaCheckAndDeleteDistributionLock
                [ArgString (getLockKey r); ArgString (token r)] rep err.

Definition isEvalEvent (ev : event) : bool :=
  match ev with EvEval _ _ _ _ _ _ => true | _ => false end.

(** The per-node timeout after defaulting. *)
Definition effectiveTimeout (opts : list RedLockOption) : Z :=
  singleNodesTimeout (setRedLockOption (applyRedLockOptions opts zeroRedLockOptions)).

Definition configuredExpiry (opts : list RedLockOption) : Z :=
  expireDuration (applyRedLockOptions opts zeroRedLockOptions).

(** The caller gave a per-node timeout: an option sets it. *)
Definition isTimeoutOption (opt : RedLockOption) : bool :=
  match opt with WithSingleNodesTimeout _ => true | _ => false end.

Definition isRedExpireOption (opt : RedLockOption) : bool :=
  match opt with WithRedLockExpireDuration _ => true | _ => false end.

Definition isErr {A} (x : A + error) : bool :=
  match x with inr _ => true | inl _ => false end.

(** The next round trip brings the server's reply back. *)
Definition answered (w : World) : Prop := link (nextFate w) = Delivered.

(** The next round trip fails with the error text [msg]. *)
Definition failing (msg : string) (w : World) : Prop :=
  link (nextFate w) = DialError msg ∨ ∃ executed, link (nextFate w) = ConnError msg executed.

(** In a stretch of the trace, a renewal task is told to stop and the
    release script is sent only after that. *)
Fixpoint stoppedBeforeRelease (evs : list event) : bool :=
  match evs with
  | [] => false
  | EvCancel _ :: rest => existsb isEvalEvent rest
  | EvEval _ _ _ _ _ _ :: _ => false
  | _ :: rest => stoppedBeforeRelease rest
  end.

(** What a call added to the trace. *)
Definition added (w w' : World) : list event := drop (length (trace w)) (trace w').

(** The per-node timeout as the caller's options leave it, before defaulting. *)
Definition suppliedTimeout (opts : list RedLockOption) : Z :=
  singleNodesTimeout (applyRedLockOptions opts zeroRedLockOptions).

(** When construction fails, in the words of the specification: fewer
    than three nodes, or an expiry and a per-node timeout both given by the
    caller with nodes x timeout x 10 above the expiry. *)
Definition failsAsStated (confs : list SingleNodeConf) (opts : list RedLockOption) : Prop :=
  Z.of_nat (length confs) < 3
  ∨ (0 < configuredExpiry opts
     ∧ existsb isTimeoutOption opts = true
     ∧ configuredExpiry opts < Z.of_nat (length confs) * suppliedTimeout opts * 10).

(** The success list points into the node list. *)
Definition wellFormed (r : RedLock) : Prop :=
  Forall (fun i => (i < length (locks r))%nat) (successLocks r).

(** A renewal task of the lock is still registered as running: a [Lock]
    that acquires the key now turns in the compare-and-swap loop until that
    task leaves. *)
Definition heldUp (l : RedisLock) : Prop :=
  watchDogMode (options l) = true ∧ runningDog l ≠ 0.

(** The acquisition round of the quorum lock in the words of its
    specification: the node locks from position [i] on are tried in order;
    a node counts when its [Lock] returned success and took no longer than
    [budget]; [counted] lists the positions that count, [ls] the node locks
    as the round leaves them. *)
Inductive acquire (ctx : Context) (budget : Z)
  : nat → list RedisLock → World → list nat → list RedisLock → World → Prop :=
| acquire_done (i : nat) (w : World) :
    acquire ctx budget i [] w [] [] w
| acquire_count (i : nat) (l l' : RedisLock) (rest ls : list RedisLock)
    (w w1 w2 : World) (counted : list nat) :
    Lock ctx l w = Returns (None, l', w1) →
    now w1 - now w ≤ budget →
    acquire ctx budget (S i) rest w1 counted ls w2 →
    acquire ctx budget i (l :: rest) w (i :: counted) (l' :: ls) w2
| acquire_skip (i : nat) (l l' : RedisLock) (rest ls : list RedisLock)
    (err : option error) (w w1 w2 : World) (counted : list nat) :
    Lock ctx l w = Returns (err, l', w1) →
    err ≠ None ∨ budget < now w1 - now w →
    acquire ctx budget (S i) rest w1 counted ls w2 →
    acquire ctx budget i (l :: rest) w counted (l' :: ls) w2.

(** The releases a stretch of the trace holds, in order, are those of the
    locks at the positions [success] of [ls]. *)
Definition releasesOf (ls : list RedisLock) (success : list nat) (evs : list event) : Prop :=
  Forall2 (fun i ev => ∃ l, ls !! i = Some l ∧ isReleaseOf l ev)
          success (filter (fun ev => isEvalEvent ev = true) evs).

(** Strict majority of [n] nodes, as the code computes it. *)
Definition quorum (n : nat) : Z := Z.shiftr (Z.of_nat n) 1 + 1.

(** ** Sample data *)

Definition sampleClient : Client := NewClient "tcp" "127.0.0.1:6379" "" [].

Definition holder : RedisLock :=
  NewRedisLock "100_1" "order" sampleClient [WithExpireSeconds 1].

(** A contender in blocking mode that waits one second at most. *)
Definition waiter : RedisLock :=
  NewRedisLock "200_7" "order" sampleClient [WithBlock; WithBlockWaitingSeconds 1].

(** A contender that does not wait, and one with the watchdog. *)
Definition passerby : RedisLock :=
  NewRedisLock "300_4" "order" sampleClient [].

Definition emptyWorld : World := mkWorld 0 ∅ [] [] 0 [] [] ∅ (fun _ => []).

(** The key of [holder] is taken, by [holder]. *)
Definition heldWorld : World :=
  mkWorld 0 {[ "127.0.0.1:6379" := {[ "REDIS_LOCK_PREFIX_order" := mkEntry "100_1" 1 ]} ]}
          [] [] 0 [] [] ∅ (fun _ => []).

(** The holder lets go just before the next command arrives. *)
Definition released : fate :=
  mkFate (fun ks => delete "REDIS_LOCK_PREFIX_order" ks) 0 Delivered.

Definition unreachable : fate :=
  mkFate (fun ks => ks) 0 (DialError "dial tcp 127.0.0.1:6379: connect: connection refused").

(** A round trip of 70 ms. *)
Definition sluggish : fate := mkFate (fun ks => ks) 70000000 Delivered.

Definition withFuture (f : list fate) (w : World) : World := setFuture f w.

(** [passerby] after a successful [Lock] on a free key: its renewal task
    runs under the context 0. *)
Definition watched : RedisLock :=
  match Lock Background passerby emptyWorld with
  | Returns (_, r, _) => r
  | _ => passerby
  end.

Definition watchedWorld : World :=
  match Lock Background passerby emptyWorld with
  | Returns (_, _, w) => w
  | _ => emptyWorld
  end.

Definition threeNodes : list SingleNodeConf :=
  [mkSingleNodeConf "tcp" "10.0.0.1:6379" "" [];
   mkSingleNodeConf "tcp" "10.0.0.2:6379" "" [];
   mkSingleNodeConf "tcp" "10.0.0.3:6379" "" []].

(** A quorum lock over three nodes, and a world in which another holder
    has the key on the second and third of them. *)
Definition trio : RedLock :=
  match NewRedLock "100_1" "order" threeNodes [WithRedLockExpireDuration (2 * Second)] with
  | inl r => r
  | inr _ => mkRedLock [] [] zeroRedLockOptions
  end.

Definition contestedWorld : World :=
  mkWorld 0 {[ "10.0.0.2:6379" := {[ "REDIS_LOCK_PREFIX_order" := mkEntry "999_9" 30 ]};
               "10.0.0.3:6379" := {[ "REDIS_LOCK_PREFIX_order" := mkEntry "999_9" 30 ]} ]}
          [] [] 0 [] [] ∅ (fun _ => []).

(** ** Further vocabulary *)

Definition isBlockOption (opt : LockOption) : bool :=
  match opt with WithBlock => true | _ => false end.

Definition isSetNEXEvent (ev : event) : bool :=
  match ev with EvSetNEX _ _ _ _ _ _ _ => true | _ => false end.

(** What [Unlock] returns, read off the round trip of its release script. *)
Definition verdictOf (ev : event) : option error :=
  match ev with
  | EvEval _ _ _ _ rep (Some e) => Some e
  | EvEval _ _ _ _ rep None =>
      if decide (rep = ReplyInt64 1) then None else Some errNotOwner
  | _ => None
  end.

(** [if _err != nil { err = _err }] *)
Definition keepLast (acc : option error) (ev : event) : option error :=
  match verdictOf ev with Some e => Some e | None => acc end.

(** The last failure among the releases of a stretch of the trace. *)
Definition lastFailure (evs : list event) : option error := foldl keepLast None evs.

(** No round trip to come lasts longer than the polling period. *)
Definition quick (w : World) : Prop :=
  Forall (fun f => Z.of_N (took f) ≤ pollPeriod) (future w).

(** Nothing happens to the server at [addr] before the next command
    reaches it, and that command's reply comes back. *)
Definition undisturbed (addr : string) (w : World) : Prop :=
  answered w ∧ arriving addr w = server addr w.

Definition errNotExtended : error :=
  errorString "ERROR: Can not expire lock without ownership of lock".

Definition errEmpty : error :=
  errorString "ERROR: redis SET keyNX or value can't be empty".

(** From [w] to [w'] one round trip went to the server at [addr], and
    beyond what the other clients did before it arrived nothing moved but,
    at most, the entry at [k]: the other keys of that server are as the
    command found them and the other servers are as they were. *)
Definition touchesOnly (addr k : string) (w w' : World) : Prop :=
  (∀ k', k' ≠ k → server addr w' !! k' = arriving addr w !! k')
  ∧ (∀ a, a ≠ addr → servers w' !! a = servers w !! a).

(** The instant of the [k]-th visit of the polling loop to its [select],
    counted from a visit at [t]: a visit that ends in a lost attempt is
    followed by the next at the ticker's next tick, or when the attempt's
    round trip ends if that is later. [t0] is the instant the ticker was
    started and [fs] the round trips to come. *)
Fixpoint visit (t0 : Z) (fs : list fate) (t : Z) (k : nat) : Z :=
  match k with
  | O => t
  | S k' =>
      visit t0 (tail fs)
            (Z.max (t + Z.of_N (took (default calm (head fs)))) (nextTick t0 t)) k'
  end.

(** No round trip to come finds the entry at [k] changed by what the other
    clients and key expiry did: the key is left alone. *)
Definition leftAlone (k : string) (w : World) : Prop :=
  Forall (fun f => ∀ ks, meddle f ks !! k = ks !! k) (future w).

(** A lock whose token is empty. *)
Definition nameless : RedisLock :=
  NewRedisLock "" "order" sampleClient [WithBlock].

(** ** Options *)

Lemma setLockOptions_watchDogMode (o : LockOptions) :
  watchDogMode o = false →
  watchDogMode (setLockOptions o) = negb (0 <? expireSeconds o).
Proof.
  intros Hw. unfold setLockOptions.
  destruct (isBlock o && (blockWaitingSeconds o <=? 0)); simpl;
    destruct (0 <? expireSeconds o); simpl; auto.
Qed.

Lemma setLockOptions_expireSeconds (o : LockOptions) :
  expireSeconds (setLockOptions o)
  = if 0 <? expireSeconds o then expireSeconds o else DefaultLockExpireSeconds.
Proof.
  unfold setLockOptions.
  destruct (isBlock o && (blockWaitingSeconds o <=? 0)); simpl;
    destruct (0 <? expireSeconds o); reflexivity.
Qed.

(** No exported option touches the watchdog flag. *)
Lemma applyLockOptions_watchDogMode (opts : list LockOption) (o : LockOptions) :
  watchDogMode (applyLockOptions opts o) = watchDogMode o.
Proof.
  revert o. induction opts as [|opt opts IH]; intros o; [reflexivity|].
  change (applyLockOptions (opt :: opts) o)
    with (applyLockOptions opts (applyLockOption opt o)).
  rewrite IH. by destruct opt.
Qed.


(** ** The client: what a round trip leaves behind *)

Lemma pool_GetContext_frame (c : Client) (w w1 : World) (res : Conn + error) :
  pool_GetContext c w = (res, w1) →
  trace w1 = trace w ∧ nextCtx w1 = nextCtx w ∧ cancelled w1 = cancelled w
  ∧ coins w1 = coins w ∧ future w1 = tail (future w)
  ∧ match res with
    | inl conn => wire conn = nextFate w ∧ peer conn = address c ∧ now w1 = now w
                  ∧ server (address c) w1 = arriving (address c) w
    | inr e => now w1 = now w + Z.of_N (took (nextFate w)) ∧ IsRetryableErr e = false
    end.
Proof.
  unfold pool_GetContext. intros H.
  destruct (link (nextFate w)) eqn:Hl; inversion H; subst; clear H; simpl;
    repeat split; try reflexivity;
    unfold server; simpl; by rewrite lookup_insert_eq.
Qed.

Lemma cmdSetEXNX_error (k v : string) (s : Z) (ks ks' : keyspace) (e : error) :
  cmdSetEXNX k v s ks = (inr e, ks') → IsRetryableErr e = false.
Proof.
  unfold cmdSetEXNX. destruct (s <=? 0); [intros [= <- _]; reflexivity|].
  destruct (ks !! k); intros [=].
Qed.

Lemma cmdEval_error (src : script) (n : Z) (args : list arg) (ks ks' : keyspace) (e : error) :
  cmdEval src n args ks = (inr e, ks') → IsRetryableErr e = false.
Proof.
  unfold cmdEval. intros H.
  repeat (match type of H with
          | context [match ?x with _ => _ end] => destruct x; simplify_eq
          end; try reflexivity).
Qed.

Lemma conn_Do_frame (conn : Conn) (cmd : keyspace → (reply + error) * keyspace)
    (w w2 : World) (res : reply + error) :
  (∀ ks ks' e, cmd ks = (inr e, ks') → IsRetryableErr e = false) →
  conn_Do conn cmd w = (res, w2) →
  trace w2 = trace w ∧ nextCtx w2 = nextCtx w ∧ cancelled w2 = cancelled w
  ∧ coins w2 = coins w ∧ future w2 = future w
  ∧ now w2 = now w + Z.of_N (took (wire conn))
  ∧ match res with inr e => IsRetryableErr e = false | inl _ => True end.
Proof.
  unfold conn_Do. intros Hcmd H.
  destruct (cmd (server (peer conn) w)) as [r ks] eqn:Hc.
  assert (Hr : match r with inr e => IsRetryableErr e = false | inl _ => True end).
  { destruct r; eauto. }
  destruct (link (wire conn)) as [| |msg executed];
    [| |destruct executed]; inversion H; subst; clear H; simpl;
    repeat split; try reflexivity; try exact Hr.
Qed.

Lemma SetNEX_spec (c : Client) (k v : string) (s : Z) (w w' : World) (code : Z) (err : option error) :
  SetNEX c k v s w = ((code, err), w') →
  trace w' = trace w ++ [EvSetNEX (now w) (address c) k v s code err]
  ∧ nextCtx w' = nextCtx w ∧ cancelled w' = cancelled w ∧ coins w' = coins w
  ∧ (now w ≤ now w' ≤ now w + Z.of_N (took (nextFate w)))
  ∧ (future w' = future w ∨ future w' = tail (future w))
  ∧ (∀ e, err = Some e → IsRetryableErr e = false).
Proof.
  unfold SetNEX. intros H.
  destruct (decide (k = "" ∨ v = "")) as [Hempty|Hfull].
  { inversion H; subst; clear H; simpl. repeat split; auto; try lia.
    intros e [= <-]. reflexivity. }
  destruct (pool_GetContext c w) as [[conn|e1] w1] eqn:Hp;
    apply pool_GetContext_frame in Hp as (Ht & Hn & Hc & Hk & Hf & Hrest).
  2:{ destruct Hrest as [Hnow He1].
      inversion H; subst; clear H; simpl.
      rewrite Ht, Hn, Hc, Hk, Hf, Hnow. repeat split; auto; try lia.
      intros e [= <-]. exact He1. }
  destruct Hrest as (Hwire & Hpeer & Hnow & _).
  destruct (conn_Do conn (cmdSetEXNX k v s) w1) as [[rep|e2] w2] eqn:Hd;
    apply conn_Do_frame in Hd as (Ht2 & Hn2 & Hc2 & Hk2 & Hf2 & Hnow2 & He2);
    eauto using cmdSetEXNX_error.
  - assert (Hfr : trace w2 = trace w ∧ nextCtx w2 = nextCtx w ∧ cancelled w2 = cancelled w
                  ∧ coins w2 = coins w ∧ future w2 = tail (future w)
                  ∧ now w2 = now w + Z.of_N (took (nextFate w))).
    { repeat split; congruence. }
    destruct Hfr as (Ht3 & Hn3 & Hc3 & Hk3 & Hf3 & Hnow3).
    destruct rep as [|n|resp|n]; [| |destruct (decide (strings_ToLower resp = "ok"))|];
      inversion H; subst; clear H; simpl;
      rewrite Ht3, Hn3, Hc3, Hk3, Hf3, Hnow3; repeat split; auto; try lia; intros ? [=].
  - inversion H; subst; clear H; simpl.
    rewrite Ht2, Hn2, Hc2, Hk2, Hf2, Hnow2, Ht, Hn, Hc, Hk, Hf, Hnow, Hwire.
    repeat split; auto; try lia. intros e [= <-]. exact He2.
Qed.

(** ** One acquisition attempt *)

Lemma tryLock_spec (ctx : Context) (r : RedisLock) (w w' : World) (res : option error) :
  tryLock ctx r w = (res, w') →
  ∃ code err,
    trace w' = trace w ++ [attempt r (now w) code err]
    ∧ nextCtx w' = nextCtx w ∧ cancelled w' = cancelled w ∧ coins w' = coins w
    ∧ (now w ≤ now w' ≤ now w + Z.of_N (took (nextFate w)))
    ∧ (future w' = future w ∨ future w' = tail (future w))
    ∧ ((res = None ∧ code = 1 ∧ err = None)
       ∨ (∃ e, res = Some e ∧ err = Some e ∧ IsRetryableErr e = false)
       ∨ (err = None ∧ code ≠ 1 ∧ IsRetryableErr (default ErrLockAcquiredByOthers res) = true
          ∧ res = Some (Errorf_w ("reply: " +:+ pretty code +:+ ", err: ") ErrLockAcquiredByOthers))).
Proof.
  unfold tryLock. intros H.
  destruct (SetNEX (client r) (getLockKey r) (token r) (expireSeconds (options r)) w)
    as [[code err] w1] eqn:Hs.
  apply SetNEX_spec in Hs as (Ht & Hn & Hc & Hk & Hnow & Hf & He).
  exists code, err. destruct err as [e|].
  - inversion H; subst; clear H. repeat split; auto; try lia.
    right; left. exists e. auto.
  - destruct (decide (code ≠ 1)) as [Hne|Heq]; inversion H; subst; clear H.
    + repeat split; auto; try lia. right; right. auto.
    + repeat split; auto; try lia. left. repeat split; auto.
      destruct (decide (code = 1)); tauto.
Qed.

(** ** The polling loop *)

Lemma pollPeriod_pos : 0 < pollPeriod.
Proof. reflexivity. Qed.

Lemma nextTick_after (t0 t : Z) : t < nextTick t0 t.
Proof.
  unfold nextTick. pose proof pollPeriod_pos as HP.
  pose proof (Z.mod_pos_bound (t - t0) pollPeriod HP) as Hm.
  pose proof (Z.div_mod (t - t0) pollPeriod) as Hd.
  nia.
Qed.

Lemma tick_index_grows (t0 last t : Z) :
  nextTick t0 last ≤ t → (last - t0) / pollPeriod + 1 ≤ (t - t0) / pollPeriod.
Proof.
  unfold nextTick. intros H. pose proof pollPeriod_pos as HP.
  apply Z.div_le_lower_bound; [exact HP|]. lia.
Qed.

Lemma select_spec (ctx : Context) (timeoutAt t : Z) (w w1 : World) (s : selected) :
  select ctx timeoutAt t w = (s, w1) →
  trace w1 = trace w ∧ nextCtx w1 = nextCtx w ∧ cancelled w1 = cancelled w
  ∧ now w1 = now w ∧ future w1 = future w ∧ servers w1 = servers w
  ∧ match s with
    | CtxDone => ctx_Done ctx t = true
    | TimedOut => timeoutAt ≤ t
    | Default => ctx_Done ctx t = false ∧ t < timeoutAt
    end.
Proof.
  unfold select. intros H.
  destruct (ctx_Done ctx t) eqn:Hd; destruct (timeoutAt <=? t) eqn:Hle;
    [destruct (default false (head (coins w)))| | |];
    inversion H; subst; clear H; simpl; repeat split; auto; lia.
Qed.

(** The loop comes back, and with what: the attempts it made are all but
    the last lost to another holder, none started once the ceiling had
    passed or the context was done, and the [k]-th is no earlier than the
    [k+1]-th tick that follows [last]. *)
Lemma pollLoop_spec (ctx : Context) (r : RedisLock) (t0 timeoutAt : Z) :
  ∀ (fuel : nat) (last : Z) (w : World),
    fuel ≠ O →
    t0 ≤ last →
    timeoutAt - t0 < ((last - t0) / pollPeriod + Z.of_nat fuel) * pollPeriod →
    ∃ res w' retried final,
      pollLoop fuel ctx r t0 timeoutAt last w = Some (res, w')
      ∧ trace w' = trace w ++ retried ++ final
      ∧ Forall (contended r) retried
      ∧ Forall (fun ev => atOf ev < timeoutAt ∧ ctx_Done ctx (atOf ev) = false) (retried ++ final)
      ∧ (∀ k ev, (retried ++ final) !! k = Some ev →
           t0 + ((last - t0) / pollPeriod + Z.of_nat k + 1) * pollPeriod ≤ atOf ev)
      ∧ nextCtx w' = nextCtx w ∧ cancelled w' = cancelled w
      ∧ nextTick t0 last ≤ now w' ∧ now w ≤ now w'
      ∧ match res with
        | None => ∃ ev, final = [ev] ∧ succeeded r ev
        | Some e =>
            (final = [] ∧ e = errBlockingTimeout ∧ timeoutAt ≤ now w')
            ∨ (final = [] ∧ e = errContextDone ctx ∧ ctx_Done ctx (now w') = true)
            ∨ (∃ ev, final = [ev] ∧ failedWith r e ev ∧ IsRetryableErr e = false)
        end.
Proof.
  pose proof pollPeriod_pos as HP.
  induction fuel as [|fuel IH]; intros last w Hfuel Hlast Hceil; [done|].
  simpl pollLoop.
  set (t := Z.max (now w) (nextTick t0 last)).
  assert (Ht1 : nextTick t0 last ≤ t) by (unfold t; lia).
  assert (Ht2 : now w ≤ t) by (unfold t; lia).
  pose proof (tick_index_grows t0 last t Ht1) as Hgrow.
  assert (Hgrid : t0 + ((last - t0) / pollPeriod + 1) * pollPeriod ≤ t)
    by (exact Ht1).
  destruct (select ctx timeoutAt t (setNow t w)) as [s w1] eqn:Hsel.
  apply select_spec in Hsel as (Htr & Hnc & Hca & Hnow & Hfu & Hsv & Hs).
  simpl in Htr, Hnc, Hca, Hnow, Hfu, Hsv.
  destruct s.
  - (* the context is done *)
    exists (Some (errContextDone ctx)), w1, [], [].
    rewrite Hnow. repeat split; auto; try (by rewrite Htr, app_nil_r).
    intros k ev Hk. simpl in Hk. done.
  - (* the ceiling has passed *)
    exists (Some errBlockingTimeout), w1, [], [].
    rewrite Hnow. repeat split; auto; try (by rewrite Htr, app_nil_r).
    intros k ev Hk. simpl in Hk. done.
  - destruct Hs as [Hnd Hlt].
    destruct (tryLock ctx r w1) as [res w2] eqn:Htry.
    apply tryLock_spec in Htry
      as (code & err & Htr2 & Hnc2 & Hca2 & _ & Hnow2 & _ & Hres).
    rewrite Hnow in Htr2, Hnow2. rewrite Htr in Htr2.
    assert (Hhere : atOf (attempt r t code err) < timeoutAt
                    ∧ ctx_Done ctx (atOf (attempt r t code err)) = false)
      by (simpl; auto).
    destruct Hres as [(-> & -> & ->)|[(e & -> & -> & Hnr)|(-> & Hcode & Hretry & ->)]].
    + (* acquired *)
      exists None, w2, [], [attempt r t 1 None].
      repeat split; auto; try congruence; try lia.
      * simpl. constructor; [exact Hhere|constructor].
      * intros [|k] ev Hk; simpl in Hk; [|done].
        inversion Hk; subst. simpl. lia.
      * exists (attempt r t 1 None). split; [done|]. by exists t.
    + (* an error that is not contention: given back as it is *)
      rewrite Hnr. simpl.
      exists (Some e), w2, [], [attempt r t code (Some e)].
      repeat split; auto; try congruence; try lia.
      * simpl. constructor; [exact Hhere|constructor].
      * intros [|k] ev Hk; simpl in Hk; [|done].
        inversion Hk; subst. simpl. lia.
      * right; right. exists (attempt r t code (Some e)).
        split; [done|]. split; [by exists t, code|done].
    + (* held by another: next tick *)
      simpl in Hretry. rewrite Hretry. simpl.
      assert (Hfuel' : fuel ≠ O).
      { intros ->. simpl in Hceil. lia. }
      destruct (IH t w2 Hfuel' ltac:(pose proof (nextTick_after t0 last); lia)
                   ltac:(nia))
        as (res & w' & retried & final & Hrun & Htr3 & Hret & Hbound & Hspace
            & Hnc3 & Hca3 & Hnow3 & Hnow4 & Hout).
      exists res, w', (attempt r t code None :: retried), final.
      repeat split; auto; try congruence; try lia.
      * rewrite Htr3, Htr2. by rewrite <- !app_assoc.
      * constructor; [by exists t, code|done].
      * simpl. constructor; [exact Hhere|exact Hbound].
      * intros [|k] ev Hk; simpl in Hk.
        -- inversion Hk; subst. simpl. lia.
        -- apply Hspace in Hk. nia.
Qed.

Lemma errContextDone_not_retryable (ctx : Context) :
  IsRetryableErr (errContextDone ctx) = false.
Proof. unfold errContextDone, ctx_Err. by destruct (cause ctx). Qed.

Lemma pollRounds_enough (r : RedisLock) :
  blockingCeiling r < (0 / pollPeriod + Z.of_nat (pollRounds r)) * pollPeriod.
Proof.
  pose proof pollPeriod_pos as HP. unfold pollRounds.
  rewrite Z.div_0_l by lia.
  pose proof (Z.mod_pos_bound (blockingCeiling r) pollPeriod HP) as Hm.
  pose proof (Z.div_mod (blockingCeiling r) pollPeriod) as Hd.
  destruct (Z.le_gt_cases 0 (blockingCeiling r / pollPeriod)) as [Hq|Hq].
  - rewrite Nat2Z.inj_add, Z2Nat.id by lia. nia.
  - rewrite Z2Nat.nonpos by lia. simpl. nia.
Qed.

Lemma tryGetBlockingLock_spec (ctx : Context) (r : RedisLock) (w : World) :
  ∃ res w' retried final,
    tryGetBlockingLock ctx r w = Some (res, w')
    ∧ trace w' = trace w ++ retried ++ final
    ∧ Forall (contended r) retried
    ∧ Forall (fun ev => atOf ev < now w + blockingCeiling r ∧ ctx_Done ctx (atOf ev) = false)
             (retried ++ final)
    ∧ (∀ k ev, (retried ++ final) !! k = Some ev →
         now w + (Z.of_nat k + 1) * pollPeriod ≤ atOf ev)
    ∧ nextCtx w' = nextCtx w ∧ cancelled w' = cancelled w
    ∧ now w + pollPeriod ≤ now w'
    ∧ match res with
      | None => ∃ ev, final = [ev] ∧ succeeded r ev
      | Some e =>
          (final = [] ∧ e = errBlockingTimeout ∧ now w + blockingCeiling r ≤ now w')
          ∨ (final = [] ∧ e = errContextDone ctx ∧ ctx_Done ctx (now w') = true)
          ∨ (∃ ev, final = [ev] ∧ failedWith r e ev ∧ IsRetryableErr e = false)
      end.
Proof.
  pose proof pollPeriod_pos as HP.
  destruct (pollLoop_spec ctx r (now w) (now w + blockingCeiling r) (pollRounds r) (now w) w)
    as (res & w' & retried & final & Hrun & Htr & Hret & Hbound & Hspace
        & Hnc & Hca & Hnow & _ & Hout).
  - unfold pollRounds. lia.
  - lia.
  - rewrite Z.sub_diag. pose proof (pollRounds_enough r). lia.
  - exists res, w', retried, final.
    rewrite Z.sub_diag, Z.div_0_l in Hspace by lia.
    unfold nextTick in Hnow. rewrite Z.sub_diag, Z.div_0_l in Hnow by lia.
    repeat split; auto; try lia;
      try (intros k ev Hk; apply Hspace in Hk; lia).
Qed.

(** When no round trip lasts longer than the period, the attempts fall on
    consecutive ticks. *)
Lemma pollLoop_on_the_tick (ctx : Context) (r : RedisLock) (t0 timeoutAt : Z) :
  ∀ (fuel : nat) (j : Z) (w w' : World) (res : option error),
    0 ≤ j →
    now w ≤ t0 + (j + 1) * pollPeriod →
    Forall (fun f => Z.of_N (took f) ≤ pollPeriod) (future w) →
    pollLoop fuel ctx r t0 timeoutAt (t0 + j * pollPeriod) w = Some (res, w') →
    ∃ evs, trace w' = trace w ++ evs
           ∧ ∀ k ev, evs !! k = Some ev → atOf ev = t0 + (j + Z.of_nat k + 1) * pollPeriod.
Proof.
  pose proof pollPeriod_pos as HP.
  induction fuel as [|fuel IH]; intros j w w' res Hj Hnow Hquick Hrun; [done|].
  simpl in Hrun.
  assert (Htick : nextTick t0 (t0 + j * pollPeriod) = t0 + (j + 1) * pollPeriod).
  { unfold nextTick. replace (t0 + j * pollPeriod - t0) with (j * pollPeriod) by lia.
    rewrite Z.div_mul by lia. reflexivity. }
  rewrite Htick in Hrun.
  replace (Z.max (now w) (t0 + (j + 1) * pollPeriod)) with (t0 + (j + 1) * pollPeriod) in Hrun by lia.
  set (t := t0 + (j + 1) * pollPeriod) in *.
  destruct (select ctx timeoutAt t (setNow t w)) as [s w1] eqn:Hsel.
  apply select_spec in Hsel as (Htr & Hnc & Hca & Hnow1 & Hfu & Hsv & Hs).
  simpl in Htr, Hnc, Hca, Hnow1, Hfu, Hsv.
  destruct s.
  - inversion Hrun; subst. exists []. rewrite app_nil_r. split; [done|].
    intros k ev Hk. done.
  - inversion Hrun; subst. exists []. rewrite app_nil_r. split; [done|].
    intros k ev Hk. done.
  - destruct (tryLock ctx r w1) as [res1 w2] eqn:Htry.
    apply tryLock_spec in Htry
      as (code & err & Htr2 & _ & _ & _ & Hnow2 & Hfu2 & _).
    rewrite Hnow1 in Htr2, Hnow2. rewrite Htr in Htr2.
    assert (Htook : Z.of_N (took (nextFate w1)) ≤ pollPeriod).
    { unfold nextFate. rewrite Hfu. destruct (future w) as [|f fs]; simpl.
      - lia.
      - by inversion Hquick. }
    assert (Hquick2 : Forall (fun f => Z.of_N (took f) ≤ pollPeriod) (future w2)).
    { destruct Hfu2 as [-> | ->]; rewrite Hfu; [done|].
      destruct (future w); [done|]. by inversion Hquick. }
    assert (Hone : ∀ k ev, [attempt r t code err] !! k = Some ev →
                           atOf ev = t0 + (j + Z.of_nat k + 1) * pollPeriod).
    { intros [|k] ev Hk; simpl in Hk; [|done]. inversion Hk; subst. simpl. unfold t. lia. }
    destruct res1 as [e|].
    + destruct (negb (IsRetryableErr e)).
      * inversion Hrun; subst. by exists [attempt r t code err].
      * replace t with (t0 + (j + 1) * pollPeriod) in Hrun by reflexivity.
        apply IH in Hrun as (evs & Htr3 & Hat); [| lia | unfold t in Hnow2; lia | done].
        exists (attempt r t code err :: evs). split.
        -- rewrite Htr3, Htr2. by rewrite <- app_assoc.
        -- intros [|k] ev Hk; simpl in Hk.
           ++ inversion Hk; subst. simpl. unfold t. lia.
           ++ apply Hat in Hk. lia.
    + inversion Hrun; subst. by exists [attempt r t code err].
Qed.

Lemma blockingCeiling_seconds (r : RedisLock) :
  0 ≤ blockWaitingSeconds (options r) ≤ 9223372036 →
  blockingCeiling r = blockWaitingSeconds (options r) * Second.
Proof.
  intros H. unfold blockingCeiling, mul64, wrap64, Second.
  rewrite Z.mod_small; lia.
Qed.

(** An attempt that is lost to another holder is one whole round trip. *)
Lemma tryLock_retry (ctx : Context) (r : RedisLock) (w w' : World) (e : error) :
  tryLock ctx r w = (Some e, w') →
  IsRetryableErr e = true →
  now w' = now w + Z.of_N (took (nextFate w))
  ∧ future w' = tail (future w) ∧ coins w' = coins w.
Proof.
  unfold tryLock, SetNEX, pool_GetContext, conn_Do. intros H Hre.
  repeat case_match; simplify_eq/=; try done.
Qed.

(** The last attempt of a run of the loop is not one that is retried. *)
Lemma not_contended_succeeded (r : RedisLock) (ev : event) :
  succeeded r ev → ¬ contended r ev.
Proof. intros (t & ->) (t' & code & Hcode & [=]). congruence. Qed.

Lemma not_contended_failedWith (r : RedisLock) (e : error) (ev : event) :
  failedWith r e ev → ¬ contended r ev.
Proof. intros (t & c & ->) (t' & code & Hcode & [=]). Qed.

(** When both cases of the [select] are ready the next pick decides. *)
Lemma select_coins (ctx : Context) (timeoutAt t : Z) (w w1 : World) (s : selected) :
  select ctx timeoutAt t w = (s, w1) →
  match s with
  | CtxDone => timeoutAt ≤ t → default false (head (coins w)) = true
  | TimedOut => ctx_Done ctx t = true → default false (head (coins w)) = false
  | Default => coins w1 = coins w
  end.
Proof.
  unfold select. intros H.
  destruct (ctx_Done ctx t) eqn:Hd; destruct (timeoutAt <=? t) eqn:Hle;
    [destruct (default false (head (coins w))) eqn:Hc| | |];
    inversion H; subst; clear H; simpl; try done.
  - apply Z.leb_gt in Hle. lia.
Qed.

Lemma pollLoop_trace (ctx : Context) (r : RedisLock) (t0 timeoutAt : Z) :
  ∀ (fuel : nat) (last : Z) (w w' : World) (res : option error),
    pollLoop fuel ctx r t0 timeoutAt last w = Some (res, w') →
    ∃ evs, trace w' = trace w ++ evs.
Proof.
  induction fuel as [|fuel IH]; intros last w w' res Hrun; [done|].
  simpl in Hrun.
  destruct (select ctx timeoutAt _ _) as [s w1] eqn:Hsel.
  apply select_spec in Hsel as (Htr1 & _). simpl in Htr1.
  destruct s; [injection Hrun as _ <-; exists []; by rewrite app_nil_r
              |injection Hrun as _ <-; exists []; by rewrite app_nil_r|].
  destruct (tryLock ctx r w1) as [res1 w2] eqn:Htry.
  apply tryLock_spec in Htry as (code & err & Htr2 & _). rewrite Htr1 in Htr2.
  destruct res1 as [e|]; [destruct (negb (IsRetryableErr e))|];
    try (injection Hrun as _ <-; by eexists).
  apply IH in Hrun as [evs Htr3]. eexists. rewrite Htr3, Htr2. by rewrite <- app_assoc.
Qed.

(** The visits of the loop to its [select] follow [visit]; a run that gives
    up does so at the visit that follows its last attempt. *)
Lemma pollLoop_schedule (ctx : Context) (r : RedisLock) (t0 timeoutAt : Z) :
  ∀ (fuel : nat) (last : Z) (w w' : World) (res : option error) (retried final : list event),
    pollLoop fuel ctx r t0 timeoutAt last w = Some (res, w') →
    trace w' = trace w ++ retried ++ final →
    Forall (contended r) retried →
    (final = [] ∨ ∃ ev, final = [ev] ∧ ¬ contended r ev) →
    let t := Z.max (now w) (nextTick t0 last) in
    (∀ k ev, (retried ++ final) !! k = Some ev → atOf ev = visit t0 (future w) t k)
    ∧ (final = [] →
       now w' = visit t0 (future w) t (length retried)
       ∧ (res = Some errBlockingTimeout → ctx_Done ctx (now w') = true →
          default false (head (coins w)) = false)
       ∧ (res = Some (errContextDone ctx) → timeoutAt ≤ now w' →
          default false (head (coins w)) = true)).
Proof.
  induction fuel as [|fuel IH]; intros last w w' res retried final Hrun Htr Hret Hfin; [done|].
  simpl in Hrun. intros t. fold t in Hrun.
  destruct (select ctx timeoutAt t (setNow t w)) as [s w1] eqn:Hsel.
  pose proof (select_coins _ _ _ _ _ _ Hsel) as Hcoin. simpl in Hcoin.
  apply select_spec in Hsel as (Htr1 & _ & _ & Hnow1 & Hfu1 & _ & Hs).
  simpl in Htr1, Hnow1, Hfu1.
  assert (Hnone : ∀ e, Some (Some e, w1) = Some (res, w') →
            (e = errBlockingTimeout → ctx_Done ctx t = true → default false (head (coins w)) = false) →
            (e = errContextDone ctx → timeoutAt ≤ t → default false (head (coins w)) = true) →
            (∀ k ev, (retried ++ final) !! k = Some ev → atOf ev = visit t0 (future w) t k)
            ∧ (final = [] →
               now w' = visit t0 (future w) t (length retried)
               ∧ (res = Some errBlockingTimeout → ctx_Done ctx (now w') = true →
                  default false (head (coins w)) = false)
               ∧ (res = Some (errContextDone ctx) → timeoutAt ≤ now w' →
                  default false (head (coins w)) = true))).
  { intros e [= <- <-] H1 H2. rewrite Htr1 in Htr.
    assert (Hnil : retried ++ final = []).
    { apply (app_inv_head (trace w)). by rewrite app_nil_r. }
    apply app_eq_nil in Hnil as [-> ->]. rewrite Hnow1. split; [done|].
    intros _. split; [done|]. split; intros [= ->]; auto. }
  destruct s.
  - apply (Hnone _ Hrun); [|done].
    intros He. exfalso. revert He. unfold errContextDone, errBlockingTimeout, ctx_Err.
    destruct (cause ctx); discriminate.
  - apply (Hnone _ Hrun); [done|].
    intros He. exfalso. revert He. unfold errContextDone, errBlockingTimeout, ctx_Err.
    destruct (cause ctx); discriminate.
  - destruct (tryLock ctx r w1) as [res1 w2] eqn:Htry.
    pose proof Htry as Htry'.
    apply tryLock_spec in Htry'
      as (code & err & Htr2 & _ & _ & Hco2 & _ & _ & Hres).
    rewrite Hnow1, Htr1 in Htr2.
    assert (Hend : Some (res1, w2) = Some (res, w') → ¬ contended r (attempt r t code err) →
              (∀ k ev, (retried ++ final) !! k = Some ev → atOf ev = visit t0 (future w) t k)
              ∧ (final = [] →
                 now w' = visit t0 (future w) t (length retried)
                 ∧ (res = Some errBlockingTimeout → ctx_Done ctx (now w') = true →
                    default false (head (coins w)) = false)
                 ∧ (res = Some (errContextDone ctx) → timeoutAt ≤ now w' →
                    default false (head (coins w)) = true))).
    { intros [= <- <-] Hnot. rewrite Htr2 in Htr. apply app_inv_head in Htr.
      split.
      - rewrite <- Htr. intros [|k] ev' Hk; [|done]. by injection Hk as <-.
      - intros ->. rewrite app_nil_r in Htr. subst retried.
        apply Forall_inv in Hret. done. }
    destruct res1 as [e|].
    + destruct (negb (IsRetryableErr e)) eqn:Hre.
      * apply Hend; [done|].
        destruct Hres as [([=] & _)|[(e' & [= <-] & -> & _)|(_ & _ & Hyes & _)]].
        -- intros (t' & c' & _ & [=]).
        -- simpl in Hyes. rewrite Hyes in Hre. done.
      * apply negb_false_iff in Hre.
        destruct (tryLock_retry _ _ _ _ _ Htry Hre) as (Hnow2 & Hfu2 & _).
        unfold nextFate in Hnow2. rewrite Hnow1, Hfu1 in Hnow2. rewrite Hfu1 in Hfu2.
        assert (Hcont : contended r (attempt r t code err)).
        { destruct Hres as [([=] & _)|[(e' & [= <-] & _ & Hno)|(-> & Hc & _)]].
          - rewrite Hno in Hre. done.
          - by exists t, code. }
        destruct (pollLoop_trace _ _ _ _ _ _ _ _ _ Hrun) as [evs Htr3].
        rewrite Htr3, Htr2, <- app_assoc in Htr. apply app_inv_head in Htr. simpl in Htr.
        destruct retried as [|ev0 retried'].
        { destruct Hfin as [->|(ev & -> & Hnot)]; [done|].
          simpl in Htr. injection Htr as <- _. done. }
        simpl in Htr. injection Htr as <- Hrest.
        apply Forall_cons in Hret as [_ Hret'].
        destruct (IH t w2 w' res retried' final Hrun) as [Hat Hgive]; auto.
        { by rewrite Htr3, Hrest. }
        rewrite Hnow2, Hfu2 in Hat, Hgive. rewrite Hco2 in Hgive. 
        assert (Hc1 : coins w1 = coins w) by exact Hcoin.
        rewrite Hc1 in Hgive.
        split.
        -- intros [|k] ev Hk; simpl in Hk.
           ++ by injection Hk as <-.
           ++ apply Hat in Hk. simpl. unfold nextFate in Hk. exact Hk.
        -- intros Hf. simpl. unfold nextFate in Hgive. by apply Hgive.
    + apply Hend; [done|].
      destruct Hres as [(_ & -> & ->)|[(e' & [=] & _)|(_ & _ & _ & [=])]].
      intros (t' & c' & Hc & [=]). congruence.
Qed.

(** With no round trip longer than the period, the visits are the ticks. *)
Lemma visit_on_the_tick (t0 : Z) :
  ∀ (k : nat) (fs : list fate) (j : Z),
    0 ≤ j →
    Forall (fun f => Z.of_N (took f) ≤ pollPeriod) fs →
    visit t0 fs (t0 + (j + 1) * pollPeriod) k = t0 + (j + Z.of_nat k + 1) * pollPeriod.
Proof.
  pose proof pollPeriod_pos as HP.
  induction k as [|k IH]; intros fs j Hj Hq; simpl; [f_equal; lia|].
  assert (Htick : nextTick t0 (t0 + (j + 1) * pollPeriod) = t0 + (j + 1 + 1) * pollPeriod).
  { unfold nextTick. replace (t0 + (j + 1) * pollPeriod - t0) with ((j + 1) * pollPeriod) by lia.
    rewrite Z.div_mul by lia. reflexivity. }
  assert (Htook : Z.of_N (took (default calm (head fs))) ≤ pollPeriod).
  { destruct fs as [|f fs]; simpl; [lia|]. by inversion Hq. }
  rewrite Htick, Z.max_r by lia.
  rewrite IH; [lia|lia|]. destruct fs; [done|]. by inversion Hq.
Qed.

(** C4. The polling loop of blocking mode always comes back, in one of four
    ways: with success, on the first attempt that succeeds; with the
    blocking-timeout error, once the ceiling has passed; with the
    context error, once the caller's context is done; or with the first
    error of an attempt that is not acquired-by-others. Every attempt
    before the last was lost to another holder (nothing else is retried)
    and none is started once the ceiling has passed or the context is done.
    The loop goes to its [select] at the instants [visit]: first at the
    first tick, 50 ms after the start, then, after each lost attempt, at
    the next tick of the 50 ms ticker or at the end of the attempt's round
    trip if that comes later; when no round trip outlasts the period these
    are the ticks, one every 50 ms. At each visit where neither the timer
    nor the context is ready an attempt is made; the loop gives up at the
    first visit where one of them is, with the error of that one, and of
    the one the runtime picks when both are. *)
Theorem tryGetBlockingLock_outcomes (ctx : Context) (r : RedisLock) (w : World) :
  let first := now w + 50 * Millisecond in
  ∃ res w' retried final,
    tryGetBlockingLock ctx r w = Some (res, w')
    ∧ trace w' = trace w ++ retried ++ final
    ∧ Forall (contended r) retried
    ∧ Forall (fun ev => atOf ev < now w + blockingCeiling r ∧ ctx_Done ctx (atOf ev) = false)
             (retried ++ final)
    ∧ (∀ k ev, (retried ++ final) !! k = Some ev →
         atOf ev = visit (now w) (future w) first k
         ∧ now w + (Z.of_nat k + 1) * (50 * Millisecond) ≤ atOf ev)
    ∧ (Forall (fun f => Z.of_N (took f) ≤ 50 * Millisecond) (future w) →
       ∀ k, visit (now w) (future w) first k = now w + (Z.of_nat k + 1) * (50 * Millisecond))
    ∧ match res with
      | None => ∃ ev, final = [ev] ∧ succeeded r ev
      | Some e =>
          (final = [] ∧ e = errBlockingTimeout
           ∧ now w' = visit (now w) (future w) first (length retried)
           ∧ now w + blockingCeiling r ≤ now w'
           ∧ (ctx_Done ctx (now w') = true → default false (head (coins w)) = false))
          ∨ (final = [] ∧ e = errContextDone ctx
             ∧ now w' = visit (now w) (future w) first (length retried)
             ∧ ctx_Done ctx (now w') = true
             ∧ (now w + blockingCeiling r ≤ now w' → default false (head (coins w)) = true))
          ∨ (∃ ev, final = [ev] ∧ failedWith r e ev ∧ IsRetryableErr e = false)
      end
    ∧ (0 ≤ blockWaitingSeconds (options r) ≤ 9223372036 →
       blockingCeiling r = blockWaitingSeconds (options r) * Second).
Proof.
  intros first. pose proof pollPeriod_pos as HP.
  destruct (tryGetBlockingLock_spec ctx r w)
    as (res & w' & retried & final & Hrun & Htr & Hret & Hbound & Hspace & _ & _ & _ & Hout).
  assert (Hfirst : Z.max (now w) (nextTick (now w) (now w)) = first).
  { unfold nextTick, first. rewrite Z.sub_diag, Z.div_0_l by lia. fold pollPeriod. lia. }
  assert (Hfin : final = [] ∨ ∃ ev, final = [ev] ∧ ¬ contended r ev).
  { destruct res as [e|].
    - destruct Hout as [(-> & _)|[(-> & _)|(ev & -> & Hev & _)]]; auto.
      right. exists ev. split; [done|]. by eapply not_contended_failedWith.
    - destruct Hout as (ev & -> & Hev). right. exists ev. split; [done|].
      by apply not_contended_succeeded. }
  pose proof Hrun as Hrun'. unfold tryGetBlockingLock in Hrun'.
  destruct (pollLoop_schedule _ _ _ _ _ _ _ _ _ _ _ Hrun' Htr Hret Hfin) as [Hat Hgive].
  rewrite Hfirst in Hat, Hgive.
  exists res, w', retried, final.
  split; [exact Hrun|]. split; [exact Htr|]. split; [exact Hret|]. split; [exact Hbound|].
  split; [|split; [|split; [|apply blockingCeiling_seconds]]].
  - intros k ev Hk. split; [by apply Hat|]. apply Hspace in Hk. fold pollPeriod. lia.
  - intros Hquick k. fold pollPeriod. unfold first. fold pollPeriod.
    replace (now w + pollPeriod) with (now w + (0 + 1) * pollPeriod) by lia.
    rewrite visit_on_the_tick; [f_equal; lia|lia|exact Hquick].
  - destruct res as [e|]; [|exact Hout].
    destruct Hout as [(Hf & -> & Hceil)|[(Hf & -> & Hdone)|Hlast]].
    + left. destruct (Hgive Hf) as (Hnow & Hpick & _). split_and!; auto.
    + right; left. destruct (Hgive Hf) as (Hnow & _ & Hpick). split_and!; auto.
    + right; right. exact Hlast.
Qed.

Lemma tryGetBlockingLock_outcomes_witness :
  ∃ w', tryGetBlockingLock Background waiter heldWorld = Some (Some errBlockingTimeout, w')
        ∧ now w' = 1000 * Millisecond
        ∧ length (added heldWorld w') = 19%nat
        ∧ ∀ k ev, added heldWorld w' !! k = Some ev →
                  atOf ev = (Z.of_nat k + 1) * (50 * Millisecond).
Proof.
  destruct (tryGetBlockingLock_outcomes Background waiter heldWorld)
    as (res & w' & retried & final & Hrun & Htr & _ & _ & Hat & Hquick & _ & _).
  exists w'.
  assert (Hval : ∃ w0, tryGetBlockingLock Background waiter heldWorld
                       = Some (Some errBlockingTimeout, w0)
                       ∧ now w0 = 1000 * Millisecond
                       ∧ length (added heldWorld w0) = 19%nat).
  { eexists. split; [vm_compute; reflexivity|]. split; vm_compute; reflexivity. }
  destruct Hval as (w0 & Hval & Hnow0 & Hlen0).
  rewrite Hrun in Hval. injection Hval as Hres Hw0. subst res w0.
  split; [exact Hrun|]. split; [exact Hnow0|]. split; [exact Hlen0|].
  intros k ev Hk. unfold added in Hk. rewrite Htr, drop_app_length in Hk.
  destruct (Hat k ev Hk) as [-> _].
  rewrite (Hquick ltac:(constructor)). reflexivity.
Defined.

(** The four ways out of the loop, on runs of [waiter]. *)

Example loop_succeeds_once_released :
  (fun p => (p.1, now p.2))
    <$> tryGetBlockingLock Background waiter (withFuture [calm; calm; released] heldWorld)
  = Some (None, 150 * Millisecond).
Proof. vm_compute. reflexivity. Qed.

Example loop_times_out :
  (fun p => (p.1, now p.2)) <$> tryGetBlockingLock Background waiter heldWorld
  = Some (Some errBlockingTimeout, 1000 * Millisecond).
Proof. vm_compute. reflexivity. Qed.

Example loop_sees_context_done :
  (fun p => (p.1, now p.2))
    <$> tryGetBlockingLock (mkContext (Some (120 * Millisecond)) Canceled) waiter heldWorld
  = Some (Some (errContextDone (mkContext (Some (120 * Millisecond)) Canceled)),
          150 * Millisecond).
Proof. vm_compute. reflexivity. Qed.

Example loop_gives_back_other_errors :
  (fun p => (p.1, now p.2))
    <$> tryGetBlockingLock Background waiter (withFuture [calm; unreachable] heldWorld)
  = Some (Some (connError "dial tcp 127.0.0.1:6379: connect: connection refused"),
          100 * Millisecond).
Proof. vm_compute. reflexivity. Qed.

(** Timer and context ready at the same tick: the runtime picks. *)
Example loop_both_ready :
  let ctx := mkContext (Some (1000 * Millisecond)) DeadlineExceeded in
  fst <$> tryGetBlockingLock ctx waiter heldWorld = Some (Some errBlockingTimeout)
  ∧ fst <$> tryGetBlockingLock ctx waiter (setCoins [true] heldWorld)
    = Some (Some (errContextDone ctx)).
Proof. split; vm_compute; reflexivity. Qed.

(** ** Lock *)

Lemma contended_isAttempt (r : RedisLock) (ev : event) : contended r ev → isAttempt r ev.
Proof. intros (t & code & _ & ->). by exists t, code, None. Qed.

Lemma isAttempt_plain (r : RedisLock) (ev : event) :
  isAttempt r ev → isEvalEvent ev = false ∧ isGo ev = false.
Proof. intros (t & code & err & ->). done. Qed.

(** The compare-and-swap loop moves nothing but the clock. *)
Lemma casLoop_frame (r : RedisLock) (w w0 : World) :
  casLoop r w = Some w0 →
  trace w0 = trace w ∧ nextCtx w0 = nextCtx w ∧ cancelled w0 = cancelled w
  ∧ servers w0 = servers w ∧ future w0 = future w ∧ coins w0 = coins w
  ∧ dogs w0 = dogs w ∧ now w ≤ now w0.
Proof.
  unfold casLoop. intros H.
  destruct (decide (runningDog r = 0)); [injection H as <-; by split_and!|].
  destruct (stopDog r) as [id|]; [|done].
  destruct (dogs w !! id) as [d|]; [|done].
  destruct (dogLeavesAt (pace w id) d) as [t|]; [|done].
  injection H as <-. simpl. split_and!; try done. lia.
Qed.

Lemma casLoop_forever (r : RedisLock) (w : World) :
  casLoop r w = None → runningDog r ≠ 0.
Proof. unfold casLoop. by destruct (decide (runningDog r = 0)). Qed.

(** What [Lock] does, whichever way it ends: it never runs out of the
    bound given to the polling loop; it turns for ever only in watchdog
    mode with a renewal task still registered; when it returns, it has
    only made acquisition attempts and, in watchdog mode and on success,
    started one renewal task. *)
Lemma Lock_spec (ctx : Context) (r : RedisLock) (w : World) :
  match Lock ctx r w with
  | OutOfFuel => False
  | Spins => watchDogMode (options r) = true ∧ runningDog r ≠ 0
  | Returns (err, r', w') =>
      ∃ evs go,
        trace w' = trace w ++ evs ++ go
        ∧ evs ≠ [] ∧ Forall (isAttempt r) evs
        ∧ cancelled w' = cancelled w ∧ now w ≤ now w'
        ∧ options r' = options r ∧ key r' = key r ∧ token r' = token r
        ∧ client r' = client r
        ∧ ((go = [] ∧ r' = r ∧ nextCtx w' = nextCtx w
            ∧ (err = None → watchDogMode (options r) = false))
           ∨ (go = [EvGo (nextCtx w)] ∧ err = None ∧ watchDogMode (options r) = true
              ∧ runningDog r' = 1 ∧ stopDog r' = Some (nextCtx w)
              ∧ nextCtx w' = S (nextCtx w)))
  end.
Proof.
  unfold Lock.
  assert (Hleave : ∀ err w1 evs,
             trace w1 = trace w ++ evs → evs ≠ [] → Forall (isAttempt r) evs →
             cancelled w1 = cancelled w → nextCtx w1 = nextCtx w → now w ≤ now w1 →
             match Lock_deferred ctx r err w1 with
             | OutOfFuel => False
             | Spins => watchDogMode (options r) = true ∧ runningDog r ≠ 0
             | Returns (err, r', w') =>
                 ∃ evs go,
                   trace w' = trace w ++ evs ++ go
                   ∧ evs ≠ [] ∧ Forall (isAttempt r) evs
                   ∧ cancelled w' = cancelled w ∧ now w ≤ now w'
                   ∧ options r' = options r ∧ key r' = key r ∧ token r' = token r
                   ∧ client r' = client r
                   ∧ ((go = [] ∧ r' = r ∧ nextCtx w' = nextCtx w
                       ∧ (err = None → watchDogMode (options r) = false))
                      ∨ (go = [EvGo (nextCtx w)] ∧ err = None
                         ∧ watchDogMode (options r) = true
                         ∧ runningDog r' = 1
                         ∧ stopDog r' = Some (nextCtx w)
                         ∧ nextCtx w' = S (nextCtx w)))
             end).
  { intros err w1 evs Htr Hne Hall Hca Hnc Hnow. unfold Lock_deferred.
    destruct err as [e|].
    - exists evs, []. rewrite app_nil_r. repeat split; auto.
      left. repeat split; auto. intros [=].
    - unfold watchDog. destruct (watchDogMode (options r)) eqn:Hwd; simpl.
      + destruct (casLoop r w1) as [w0|] eqn:Hcas;
          [|split; [done|by eapply casLoop_forever]].
        apply casLoop_frame in Hcas as (Htr0 & Hnc0 & Hca0 & _ & _ & _ & _ & Hnow0).
        exists evs, [EvGo (nextCtx w)]. simpl.
        rewrite Htr0, Hnc0, Htr, Hnc, <- app_assoc. repeat split; auto; try congruence; try lia.
        right. repeat split; auto.
      + exists evs, []. rewrite app_nil_r. repeat split; auto. }
  destruct (tryLock ctx r w) as [res w1] eqn:Htry.
  apply tryLock_spec in Htry
    as (code & err & Htr & Hnc & Hca & _ & Hnow & _ & Hres).
  assert (Hfirst : Forall (isAttempt r) [attempt r (now w) code err]).
  { constructor; [|constructor]. by exists (now w), code, err. }
  destruct res as [e|]; [|by eapply Hleave; eauto; lia].
  destruct (negb (isBlock (options r))); [by eapply Hleave; eauto; lia|].
  destruct (negb (IsRetryableErr e)); [by eapply Hleave; eauto; lia|].
  destruct (tryGetBlockingLock_spec ctx r w1)
    as (res' & w2 & retried & final & Hrun & Htr2 & Hret & _ & _ & Hnc2 & Hca2 & Hnow2 & Hout).
  rewrite Hrun.
  pose proof pollPeriod_pos as HP.
  eapply (Hleave res' w2 ([attempt r (now w) code err] ++ retried ++ final)).
  - rewrite Htr2, Htr. by rewrite <- app_assoc.
  - done.
  - apply Forall_app. split; [exact Hfirst|]. apply Forall_app. split.
    + eapply Forall_impl; [exact Hret|]. apply contended_isAttempt.
    + destruct res' as [e'|].
      * destruct Hout as [(-> & _)|[(-> & _)|(ev & -> & (t & c & ->) & _)]];
          repeat constructor. by exists t, c, (Some e').
      * destruct Hout as (ev & -> & (t & ->)). repeat constructor. by exists t, 1, None.
  - congruence.
  - congruence.
  - lia.
Qed.

Lemma NewRedisLock_watchDogMode (token key : string) (c : Client) (opts : list LockOption) :
  watchDogMode (options (NewRedisLock token key c opts))
  = negb (0 <? expireSeconds (applyLockOptions opts zeroLockOptions)).
Proof.
  simpl. apply setLockOptions_watchDogMode.
  by rewrite applyLockOptions_watchDogMode.
Qed.

(** A lock that is not in watchdog mode comes back from [Lock] as it went
    in: no renewal task is started. *)
Lemma Lock_no_watchdog (ctx : Context) (r : RedisLock) (w : World) :
  watchDogMode (options r) = false →
  ∃ err w' evs,
    Lock ctx r w = Returns (err, r, w')
    ∧ trace w' = trace w ++ evs
    ∧ Forall (isAttempt r) evs
    ∧ nextCtx w' = nextCtx w ∧ cancelled w' = cancelled w ∧ now w ≤ now w'.
Proof.
  intros Hwd. pose proof (Lock_spec ctx r w) as H.
  destruct (Lock ctx r w) as [[[err r'] w']| |]; [| |done].
  - destruct H as (evs & go & Htr & _ & Hall & Hca & Hnow & _ & _ & _ & _ & Hgo).
    destruct Hgo as [(-> & -> & Hnc & _)|(_ & _ & Hwd' & _)]; [|congruence].
    exists err, w', evs. rewrite app_nil_r in Htr. auto 10.
  - destruct H as [H _]. congruence.
Qed.



(** ** Round trips, spelled out *)

Lemma server_setServer (addr : string) (ks : keyspace) (w : World) :
  server addr (setServer addr ks w) = ks.
Proof. unfold server, setServer. simpl. by rewrite lookup_insert_eq. Qed.

Lemma server_emit (addr : string) (e : event) (w : World) :
  server addr (emit e w) = server addr w.
Proof. reflexivity. Qed.

Lemma server_setNow (addr : string) (t : Z) (w : World) :
  server addr (setNow t w) = server addr w.
Proof. reflexivity. Qed.

Lemma Eval_run (c : Client) (src : script) (n : Z) (args : list arg) (w : World) :
  let ks := arriving (address c) w in
  let base := setNow (now w + Z.of_N (took (nextFate w)))
                     (setServer (address c) ks (setFuture (tail (future w)) w)) in
  let log rep err w' := ((rep, err), emit (EvEval (now w) (address c) src args rep err) w') in
  Eval c src n args w =
  match link (nextFate w) with
  | DialError msg => log (ReplyInt (-1)) (Some (connError msg)) base
  | ConnError msg executed =>
      log ReplyNil (Some (connError msg))
          (if executed then setServer (address c) (snd (cmdEval src n args ks)) base else base)
  | Delivered =>
      match cmdEval src n args ks with
      | (inl rep, ks') => log rep None (setServer (address c) ks' base)
      | (inr e, ks') => log ReplyNil (Some e) (setServer (address c) ks' base)
      end
  end.
Proof.
  intros ks base log. unfold Eval, pool_GetContext.
  destruct (link (nextFate w)) as [| msg | msg executed] eqn:Hl; simpl.
  - unfold conn_Do. simpl. rewrite Hl, server_setServer. fold ks.
    destruct (cmdEval src n args ks) as [[rep|e] ks']; reflexivity.
  - reflexivity.
  - unfold conn_Do. simpl. rewrite Hl, server_setServer. fold ks.
    destruct (cmdEval src n args ks) as [[rep|e] ks']; destruct executed; reflexivity.
Qed.

Lemma SetNEX_run (c : Client) (k v : string) (s : Z) (w : World) :
  k ≠ "" → v ≠ "" →
  let ks := arriving (address c) w in
  let base := setNow (now w + Z.of_N (took (nextFate w)))
                     (setServer (address c) ks (setFuture (tail (future w)) w)) in
  let log code err w' := ((code, err), emit (EvSetNEX (now w) (address c) k v s code err) w') in
  SetNEX c k v s w =
  match link (nextFate w) with
  | DialError msg => log (-1) (Some (connError msg)) base
  | ConnError msg executed =>
      log (-1) (Some (connError msg))
          (if executed then setServer (address c) (snd (cmdSetEXNX k v s ks)) base else base)
  | Delivered =>
      match cmdSetEXNX k v s ks with
      | (inl (ReplyStatus resp), ks') =>
          log (if decide (strings_ToLower resp = "ok") then 1 else 0) None
              (setServer (address c) ks' base)
      | (inl (ReplyInt64 m), ks') => log m None (setServer (address c) ks' base)
      | (inl _, ks') => log 0 None (setServer (address c) ks' base)
      | (inr e, ks') => log (-1) (Some e) (setServer (address c) ks' base)
      end
  end.
Proof.
  intros Hk Hv ks base log. unfold SetNEX, pool_GetContext.
  destruct (decide (k = "" ∨ v = "")) as [[?|?]|_]; [done|done|].
  destruct (link (nextFate w)) as [| msg | msg executed] eqn:Hl; simpl.
  - unfold conn_Do. simpl. rewrite Hl, server_setServer. fold ks.
    destruct (cmdSetEXNX k v s ks) as [[rep|e] ks']; [|reflexivity].
    destruct rep as [|m|resp|m]; try reflexivity.
    by destruct (decide (strings_ToLower resp = "ok")).
  - reflexivity.
  - unfold conn_Do. simpl. rewrite Hl, server_setServer. fold ks.
    destruct (cmdSetEXNX k v s ks) as [[rep|e] ks']; destruct executed; reflexivity.
Qed.

Lemma server_Unlock_deferred (addr : string) (r : RedisLock) (err : option error) (w : World) :
  server addr (Unlock_deferred r err w).2 = server addr w
  ∧ (Unlock_deferred r err w).1 = (err, r).
Proof. unfold Unlock_deferred. by destruct (stopDog r). Qed.

(** The release script on a key space, in the lock's terms. *)
Lemma cmdEval_release (r : RedisLock) (ks : keyspace) :
  cmdEval LuaCheckAndDeleteDistributionLock 1
          [ArgString (getLockKey r); ArgString (token r)] ks
  = if decide (storedAt r ks = Some (token r))
    then (inl (ReplyInt64 1), delete (getLockKey r) ks)
    else (inl (ReplyInt64 0), ks).
Proof.
  unfold cmdEval, storedAt.
  destruct (ks !! getLockKey r) as [e|]; simpl.
  - destruct (decide (held e = token r)) as [Heq|Hne];
      destruct (decide (Some (held e) = Some (token r))) as [Heq'|Hne'];
      try reflexivity; congruence.
  - destruct (decide (None = Some (token r))); [done|reflexivity].
Qed.

(** ** Unlock *)

Lemma Unlock_run (ctx : Context) (r : RedisLock) (w : World) :
  let addr := address (client r) in
  let ks := arriving addr w in
  let base := setNow (now w + Z.of_N (took (nextFate w)))
                     (setServer addr ks (setFuture (tail (future w)) w)) in
  let sent rep err :=
    EvEval (now w) addr LuaCheckAndDeleteDistributionLock
           [ArgString (getLockKey r); ArgString (token r)] rep err in
  let after := if decide (storedAt r ks = Some (token r))
               then delete (getLockKey r) ks else ks in
  Unlock ctx r w =
  match link (nextFate w) with
  | DialError msg =>
      Unlock_deferred r (Some (connError msg))
        (emit (sent (ReplyInt (-1)) (Some (connError msg))) base)
  | ConnError msg executed =>
      Unlock_deferred r (Some (connError msg))
        (emit (sent ReplyNil (Some (connError msg)))
              (if executed then setServer addr after base else base))
  | Delivered =>
      if decide (storedAt r ks = Some (token r))
      then Unlock_deferred r None
             (emit (sent (ReplyInt64 1) None) (setServer addr (delete (getLockKey r) ks) base))
      else Unlock_deferred r (Some errNotOwner)
             (emit (sent (ReplyInt64 0) None) (setServer addr ks base))
  end.
Proof.
  intros addr ks base sent after. unfold Unlock. rewrite Eval_run.
  fold addr. fold ks. rewrite cmdEval_release. unfold after.
  destruct (link (nextFate w)) as [| msg | msg executed].
  - destruct (decide (storedAt r ks = Some (token r))); reflexivity.
  - reflexivity.
  - destruct (decide (storedAt r ks = Some (token r))); reflexivity.
Qed.

(** C1. [Unlock] against any state of the store. With [ks] the key space
    as the script finds it: the call fails with the not-owner error exactly
    when the script ran, its answer came back, and the value stored at the
    lock key is not this lock's token (absent included), that is, when the
    script answers 0; the key space is then as it was. It succeeds exactly
    when the answer came back and the stored value is the token; the key is
    then deleted. Whenever the stored value is not the token, nothing is
    deleted, whatever the call returns; and a round trip that fails returns
    that failure, neither of the two. *)
Theorem Unlock_ownership (ctx : Context) (r : RedisLock) (w : World) :
  let addr := address (client r) in
  let ks := arriving addr w in
  ∃ err w',
    Unlock ctx r w = (err, r, w')
    ∧ (err = Some errNotOwner ↔ answered w ∧ storedAt r ks ≠ Some (token r))
    ∧ (err = None ↔ answered w ∧ storedAt r ks = Some (token r))
    ∧ (storedAt r ks ≠ Some (token r) → server addr w' = ks)
    ∧ (err = None →
       server addr w' = delete (getLockKey r) ks ∧ storedAt r (server addr w') = None)
    ∧ (∀ msg, failing msg w → err = Some (connError msg)).
Proof.
  intros addr ks. rewrite Unlock_run. fold addr. fold ks. unfold answered, failing.
  set (base := setNow _ _).
  assert (Hbase : server addr base = ks).
  { unfold base. by rewrite server_setNow, server_setServer. }
  destruct (link (nextFate w)) as [| msg | msg executed] eqn:Hl;
    [destruct (decide (storedAt r ks = Some (token r))) as [Hown|Hother]| |];
    match goal with |- context [Unlock_deferred r ?e0 ?w1] =>
      destruct (server_Unlock_deferred addr r e0 w1) as [Hs He];
      destruct (Unlock_deferred r e0 w1) as [[e r'] w'];
      simpl in Hs, He; injection He as -> ->;
      exists e0, w'; rewrite Hs, server_emit
    end.
  - (* the script answers 1 *)
    rewrite server_setServer. split_and!.
    + reflexivity.
    + split; [done|]. intros [_ ?]. done.
    + split; done.
    + done.
    + intros _. split; [done|]. unfold storedAt. by rewrite lookup_delete_eq.
    + intros msg [?|[? ?]]; done.
  - (* the script answers 0 *)
    rewrite server_setServer. split_and!.
    + reflexivity.
    + split; done.
    + split; [done|]. intros [_ ?]. done.
    + done.
    + done.
    + intros msg [?|[? ?]]; done.
  - (* no connection *)
    rewrite Hbase. split_and!.
    + reflexivity.
    + split; [done|]. intros [? _]. done.
    + split; [done|]. intros [? _]. done.
    + done.
    + done.
    + intros m [[= ->]|[? [=]]]. done.
  - (* the connection breaks *)
    split_and!.
    + reflexivity.
    + split; [done|]. intros [? _]. done.
    + split; [done|]. intros [? _]. done.
    + intros Hother. rewrite decide_False by done.
      destruct executed; [by rewrite server_setServer|done].
    + done.
    + intros m [[=]|[? [= -> _]]]. done.
Qed.

Lemma Unlock_ownership_witness :
  (∃ w', Unlock Background passerby heldWorld = (Some errNotOwner, passerby, w')
         ∧ server "127.0.0.1:6379" w' = server "127.0.0.1:6379" heldWorld)
  ∧ (∃ w', Unlock Background holder heldWorld = (None, holder, w')
           ∧ storedAt holder (server "127.0.0.1:6379" w') = None).
Proof.
  split.
  - destruct (Unlock_ownership Background passerby heldWorld)
      as (err & w' & Hrun & Hno & _ & Hkeep & _).
    assert (Hst : storedAt passerby (arriving (address (client passerby)) heldWorld)
                  ≠ Some (token passerby)) by (vm_compute; intros [=]).
    assert (Herr : err = Some errNotOwner) by (apply Hno; split; [reflexivity|exact Hst]).
    subst err. exists w'. split; [exact Hrun|]. exact (Hkeep Hst).
  - destruct (Unlock_ownership Background holder heldWorld)
      as (err & w' & Hrun & _ & Hyes & _ & Hgone & _).
    assert (Herr : err = None) by (apply Hyes; split; reflexivity).
    subst err. exists w'. split; [exact Hrun|]. exact (proj2 (Hgone eq_refl)).
Defined.

(** C8, as stated, fails: with a renewal task armed, the release script is
    sent first and the task is told to stop only afterwards. *)
Lemma Unlock_stop_not_first :
  ¬ (∀ ctx r w id,
       stopDog r = Some id →
       stoppedBeforeRelease (added w (Unlock ctx r w).2) = true).
Proof.
  intros H. specialize (H Background watched watchedWorld 0%nat eq_refl).
  vm_compute in H. discriminate H.
Qed.

(** C8, amended. With a renewal task armed, [Unlock] tells it to stop on
    every way out (success, not-owner, failed round trip), and does so
    after the round trip of the release script has ended: the trace grows
    by the script call followed by the stop, in that order. *)
Theorem Unlock_stops_after_release (ctx : Context) (r : RedisLock) (w : World) (id : nat) :
  stopDog r = Some id →
  ∃ err w' rep rerr,
    Unlock ctx r w = (err, r, w')
    ∧ trace w' = trace w
                 ++ [EvEval (now w) (address (client r)) LuaCheckAndDeleteDistributionLock
                            [ArgString (getLockKey r); ArgString (token r)] rep rerr;
                     EvCancel id]
    ∧ cancelled w' = cancelled w ++ [id]
    ∧ stoppedBeforeRelease (added w w') = false
    ∧ (err = None ∨ err = Some errNotOwner ∨ ∃ msg, err = Some (connError msg) ∧ failing msg w).
Proof.
  intros Hdog. rewrite Unlock_run. unfold Unlock_deferred, failing, added. rewrite Hdog.
  destruct (link (nextFate w)) as [| msg | msg executed] eqn:Hl;
    [destruct (decide (storedAt r (arriving (address (client r)) w) = Some (token r)))
    | |destruct executed];
    (eexists _, _, _, _; split; [reflexivity|]; simpl;
     split; [by rewrite <- app_assoc|]; split; [reflexivity|];
     split; [by rewrite <- app_assoc, drop_app_length|]).
  - by left.
  - right. by left.
  - right. right. exists msg. split; [done|]. by left.
  - right. right. exists msg. split; [done|]. right. by exists true.
  - right. right. exists msg. split; [done|]. right. by exists false.
Qed.

Lemma Unlock_stops_after_release_witness :
  stopDog watched = Some 0%nat
  ∧ ∃ err w' rep rerr,
      Unlock Background watched watchedWorld = (err, watched, w')
      ∧ trace w' = trace watchedWorld
                   ++ [EvEval (now watchedWorld) (address (client watched))
                              LuaCheckAndDeleteDistributionLock
                              [ArgString (getLockKey watched); ArgString (token watched)] rep rerr;
                       EvCancel 0%nat]
      ∧ cancelled w' = cancelled watchedWorld ++ [0%nat]
      ∧ stoppedBeforeRelease (added watchedWorld w') = false
      ∧ (err = None ∨ err = Some errNotOwner
         ∨ ∃ msg, err = Some (connError msg) ∧ failing msg watchedWorld).
Proof.
  split; [reflexivity|].
  apply (Unlock_stops_after_release Background watched watchedWorld 0%nat). reflexivity.
Defined.

(** ** Lock without blocking *)

Lemma getLockKey_not_empty (r : RedisLock) : getLockKey r ≠ "".
Proof. unfold getLockKey, RedisLockKeyPrefix. simpl. discriminate. Qed.

Lemma NewRedisLock_expire_pos (token key : string) (c : Client) (opts : list LockOption) :
  0 < expireSeconds (options (NewRedisLock token key c opts)).
Proof.
  simpl. rewrite setLockOptions_expireSeconds.
  destruct (0 <? expireSeconds (applyLockOptions opts zeroLockOptions)) eqn:H.
  - by apply Z.ltb_lt.
  - reflexivity.
Qed.

(** With blocking off, [Lock] is one attempt: its error is the call's. *)
Lemma nonblocking_Lock_error (ctx : Context) (r : RedisLock) (w w1 : World) (e : error) :
  isBlock (options r) = false →
  tryLock ctx r w = (Some e, w1) →
  Lock ctx r w = Returns (Some e, r, w1).
Proof. intros Hnb Htry. unfold Lock. rewrite Htry, Hnb. reflexivity. Qed.

(** C6. A lock with blocking off, on a key that is held (by whatever
    value, a different one included): [Lock] returns the acquired-by-others
    error after its one attempt, the key space is as the attempt found it,
    the lock object is unchanged and no renewal task is started. A round
    trip that fails is returned as that failure, again after the one
    attempt; and whatever error the attempt gives is the error of the
    call. *)
Theorem Lock_nonblocking (ctx : Context) (r : RedisLock) (w : World) :
  isBlock (options r) = false →
  token r ≠ "" →
  let addr := address (client r) in
  let ks := arriving addr w in
  (∀ v, 0 < expireSeconds (options r) → answered w → storedAt r ks = Some v →
        ∃ e w',
          Lock ctx r w = Returns (Some e, r, w')
          ∧ e = Errorf_w "reply: 0, err: " ErrLockAcquiredByOthers
          ∧ errors_Is e AcquiredByOthers = true
          ∧ trace w' = trace w ++ [attempt r (now w) 0 None]
          ∧ server addr w' = ks
          ∧ nextCtx w' = nextCtx w ∧ cancelled w' = cancelled w)
  ∧ (∀ msg, failing msg w →
        ∃ w',
          Lock ctx r w = Returns (Some (connError msg), r, w')
          ∧ trace w' = trace w ++ [attempt r (now w) (-1) (Some (connError msg))])
  ∧ (∀ e w1, tryLock ctx r w = (Some e, w1) → Lock ctx r w = Returns (Some e, r, w1)).
Proof.
  intros Hnb Htok addr ks.
  pose proof (getLockKey_not_empty r) as Hkey.
  split; [|split].
  - intros v Hexp Hans Hheld.
    assert (Htry : tryLock ctx r w
                   = (Some (Errorf_w "reply: 0, err: " ErrLockAcquiredByOthers),
                      emit (attempt r (now w) 0 None)
                           (setServer addr ks
                              (setNow (now w + Z.of_N (took (nextFate w)))
                                 (setServer addr ks (setFuture (tail (future w)) w)))))).
    { unfold tryLock. rewrite SetNEX_run by assumption. fold addr. fold ks.
      unfold answered in Hans. rewrite Hans. unfold cmdSetEXNX.
      destruct (expireSeconds (options r) <=? 0) eqn:Hle; [apply Z.leb_le in Hle; lia|].
      unfold storedAt in Hheld.
      destruct (ks !! getLockKey r) as [en|]; [|done]. reflexivity. }
    eexists _, _. split; [by apply nonblocking_Lock_error|].
    split; [reflexivity|]. split; [reflexivity|]. split; [reflexivity|].
    split; [by rewrite server_emit, server_setServer|]. split; reflexivity.
  - intros msg Hfail.
    assert (Htry : ∃ w1, tryLock ctx r w = (Some (connError msg), w1)
                         ∧ trace w1 = trace w ++ [attempt r (now w) (-1) (Some (connError msg))]).
    { unfold tryLock. rewrite SetNEX_run by assumption.
      destruct Hfail as [Hl|[executed Hl]]; rewrite Hl.
      - eexists. split; reflexivity.
      - destruct executed; (eexists; split; reflexivity). }
    destruct Htry as (w1 & Htry & Htr). exists w1.
    split; [by apply nonblocking_Lock_error|exact Htr].
  - intros e w1 Htry. by apply nonblocking_Lock_error.
Qed.

Lemma Lock_nonblocking_witness :
  (∃ e w',
      Lock Background passerby heldWorld = Returns (Some e, passerby, w')
      ∧ e = Errorf_w "reply: 0, err: " ErrLockAcquiredByOthers
      ∧ errors_Is e AcquiredByOthers = true
      ∧ trace w' = trace heldWorld ++ [attempt passerby (now heldWorld) 0 None]
      ∧ server "127.0.0.1:6379" w' = server "127.0.0.1:6379" heldWorld
      ∧ nextCtx w' = nextCtx heldWorld ∧ cancelled w' = cancelled heldWorld)
  ∧ (∃ w',
      Lock Background passerby (withFuture [unreachable] heldWorld)
      = Returns (Some (connError "dial tcp 127.0.0.1:6379: connect: connection refused"),
                 passerby, w')
      ∧ length (added (withFuture [unreachable] heldWorld) w') = 1%nat).
Proof.
  split.
  - destruct (Lock_nonblocking Background passerby heldWorld eq_refl ltac:(discriminate))
      as (Hheld & _ & _).
    apply (Hheld "100_1"); reflexivity.
  - destruct (Lock_nonblocking Background passerby (withFuture [unreachable] heldWorld)
                eq_refl ltac:(discriminate))
      as (_ & Hfail & _).
    destruct (Hfail "dial tcp 127.0.0.1:6379: connect: connection refused")
      as (w' & Hrun & Htr).
    { left. reflexivity. }
    exists w'. split; [exact Hrun|].
    unfold added. rewrite Htr, drop_app_length. reflexivity.
Defined.

(** ** The blocking-timeout error *)

(** C10. The error the polling loop returns when its [select] takes the
    timer's case wraps [ErrLockAcquiredByOthers]: [errors.Is] against the
    sentinel and [IsRetryableErr] both hold for it. It is the only
    retryable error the loop ever returns, and the error of a plain lost
    attempt passes the same two tests: the sentinel does not tell a
    timeout of blocking mode from contention. *)
Theorem blocking_timeout_is_retryable :
  (∀ fuel ctx r t0 timeoutAt last w w1,
      select ctx timeoutAt (Z.max (now w) (nextTick t0 last))
             (setNow (Z.max (now w) (nextTick t0 last)) w) = (TimedOut, w1) →
      ∃ e, pollLoop (S fuel) ctx r t0 timeoutAt last w = Some (Some e, w1)
           ∧ e = errBlockingTimeout
           ∧ errors_Is e AcquiredByOthers = true
           ∧ IsRetryableErr e = true)
  ∧ (∀ ctx r w e w',
        tryGetBlockingLock ctx r w = Some (Some e, w') →
        (IsRetryableErr e = true ↔ e = errBlockingTimeout))
  ∧ (∀ ctx r w e w',
        tryLock ctx r w = (Some e, w') →
        (∃ code, code ≠ 1 ∧ trace w' = trace w ++ [attempt r (now w) code None]) →
        errors_Is e AcquiredByOthers = true ∧ IsRetryableErr e = true).
Proof.
  split; [|split].
  - intros fuel ctx r t0 timeoutAt last w w1 Hsel.
    exists errBlockingTimeout. simpl pollLoop. rewrite Hsel. done.
  - intros ctx r w e w' Hrun.
    destruct (tryGetBlockingLock_spec ctx r w)
      as (res & w2 & retried & final & Hrun' & _ & _ & _ & _ & _ & _ & _ & Hout).
    rewrite Hrun in Hrun'. injection Hrun' as <- <-.
    destruct Hout as [(_ & -> & _)|[(_ & -> & _)|(ev & _ & _ & Hnr)]].
    + done.
    + rewrite errContextDone_not_retryable. split; [done|].
      unfold errContextDone, errBlockingTimeout, ctx_Err.
      destruct (cause ctx); intros [=].
    + rewrite Hnr. split; [done|]. intros ->. done.
  - intros ctx r w e w' Htry (code & Hcode & Htr).
    apply tryLock_spec in Htry as (code' & err' & Htr' & _ & _ & _ & _ & _ & Hres).
    rewrite Htr in Htr'. apply app_inv_head in Htr'. injection Htr' as <- <-.
    destruct Hres as [([=] & _)|[(e' & _ & [=] & _)|(_ & _ & _ & [= ->])]]. done.
Qed.

Lemma blocking_timeout_is_retryable_witness :
  ∃ e1 w1 e2 w2,
    Lock Background waiter heldWorld = Returns (Some e1, waiter, w1)
    ∧ Lock Background passerby heldWorld = Returns (Some e2, passerby, w2)
    ∧ now w1 = 1000 * Millisecond ∧ now w2 = 0
    ∧ e1 = errBlockingTimeout
    ∧ IsRetryableErr e1 = true ∧ IsRetryableErr e2 = true.
Proof.
  destruct blocking_timeout_is_retryable as (_ & Honly & Hplain).
  assert (H1 : ∃ e1 w0 w1,
             tryLock Background waiter heldWorld = (Some (Errorf_w "reply: 0, err: " ErrLockAcquiredByOthers), w0)
             ∧ tryGetBlockingLock Background waiter w0 = Some (Some e1, w1)
             ∧ Lock Background waiter heldWorld = Returns (Some e1, waiter, w1)
             ∧ now w1 = 1000 * Millisecond ∧ IsRetryableErr e1 = true).
  { eexists _, _, _. split; [vm_compute; reflexivity|].
    split; [vm_compute; reflexivity|]. split; [vm_compute; reflexivity|].
    split; vm_compute; reflexivity. }
  destruct H1 as (e1 & w0 & w1 & _ & Hloop & Hlock1 & Hnow1 & Hr1).
  assert (H2 : ∃ e2 w2,
             tryLock Background passerby heldWorld = (Some e2, w2)
             ∧ Lock Background passerby heldWorld = Returns (Some e2, passerby, w2)
             ∧ now w2 = 0
             ∧ trace w2 = trace heldWorld ++ [attempt passerby (now heldWorld) 0 None]).
  { eexists _, _. split; [vm_compute; reflexivity|].
    split; [vm_compute; reflexivity|]. split; vm_compute; reflexivity. }
  destruct H2 as (e2 & w2 & Htry2 & Hlock2 & Hnow2 & Htr2).
  exists e1, w1, e2, w2.
  split; [exact Hlock1|]. split; [exact Hlock2|]. split; [exact Hnow1|]. split; [exact Hnow2|].
  split; [exact (proj1 (Honly _ _ _ _ _ Hloop) Hr1)|].
  split; [exact Hr1|].
  apply (Hplain _ _ _ _ _ Htry2). exists 0. split; [lia|exact Htr2].
Defined.

(** ** The seconds of a duration *)

Lemma roundEven_near (n d : Z) :
  0 < d → 2 * n - d ≤ 2 * d * roundEven n d ≤ 2 * n + d.
Proof.
  intros Hd. unfold roundEven.
  pose proof (Z.div_mod n d ltac:(lia)) as Hdm.
  pose proof (Z.mod_pos_bound n d Hd) as Hm.
  destruct (2 * (n mod d) <? d) eqn:H1; [apply Z.ltb_lt in H1; nia|].
  apply Z.ltb_ge in H1.
  destruct (d <? 2 * (n mod d)) eqn:H2; [apply Z.ltb_lt in H2; nia|].
  apply Z.ltb_ge in H2.
  destruct (Z.even (n / d)); nia.
Qed.

Lemma ilog2_lt (n d K : Z) :
  0 < n → 0 < d → 0 ≤ K → n < 2 ^ K * d → ilog2 n d < K.
Proof.
  intros Hn Hd HK Hlt. unfold ilog2.
  pose proof (Z.log2_spec n Hn) as [Hn1 Hn2].
  pose proof (Z.log2_spec d Hd) as [Hd1 Hd2].
  pose proof (Z.log2_nonneg n) as Hln. pose proof (Z.log2_nonneg d) as Hld.
  assert (Hk : Z.log2 n - Z.log2 d ≤ K).
  { destruct (Z_le_gt_dec (Z.log2 n - Z.log2 d) K) as [?|Hgt]; [done|exfalso].
    assert (H : 2 ^ (K + Z.succ (Z.log2 d)) ≤ 2 ^ Z.log2 n) by (apply Z.pow_le_mono_r; lia).
    rewrite Z.pow_add_r in H by lia.
    pose proof (Z.pow_pos_nonneg 2 K ltac:(lia) HK).
    set (A := 2 ^ Z.succ (Z.log2 d)) in *. set (B := 2 ^ K) in *. nia. }
  destruct (Z.eq_dec (Z.log2 n - Z.log2 d) K) as [Heq|Hne].
  - rewrite Heq. rewrite (Z.max_l 0 (- K)) by lia. rewrite (Z.max_r 0 K) by lia.
    rewrite Z.pow_0_r, Z.mul_1_r.
    destruct (n <? d * 2 ^ K) eqn:Hc; [lia|]. apply Z.ltb_ge in Hc. lia.
  - destruct (_ <? _); lia.
Qed.

(** What rounding keeps: a value of at least the integer [S] stays so, and
    one that is short of [S + 1] by more than half a unit of the last place
    stays below it. [K] bounds the exponent: the value is below [2 ^ K]. *)
Lemma float64_round_between (n d S K : Z) :
  0 < d → 0 ≤ n → 0 ≤ S → 0 ≤ K ≤ 53 →
  S * d ≤ n → n < 2 ^ K * d →
  let f := float64_round n d in
  0 < f.2 ∧ S * f.2 ≤ f.1
  ∧ (n < (S + 1) * d → f.1 ≤ (S + 1) * f.2)
  ∧ (2 * 2 ^ (53 - K) * n < (2 * 2 ^ (53 - K) * (S + 1) - 1) * d → f.1 < (S + 1) * f.2).
Proof.
  intros Hd Hn HS HK Hlo Hhi. unfold float64_round.
  destruct (n =? 0) eqn:Hz.
  { apply Z.eqb_eq in Hz. subst n. simpl.
    assert (S = 0) by nia. subst S. split_and!; try lia. }
  apply Z.eqb_neq in Hz.
  pose proof (ilog2_lt n d K ltac:(lia) Hd ltac:(lia) Hhi) as He.
  set (e := ilog2 n d - 52). fold e. assert (Hle : e ≤ K - 53) by (unfold e; lia).
  rewrite (Z.max_l 0 e) by lia. rewrite (Z.max_r 0 (- e)) by lia.
  rewrite Z.pow_0_r, !Z.mul_1_r. simpl.
  set (P := 2 ^ (- e)).
  assert (HP0 : 2 ^ (53 - K) ≤ P) by (apply Z.pow_le_mono_r; lia).
  pose proof (Z.pow_pos_nonneg 2 (53 - K) ltac:(lia) ltac:(lia)) as HP1.
  pose proof (roundEven_near (n * P) d Hd) as [Hr1 Hr2].
  set (m := roundEven (n * P) d) in *.
  set (X := S * P).
  assert (HX : X * d ≤ n * P) by (unfold X; nia).
  split_and!.
  - lia.
  - fold X. nia.
  - intros Hs. assert (n * P < (X + P) * d) by (unfold X; nia).
    replace ((S + 1) * P) with (X + P) by (unfold X; lia). nia.
  - intros Hs. replace ((S + 1) * P) with (X + P) by (unfold X; lia).
    set (Q := 2 ^ (53 - K)) in *.
    assert (Hgap : d < 2 * Q * ((S + 1) * d - n)) by nia.
    assert (Hpos : 0 < (S + 1) * d - n) by nia.
    assert (Hgap2 : d < 2 * P * ((S + 1) * d - n)) by nia.
    assert (2 * (n * P) + d < 2 * (X + P) * d) by (unfold X; nia).
    nia.
Qed.

(** The fraction of a second, [float64(nsec)/1e9], is short of 1 by more
    than 2^-30. *)
Lemma float64_round_frac (nsec : Z) :
  0 ≤ nsec < 1000000000 →
  let f := float64_round nsec 1000000000 in
  0 < f.2 ∧ 0 ≤ f.1 ∧ 2 ^ 30 * f.1 < (2 ^ 30 - 1) * f.2.
Proof.
  intros Hn. unfold float64_round.
  destruct (nsec =? 0) eqn:Hz; [simpl; lia|]. apply Z.eqb_neq in Hz.
  pose proof (ilog2_lt nsec 1000000000 0 ltac:(lia) ltac:(lia) ltac:(lia) ltac:(lia)) as He.
  set (e := ilog2 nsec 1000000000 - 52). assert (Hle : e ≤ - 53) by (unfold e; lia).
  rewrite (Z.max_l 0 e) by lia. rewrite (Z.max_r 0 (- e)) by lia.
  rewrite Z.pow_0_r, !Z.mul_1_r. simpl.
  set (P := 2 ^ (- e)).
  assert (HP0 : 2 ^ 53 ≤ P) by (apply Z.pow_le_mono_r; lia).
  pose proof (roundEven_near (nsec * P) 1000000000 ltac:(lia)) as [Hr1 Hr2].
  set (m := roundEven (nsec * P) 1000000000) in *.
  assert (nsec * P ≤ 999999999 * P) by nia.
  assert (0 ≤ nsec * P) by nia.
  lia.
Qed.

(** [int64(d.Seconds())] is the whole number of seconds in [d], or one
    more; it is the whole number of seconds below 2^24 s (some 194 days). *)
Lemma Duration_Seconds_bounds (d : Z) :
  0 ≤ d ≤ maxInt64 →
  d / Second ≤ Duration_Seconds_int64 d ≤ d / Second + 1
  ∧ (d < 2 ^ 24 * Second → Duration_Seconds_int64 d = d / Second).
Proof.
  intros Hd. unfold Duration_Seconds_int64, Duration_Seconds.
  destruct (Z.eq_dec d 0) as [->|Hnz]; [split; [split|intros _]; vm_compute; congruence|].
  rewrite Z.abs_eq, Z.sgn_pos, Z.mul_1_l by lia.
  pose proof (Z.div_mod d Second ltac:(unfold Second; lia)) as Hdm.
  pose proof (Z.mod_pos_bound d Second ltac:(unfold Second; lia)) as Hm.
  set (sec := d / Second) in *. set (nsec := d mod Second) in *.
  assert (Hsec : 0 ≤ sec < 2 ^ 34 - 1) by (unfold maxInt64, Second in *; lia).
  destruct (float64_round_frac nsec ltac:(unfold Second in *; lia)) as (Hf2 & Hf1 & Hfrac).
  set (f := float64_round nsec 1000000000) in *.
  destruct (float64_round_between (sec * f.2 + f.1) f.2 sec 34)
    as (HF2 & Hlow & Hup & _); try lia; try nia.
  set (F := float64_round (sec * f.2 + f.1) f.2) in *.
  split.
  - split.
    + apply Z.div_le_lower_bound; lia.
    + specialize (Hup ltac:(nia)).
      apply Z.div_le_upper_bound; [lia|]. lia.
  - intros Hsmall.
    assert (Hsec' : sec < 2 ^ 24) by (unfold Second in *; lia).
    destruct (float64_round_between (sec * f.2 + f.1) f.2 sec 24)
      as (_ & _ & _ & Hstrict); try lia; try nia.
    fold F in Hstrict.
    specialize (Hstrict ltac:(change (2 ^ (53 - 24)) with (2 ^ 29); nia)).
    symmetry. apply Z.div_unique with (r := F.1 - sec * F.2); lia.
Qed.

(** From 2^24 s on a fraction close to one second is rounded up. *)
Example Duration_Seconds_rounds_up :
  Duration_Seconds_int64 16777216999999999 = 16777217
  ∧ Duration_Seconds_int64 16777215999999999 = 16777215
  ∧ Duration_Seconds_int64 (2 * Second) = 2
  ∧ Duration_Seconds_int64 (-1500000000) = -1
  ∧ Duration_Seconds_int64 999999999 = 0.
Proof. vm_compute. repeat split. Qed.

(** ** Building a quorum lock *)

Lemma wrap64_small (z : Z) : minInt64 ≤ z ≤ maxInt64 → wrap64 z = z.
Proof.
  unfold minInt64, maxInt64, wrap64. intros H.
  rewrite Z.mod_small; lia.
Qed.

Lemma applyRedLockOptions_no_expire (opts : list RedLockOption) (o : RedLockOptions) :
  forallb (fun opt => negb (isRedExpireOption opt)) opts = true →
  expireDuration (applyRedLockOptions opts o) = expireDuration o.
Proof.
  revert o. induction opts as [|opt opts IH]; intros o Hall; [reflexivity|].
  simpl in Hall. apply andb_true_iff in Hall as [Hopt Hall].
  change (applyRedLockOptions (opt :: opts) o)
    with (applyRedLockOptions opts (applyRedLockOption opt o)).
  rewrite IH by assumption. destruct opt; simpl in *; congruence.
Qed.

Lemma setRedLockOption_expireDuration (o : RedLockOptions) :
  expireDuration (setRedLockOption o) = expireDuration o.
Proof. unfold setRedLockOption. by destruct (singleNodesTimeout o <=? 0). Qed.

Lemma effectiveTimeout_pos (opts : list RedLockOption) : 0 < effectiveTimeout opts.
Proof.
  unfold effectiveTimeout, setRedLockOption.
  destruct (singleNodesTimeout (applyRedLockOptions opts zeroRedLockOptions) <=? 0) eqn:H.
  - reflexivity.
  - apply Z.leb_gt in H. exact H.
Qed.

(** What [NewRedLock] returns, with the validation it makes spelled out. *)
Lemma NewRedLock_run (token key : string) (confs : list SingleNodeConf) (opts : list RedLockOption) :
  let n := Z.of_nat (length confs) in
  let T := effectiveTimeout opts in
  let E := configuredExpiry opts in
  NewRedLock token key confs opts =
  if n <? 3 then inr (errorString "ERROR: Can not use RedLock less than 3 nodes")
  else if (0 <? E) && (E <? mul64 (mul64 n T) 10)
  then inr (errorString "ERROR: expire thresholds of single node is too long")
  else inl (mkRedLock
              (map (fun conf =>
                      NewRedisLock token key
                        (NewClient (Network conf) (Address conf) (Password conf) (Opts conf))
                        [WithExpireSeconds (Duration_Seconds_int64 E)])
                   confs)
              []
              (setRedLockOption (applyRedLockOptions opts zeroRedLockOptions))).
Proof.
  intros n T E. unfold NewRedLock, n, T, E, effectiveTimeout, configuredExpiry.
  by rewrite !setRedLockOption_expireDuration.
Qed.

(** C7, as stated, fails. Three nodes and an expiry of one second, no
    per-node timeout given: the default 50 ms is checked all the same
    (3 x 50 ms x 10 is 1.5 s) and construction fails. And three nodes
    with a per-node timeout of 2^61 ns and an expiry of 1 ns, both given:
    the int64 product wraps around to -2^62 and construction succeeds. *)
Lemma NewRedLock_checks_default_timeout :
  ¬ (isErr (NewRedLock "100_1" "order" threeNodes [WithRedLockExpireDuration Second]) = true
     ↔ failsAsStated threeNodes [WithRedLockExpireDuration Second])
  ∧ ¬ (isErr (NewRedLock "100_1" "order" threeNodes
                [WithSingleNodesTimeout (2 ^ 61); WithRedLockExpireDuration 1]) = true
       ↔ failsAsStated threeNodes
           [WithSingleNodesTimeout (2 ^ 61); WithRedLockExpireDuration 1]).
Proof.
  split.
  - intros [Hfails _].
    destruct (Hfails eq_refl) as [Hfew|(_ & Hgiven & _)].
    + vm_compute in Hfew. discriminate Hfew.
    + vm_compute in Hgiven. discriminate Hgiven.
  - intros [_ Hfails].
    assert (Hbuilt : isErr (NewRedLock "100_1" "order" threeNodes
                              [WithSingleNodesTimeout (2 ^ 61); WithRedLockExpireDuration 1])
                     = false) by (vm_compute; reflexivity).
    rewrite Hfails in Hbuilt; [discriminate Hbuilt|].
    right. split; [|split]; vm_compute; reflexivity.
Qed.

(** C7, amended. With [n] the number of node configurations, [T] the
    per-node timeout in force (the caller's when positive, the default
    50 ms otherwise) and [E] the expiry: as long as n x T x 10 fits an
    int64, construction fails exactly when n < 3, or E is positive and
    n x T x 10 exceeds E, whether or not the caller gave a per-node
    timeout; otherwise it returns a lock with one node lock per
    configuration, in order, and an empty success list. *)
Theorem NewRedLock_fails_iff
    (tok name : string) (confs : list SingleNodeConf) (opts : list RedLockOption) :
  let n := Z.of_nat (length confs) in
  let T := effectiveTimeout opts in
  let E := configuredExpiry opts in
  n * T * 10 ≤ maxInt64 →
  (isErr (NewRedLock tok name confs opts) = true ↔ (n < 3 ∨ (0 < E ∧ E < n * T * 10)))
  ∧ (T = if 0 <? suppliedTimeout opts then suppliedTimeout opts else 50 * Millisecond)
  ∧ (isErr (NewRedLock tok name confs opts) = false →
     ∃ r, NewRedLock tok name confs opts = inl r
          ∧ length (locks r) = length confs
          ∧ map (fun l => address (client l)) (locks r) = map Address confs
          ∧ Forall (fun l => key l = name ∧ token l = tok) (locks r)
          ∧ successLocks r = []
          ∧ singleNodesTimeout (redOptions r) = T).
Proof.
  intros n T E Hfit.
  pose proof (effectiveTimeout_pos opts) as HT. fold T in HT.
  assert (Hn : 0 ≤ n) by (unfold n; lia).
  assert (Hmul : mul64 (mul64 n T) 10 = n * T * 10).
  { unfold mul64. rewrite (wrap64_small (n * T)) by (unfold minInt64, maxInt64 in *; nia).
    apply wrap64_small. unfold minInt64, maxInt64 in *. nia. }
  rewrite NewRedLock_run. fold n. fold T. fold E. rewrite Hmul.
  split; [|split].
  - destruct (n <? 3) eqn:Hfew.
    + apply Z.ltb_lt in Hfew. simpl. split; auto.
    + apply Z.ltb_ge in Hfew.
      destruct (0 <? E) eqn:Hpos; destruct (E <? n * T * 10) eqn:Hbig; simpl;
        try apply Z.ltb_lt in Hpos; try apply Z.ltb_ge in Hpos;
        try apply Z.ltb_lt in Hbig; try apply Z.ltb_ge in Hbig;
        (split; [intros; try discriminate; auto | intros [?|[? ?]]; try lia; auto]).
  - unfold T, effectiveTimeout, suppliedTimeout, setRedLockOption, DefaultSingleLockTimeout.
    destruct (singleNodesTimeout (applyRedLockOptions opts zeroRedLockOptions) <=? 0) eqn:Hle;
      [apply Z.leb_le in Hle|apply Z.leb_gt in Hle]; simpl.
    + destruct (0 <? _) eqn:Hlt; [apply Z.ltb_lt in Hlt; lia|reflexivity].
    + destruct (0 <? _) eqn:Hlt; [reflexivity|apply Z.ltb_ge in Hlt; lia].
  - destruct (n <? 3); [discriminate|].
    destruct ((0 <? E) && (E <? n * T * 10)); [discriminate|]. intros _.
    eexists. split; [reflexivity|]. simpl.
    split; [by rewrite length_map|]. split; [|split; [|split; [reflexivity|reflexivity]]].
    + rewrite map_map. apply map_ext. intros conf. unfold NewClient, setClientArgs.
      generalize (Opts conf). intros copts.
      assert (Haddr : ∀ c0, address (foldl (fun acc opt => applyClientOption opt acc) c0 copts)
                            = address c0).
      { induction copts as [|o os IH]; intros c0; [reflexivity|].
        simpl. rewrite IH. by destruct o. }
      repeat match goal with |- context [if ?b then _ else _] => destruct b end;
        simpl; by rewrite ?Haddr.
    + apply Forall_map. apply Forall_forall. intros conf _. done.
Qed.

Lemma NewRedLock_fails_iff_witness :
  Z.of_nat (length threeNodes) * effectiveTimeout [WithRedLockExpireDuration Second] * 10
    ≤ maxInt64
  ∧ isErr (NewRedLock "100_1" "order" threeNodes [WithRedLockExpireDuration Second]) = true
  ∧ isErr (NewRedLock "100_1" "order" threeNodes [WithRedLockExpireDuration (2 * Second)]) = false.
Proof.
  assert (Hfit : Z.of_nat (length threeNodes)
                 * effectiveTimeout [WithRedLockExpireDuration Second] * 10 ≤ maxInt64)
    by (vm_compute; discriminate).
  split; [exact Hfit|]. split.
  - apply (proj1 (NewRedLock_fails_iff "100_1" "order" threeNodes
                    [WithRedLockExpireDuration Second] Hfit)).
    right. split; vm_compute; reflexivity.
  - destruct (isErr (NewRedLock "100_1" "order" threeNodes
                       [WithRedLockExpireDuration (2 * Second)])) eqn:Herr; [|reflexivity].
    apply (proj1 (NewRedLock_fails_iff "100_1" "order" threeNodes
                    [WithRedLockExpireDuration (2 * Second)] Hfit)) in Herr.
    destruct Herr as [Hfew|[_ Hbig]]; vm_compute in *; discriminate.
Defined.

(** C3, as stated, fails: built with no expiry option, the node locks are
    in watchdog mode, with the default expiry of 30 seconds. *)
Lemma NewRedLock_without_expiry_watches :
  ¬ (∀ tok name confs opts r,
       NewRedLock tok name confs opts = inl r →
       Forall (fun l => watchDogMode (options l) = false) (locks r)).
Proof.
  intros H.
  specialize (H "100_1" "order" threeNodes [] _ eq_refl).
  apply Forall_inv in H. vm_compute in H. discriminate H.
Qed.

(** C3, amended. In a quorum lock that was built, when the group's expiry
    is a second or more every node lock carries [int64(expiry.Seconds())]
    as its explicit expiry, has watchdog mode off, and comes back from any
    [Lock] call with no renewal task started. That number is the expiry in
    whole seconds, or one more: Go computes it in float64, which gives the
    whole seconds for every expiry under 2^24 s and may round up beyond.
    When no expiry was given (the duration is 0, as it is when no expiry
    option is among the options) every node lock is in watchdog mode with
    the default expiry of 30 seconds. *)
Theorem NewRedLock_node_expiry
    (tok name : string) (confs : list SingleNodeConf) (opts : list RedLockOption) (r : RedLock) :
  NewRedLock tok name confs opts = inl r →
  let E := configuredExpiry opts in
  (Second ≤ E ≤ maxInt64 →
   Forall (fun l =>
             watchDogMode (options l) = false
             ∧ expireSeconds (options l) = Duration_Seconds_int64 E
             ∧ E / Second ≤ expireSeconds (options l) ≤ E / Second + 1
             ∧ (E < 2 ^ 24 * Second → expireSeconds (options l) = E / Second)
             ∧ 1 ≤ expireSeconds (options l)
             ∧ ∀ ctx w, ∃ err w',
                 Lock ctx l w = Returns (err, l, w') ∧ nextCtx w' = nextCtx w)
          (locks r))
  ∧ (E = 0 →
     Forall (fun l =>
               watchDogMode (options l) = true
               ∧ expireSeconds (options l) = DefaultLockExpireSeconds)
            (locks r))
  ∧ (forallb (fun opt => negb (isRedExpireOption opt)) opts = true → E = 0).
Proof.
  intros Hnew E. rewrite NewRedLock_run in Hnew. fold E in Hnew.
  destruct (Z.of_nat (length confs) <? 3); [discriminate|].
  destruct ((0 <? E) && _); [discriminate|].
  injection Hnew as <-. simpl.
  split; [|split].
  - intros Hsec.
    destruct (Duration_Seconds_bounds E) as [Hnear Hexact]; [unfold Second in *; lia|].
    assert (Hq : 1 ≤ E / Second).
    { apply Z.div_le_lower_bound; unfold Second in *; lia. }
    apply Forall_map, Forall_forall. intros conf _.
    set (l := NewRedisLock _ _ _ _).
    assert (Hwd : watchDogMode (options l) = false).
    { unfold l. rewrite NewRedisLock_watchDogMode. simpl.
      destruct (0 <? Duration_Seconds_int64 E) eqn:Hpos; [reflexivity|].
      apply Z.ltb_ge in Hpos. lia. }
    assert (Hex : expireSeconds (options l) = Duration_Seconds_int64 E).
    { unfold l. simpl. rewrite setLockOptions_expireSeconds. simpl.
      destruct (0 <? Duration_Seconds_int64 E) eqn:Hpos; [reflexivity|].
      apply Z.ltb_ge in Hpos. lia. }
    split; [exact Hwd|]. split; [exact Hex|]. rewrite Hex.
    split; [exact Hnear|]. split; [exact Hexact|]. split; [lia|].
    intros ctx w.
    destruct (Lock_no_watchdog ctx l w Hwd) as (err & w' & evs & Hrun & _ & _ & Hnc & _).
    by exists err, w'.
  - intros Hzero. rewrite Hzero.
    apply Forall_map, Forall_forall. intros conf _. split; reflexivity.
  - intros Hnone. unfold E, configuredExpiry.
    by rewrite applyRedLockOptions_no_expire.
Qed.

Lemma NewRedLock_node_expiry_witness :
  ∃ r, NewRedLock "100_1" "order" threeNodes [WithRedLockExpireDuration (2 * Second)] = inl r
       ∧ Second ≤ configuredExpiry [WithRedLockExpireDuration (2 * Second)] ≤ maxInt64
       ∧ Forall (fun l => watchDogMode (options l) = false ∧ expireSeconds (options l) = 2)
                (locks r).
Proof.
  eexists. split; [vm_compute; reflexivity|].
  assert (Hsec : Second ≤ configuredExpiry [WithRedLockExpireDuration (2 * Second)] ≤ maxInt64)
    by (split; vm_compute; discriminate).
  split; [exact Hsec|].
  eapply Forall_impl.
  - apply (proj1 (NewRedLock_node_expiry "100_1" "order" threeNodes
                    [WithRedLockExpireDuration (2 * Second)] _ eq_refl) Hsec).
  - intros l (Hwd & _ & _ & Hex & _). split; [exact Hwd|]. rewrite Hex; reflexivity.
Defined.

(** ** The quorum lock at work *)

Lemma quorum_floor (n : nat) : quorum n = Z.of_nat n / 2 + 1.
Proof. unfold quorum. by rewrite Z.shiftr_div_pow2 by lia. Qed.

Lemma Unlock_trace (ctx : Context) (l : RedisLock) (w : World) :
  ∃ err w' rep rerr,
    Unlock ctx l w = (err, l, w')
    ∧ trace w' = trace w
                 ++ EvEval (now w) (address (client l)) LuaCheckAndDeleteDistributionLock
                           [ArgString (getLockKey l); ArgString (token l)] rep rerr
                    :: match stopDog l with Some id => [EvCancel id] | None => [] end.
Proof.
  rewrite Unlock_run. unfold Unlock_deferred.
  destruct (link (nextFate w)) as [| msg | msg executed];
    [destruct (decide (storedAt l (arriving (address (client l)) w) = Some (token l)))
    | |destruct executed];
    destruct (stopDog l) as [id|];
    (eexists _, _, _, _; split; [reflexivity|]; simpl; by rewrite <- ?app_assoc).
Qed.

Lemma filter_eval_Unlock (ev : event) (l : RedisLock) (evs : list event) :
  isEvalEvent ev = true →
  filter (fun ev => isEvalEvent ev = true)
         (ev :: match stopDog l with Some id => [EvCancel id] | None => [] end ++ evs)
  = ev :: filter (fun ev => isEvalEvent ev = true) evs.
Proof.
  intros Hev. rewrite filter_cons_True by done.
  destruct (stopDog l); simpl; [|done].
  by rewrite filter_cons_False by done.
Qed.

(** The loop that releases the success list: one release script per
    entry, in order, to the lock the entry points to; the locks are left as
    they were. *)
Lemma unlockEach_spec (ctx : Context) (ls : list RedisLock) :
  ∀ (success : list nat) (err0 : option error) (w : World),
    Forall (fun i => (i < length ls)%nat) success →
    ∃ err w' evs,
      unlockEach ctx ls success err0 w = (err, ls, w')
      ∧ trace w' = trace w ++ evs
      ∧ releasesOf ls success evs
      ∧ Forall (fun ev => isEvalEvent ev = true ∨ ∃ id, ev = EvCancel id) evs.
Proof.
  induction success as [|i rest IH]; intros err0 w Hwf.
  - exists err0, w, []. rewrite app_nil_r. repeat split; constructor.
  - apply Forall_cons in Hwf as [Hi Hrest].
    destruct (lookup_lt_is_Some_2 ls i Hi) as [l Hl].
    simpl. rewrite Hl.
    destruct (Unlock_trace ctx l w) as (e & w1 & rep & rerr & Hrun & Htr).
    rewrite Hrun. rewrite list_insert_id by exact Hl.
    destruct (IH (match e with Some e' => Some e' | None => err0 end) w1 Hrest)
      as (err & w' & evs & Hrun' & Htr' & Hrel & Hkind).
    eexists err, w', (_ :: _ ++ evs). split; [exact Hrun'|]. split; [|split].
    + rewrite Htr', Htr. rewrite <- app_assoc. reflexivity.
    + unfold releasesOf. rewrite filter_eval_Unlock by done.
      constructor; [|exact Hrel]. exists l. split; [exact Hl|]. by eexists _, _, _.
    + constructor; [by left|]. apply Forall_app. split; [|exact Hkind].
      destruct (stopDog l) as [id|];
        [constructor; [right; by exists id|constructor]|constructor].
Qed.

Lemma rollback_unlockEach (ctx : Context) :
  ∀ (success : list nat) (ls : list RedisLock) (err0 : option error) (w : World),
    rollback ctx ls success w
    = ((unlockEach ctx ls success err0 w).1.2, (unlockEach ctx ls success err0 w).2).
Proof.
  induction success as [|i rest IH]; intros ls err0 w; [reflexivity|].
  simpl. destruct (ls !! i) as [l|]; [|apply IH].
  destruct (Unlock ctx l w) as [[e l'] w1]. apply IH.
Qed.

Lemma rollback_spec (ctx : Context) (ls : list RedisLock) (success : list nat) (w : World) :
  Forall (fun i => (i < length ls)%nat) success →
  ∃ w' evs,
    rollback ctx ls success w = (ls, w')
    ∧ trace w' = trace w ++ evs
    ∧ releasesOf ls success evs
    ∧ Forall (fun ev => isEvalEvent ev = true ∨ ∃ id, ev = EvCancel id) evs.
Proof.
  intros Hwf.
  destruct (unlockEach_spec ctx ls success None w Hwf)
    as (err & w' & evs & Hrun & Htr & Hrel & Hkind).
  exists w', evs. rewrite (rollback_unlockEach ctx success ls None w), Hrun. auto.
Qed.

Lemma Lock_plain (ctx : Context) (l : RedisLock) (w : World) :
  match Lock ctx l w with
  | OutOfFuel => False
  | Spins => heldUp l
  | Returns (err, l', w1) =>
      ∃ evs, trace w1 = trace w ++ evs ∧ Forall (fun ev => isEvalEvent ev = false) evs
  end.
Proof.
  pose proof (Lock_spec ctx l w) as H.
  destruct (Lock ctx l w) as [[[err l'] w1]| |]; [|exact H|exact H].
  destruct H as (evs & go & Htr & _ & Hall & _ & _ & _ & _ & _ & _ & Hgo).
  exists (evs ++ go). split; [exact Htr|].
  apply Forall_app. split.
  - eapply Forall_impl; [exact Hall|]. intros ev Hev.
    exact (proj1 (isAttempt_plain _ _ Hev)).
  - destruct Hgo as [(-> & _)|(-> & _)]; repeat constructor.
Qed.

(** The first loop of [RedLock.Lock] is the acquisition round of the
    specification, unless one of the node locks holds it up for ever. *)
Lemma lockEach_spec (ctx : Context) (budget : Z) :
  ∀ (todo : list RedisLock) (i : nat) (success : list nat) (count : Z) (w : World),
    match lockEach ctx budget i todo success count w with
    | OutOfFuel => False
    | Spins => Exists heldUp todo
    | Returns (ls, s, n, w1) =>
        ∃ counted evs,
          s = success ++ counted
          ∧ n = count + Z.of_nat (length counted)
          ∧ acquire ctx budget i todo w counted ls w1
          ∧ Forall (fun j => (i ≤ j < i + length todo)%nat) counted
          ∧ length ls = length todo
          ∧ trace w1 = trace w ++ evs
          ∧ Forall (fun ev => isEvalEvent ev = false) evs
    end.
Proof.
  induction todo as [|l rest IH]; intros i success count w.
  - exists [], []. simpl. rewrite !app_nil_r, Z.add_0_r.
    repeat split; constructor.
  - simpl. pose proof (Lock_plain ctx l w) as Hl.
    destruct (Lock ctx l w) as [[[err l'] w1]| |] eqn:Hrun; [|by left|done].
    destruct Hl as (evs & Htr & Hplain).
    destruct (bool_decide (err = None) && (now w1 - now w <=? budget)) eqn:Hcount.
    + apply andb_true_iff in Hcount as [Herr Hcost].
      apply bool_decide_eq_true in Herr. apply Z.leb_le in Hcost. subst err.
      specialize (IH (S i) (success ++ [i]) (count + 1) w1).
      destruct (lockEach ctx budget (S i) rest (success ++ [i]) (count + 1) w1)
        as [[[[ls s] n] w2]| |]; [|by right|done].
      destruct IH as (counted & evs2 & -> & -> & Hacq & Hrange & Hlen & Htr2 & Hplain2).
      exists (i :: counted), (evs ++ evs2).
      split_and!.
      * by rewrite <- app_assoc.
      * change (length (i :: counted)) with (S (length counted)). lia.
      * eapply acquire_count; eauto.
      * constructor; [simpl; lia|].
        eapply Forall_impl; [exact Hrange|]. simpl. intros; lia.
      * simpl. by rewrite Hlen.
      * rewrite Htr2, Htr. by rewrite app_assoc.
      * by apply Forall_app.
    + specialize (IH (S i) success count w1).
      destruct (lockEach ctx budget (S i) rest success count w1)
        as [[[[ls s] n] w2]| |]; [|by right|done].
      destruct IH as (counted & evs2 & -> & -> & Hacq & Hrange & Hlen & Htr2 & Hplain2).
      exists counted, (evs ++ evs2).
      split_and!; try done.
      * eapply acquire_skip; eauto.
        apply andb_false_iff in Hcount as [Herr|Hcost].
        -- left. by apply bool_decide_eq_false in Herr.
        -- right. by apply Z.leb_gt in Hcost.
      * eapply Forall_impl; [exact Hrange|]. simpl. intros; lia.
      * simpl. by rewrite Hlen.
      * rewrite Htr2, Htr. by rewrite app_assoc.
      * by apply Forall_app.
Qed.

(** [RedLock.Lock], the acquisition round and the roll-back. *)
Lemma RedLock_Lock_spec (ctx : Context) (r : RedLock) (w : World) :
  wellFormed r →
  match RedLock_Lock ctx r w with
  | OutOfFuel => False
  | Spins => Exists heldUp (locks r)
  | Returns (err, r', w') =>
      ∃ counted ls w1,
        acquire ctx (singleNodesTimeout (redOptions r)) 0 (locks r) w counted ls w1
        ∧ successLocks r' = successLocks r ++ counted
        ∧ locks r' = ls ∧ redOptions r' = redOptions r
        ∧ wellFormed r'
        ∧ (Z.of_nat (length counted) < Z.of_nat (length (locks r)) / 2 + 1 →
           err = Some errQuorum
           ∧ trace w' = trace w1 ++ added w1 w'
           ∧ releasesOf ls (successLocks r') (added w1 w'))
        ∧ (Z.of_nat (length (locks r)) / 2 + 1 ≤ Z.of_nat (length counted) →
           err = None ∧ w' = w1)
  end.
Proof.
  intros Hwf. unfold RedLock_Lock.
  pose proof (lockEach_spec ctx (singleNodesTimeout (redOptions r)) (locks r) 0
                            (successLocks r) 0 w) as Hround.
  destruct (lockEach ctx (singleNodesTimeout (redOptions r)) 0 (locks r) (successLocks r) 0 w)
    as [[[[ls s] n] w1]| |]; [|exact Hround|exact Hround].
  destruct Hround as (counted & evs & -> & -> & Hacq & Hrange & Hlen & _ & _).
  rewrite Z.add_0_l.
  change (Z.shiftr (Z.of_nat (length (locks r))) 1 + 1) with (quorum (length (locks r))).
  rewrite quorum_floor.
  assert (Hwf' : Forall (fun i => (i < length ls)%nat) (successLocks r ++ counted)).
  { apply Forall_app. split.
    - rewrite Hlen. exact Hwf.
    - eapply Forall_impl; [exact Hrange|]. simpl. intros j Hj. lia. }
  destruct (Z.of_nat (length counted) <? Z.of_nat (length (locks r)) / 2 + 1) eqn:Hfew.
  - apply Z.ltb_lt in Hfew.
    destruct (rollback_spec ctx ls (successLocks r ++ counted) w1 Hwf')
      as (w' & revs & Hroll & Htr & Hrel & _).
    rewrite Hroll.
    exists counted, ls, w1.
    assert (Hadded : added w1 w' = revs).
    { unfold added. by rewrite Htr, drop_app_length. }
    rewrite Hadded. simpl. split_and!; try done.
    lia.
  - apply Z.ltb_ge in Hfew.
    exists counted, ls, w1.
    simpl. split_and!; try done.
    lia.
Qed.

(** C2. [RedLock.Lock] on a quorum lock with [n] node locks never stops
    for want of fuel; it turns for ever only when a node lock is held up by
    a renewal task still registered as running; and when it returns, the
    acquisition round counted exactly the nodes whose [Lock] returned
    success within the per-node timeout, and exactly these were appended
    to the success list. If fewer than floor(n/2)+1 counted, a release was
    sent for every entry of the success list, in order, whatever the
    releases returned, and the call fails with the quorum error; otherwise
    it returns success, the world is as the round left it and the success
    list is kept. *)
Theorem RedLock_Lock_quorum (ctx : Context) (r : RedLock) (w : World) :
  wellFormed r →
  match RedLock_Lock ctx r w with
  | OutOfFuel => False
  | Spins => Exists heldUp (locks r)
  | Returns (err, r', w') =>
      ∃ counted ls w1,
        acquire ctx (singleNodesTimeout (redOptions r)) 0 (locks r) w counted ls w1
        ∧ successLocks r' = successLocks r ++ counted
        ∧ locks r' = ls ∧ redOptions r' = redOptions r
        ∧ wellFormed r'
        ∧ (Z.of_nat (length counted) < Z.of_nat (length (locks r)) / 2 + 1 →
           err = Some errQuorum
           ∧ trace w' = trace w1 ++ added w1 w'
           ∧ releasesOf ls (successLocks r') (added w1 w'))
        ∧ (Z.of_nat (length (locks r)) / 2 + 1 ≤ Z.of_nat (length counted) →
           err = None ∧ w' = w1)
  end.
Proof. apply RedLock_Lock_spec. Qed.

Lemma RedLock_Lock_quorum_witness :
  wellFormed trio
  ∧ ∃ ls w1 r' w',
      acquire Background (singleNodesTimeout (redOptions trio)) 0 (locks trio)
              contestedWorld [0%nat] ls w1
      ∧ RedLock_Lock Background trio contestedWorld = Returns (Some errQuorum, r', w')
      ∧ successLocks r' = [0%nat]
      ∧ releasesOf ls [0%nat] (added w1 w')
      ∧ server "10.0.0.1:6379" w' !! "REDIS_LOCK_PREFIX_order" = None.
Proof.
  assert (Hwf : wellFormed trio) by constructor.
  split; [exact Hwf|].
  pose proof (RedLock_Lock_quorum Background trio contestedWorld Hwf) as Hspec.
  assert (Hval : ∃ r0 w0,
             RedLock_Lock Background trio contestedWorld = Returns (Some errQuorum, r0, w0)
             ∧ successLocks r0 = [0%nat]
             ∧ server "10.0.0.1:6379" w0 !! "REDIS_LOCK_PREFIX_order" = None).
  { eexists _, _. split; [vm_compute; reflexivity|]. split; vm_compute; reflexivity. }
  destruct Hval as (r' & w' & Hrun & Hsucc & Hgone).
  rewrite Hrun in Hspec.
  destruct Hspec as (counted & ls & w1 & Hacq & Hsucc' & _ & _ & _ & Hfew & _).
  rewrite Hsucc in Hsucc'. simpl in Hsucc'. subst counted.
  destruct (Hfew ltac:(vm_compute; reflexivity)) as (_ & _ & Hrel).
  rewrite Hsucc in Hrel.
  exists ls, w1, r', w'. split; [exact Hacq|]. split; [exact Hrun|].
  split; [exact Hsucc|]. split; [exact Hrel|exact Hgone].
Defined.

(** ** The success list over several calls *)

(** C9. The success list of a quorum lock only grows. Whatever [Lock]
    returns, the quorum error included, the list it leaves is the old one
    with the nodes of this round appended: the nodes it rolled back stay in
    it. [UnLock] leaves the list as it is. And both work through the whole
    list, stale entries included: [UnLock] sends a release for every entry,
    and a [Lock] that rolls back sends one for every old entry and every
    new one. *)
Theorem successLocks_only_grows :
  (∀ ctx r w err r' w',
      RedLock_Lock ctx r w = Returns (err, r', w') →
      ∃ counted, successLocks r' = successLocks r ++ counted)
  ∧ (∀ ctx r w, successLocks (RedLock_UnLock ctx r w).1.2 = successLocks r)
  ∧ (∀ ctx r w,
        wellFormed r →
        ∃ err r' w' evs,
          RedLock_UnLock ctx r w = (err, r', w')
          ∧ locks r' = locks r
          ∧ trace w' = trace w ++ evs
          ∧ releasesOf (locks r) (successLocks r) evs)
  ∧ (∀ ctx r w err r' w',
        wellFormed r →
        RedLock_Lock ctx r w = Returns (err, r', w') →
        err ≠ None →
        ∃ counted w1,
          successLocks r' = successLocks r ++ counted
          ∧ trace w' = trace w1 ++ added w1 w'
          ∧ releasesOf (locks r') (successLocks r ++ counted) (added w1 w')).
Proof.
  split; [|split; [|split]].
  - intros ctx r w err r' w' Hrun. unfold RedLock_Lock in Hrun.
    pose proof (lockEach_spec ctx (singleNodesTimeout (redOptions r)) (locks r) 0
                              (successLocks r) 0 w) as Hround.
    destruct (lockEach ctx (singleNodesTimeout (redOptions r)) 0 (locks r) (successLocks r) 0 w)
      as [[[[ls s] n] w1]| |]; [|done|done].
    destruct Hround as (counted & evs & -> & _).
    exists counted.
    destruct (n <? _).
    + destruct (rollback ctx ls (successLocks r ++ counted) w1) as [ls' w2].
      by injection Hrun as <- <- <-.
    + by injection Hrun as <- <- <-.
  - intros ctx r w. unfold RedLock_UnLock.
    by destruct (unlockEach ctx (locks r) (successLocks r) None w) as [[err ls] w1].
  - intros ctx r w Hwf.
    destruct (unlockEach_spec ctx (locks r) (successLocks r) None w Hwf)
      as (err & w' & evs & Hrun & Htr & Hrel & _).
    exists err, (mkRedLock (locks r) (successLocks r) (redOptions r)), w', evs.
    unfold RedLock_UnLock. rewrite Hrun. auto.
  - intros ctx r w err r' w' Hwf Hrun Herr.
    pose proof (RedLock_Lock_spec ctx r w Hwf) as Hspec. rewrite Hrun in Hspec.
    destruct Hspec as (counted & ls & w1 & _ & Hsucc & Hlocks & _ & _ & Hfew & Hmany).
    exists counted, w1.
    destruct (Z.lt_ge_cases (Z.of_nat (length counted)) (Z.of_nat (length (locks r)) / 2 + 1))
      as [Hlt|Hge].
    + destruct (Hfew Hlt) as (_ & Htr & Hrel).
      rewrite Hlocks, <- Hsucc. auto.
    + destruct (Hmany Hge) as [-> _]. done.
Qed.

Lemma successLocks_only_grows_witness :
  ∃ r1 w1 r2 w2,
    RedLock_Lock Background trio contestedWorld = Returns (Some errQuorum, r1, w1)
    ∧ successLocks trio = [] ∧ successLocks r1 = [0%nat]
    ∧ RedLock_UnLock Background r1 w1 = (Some errNotOwner, r2, w2)
    ∧ successLocks r2 = [0%nat]
    ∧ releasesOf (locks r1) [0%nat] (added w1 w2).
Proof.
  destruct successLocks_only_grows as (Hgrow & Hkeep & Hall & _).
  assert (Hval : ∃ r1 w1 r2 w2,
             RedLock_Lock Background trio contestedWorld = Returns (Some errQuorum, r1, w1)
             ∧ successLocks r1 = [0%nat]
             ∧ wellFormed r1
             ∧ RedLock_UnLock Background r1 w1 = (Some errNotOwner, r2, w2)).
  { eexists _, _, _, _. split; [vm_compute; reflexivity|]. split; [vm_compute; reflexivity|].
    split; [repeat constructor|vm_compute; reflexivity]. }
  destruct Hval as (r1 & w1 & r2 & w2 & Hlock & Hsucc & Hwf & Hunlock).
  exists r1, w1, r2, w2.
  split; [exact Hlock|]. split; [reflexivity|]. split; [exact Hsucc|].
  split; [exact Hunlock|]. split.
  - pose proof (Hkeep Background r1 w1) as Hk. rewrite Hunlock in Hk. simpl in Hk.
    by rewrite Hk.
  - destruct (Hall Background r1 w1 Hwf) as (err & r' & w' & evs & Hrun & _ & Htr & Hrel).
    rewrite Hunlock in Hrun. injection Hrun as <- <- <-.
    unfold added. rewrite Htr, drop_app_length. by rewrite <- Hsucc.
Defined.

(** ** The quorum lock's invariant *)

Lemma NewRedLock_wellFormed
    (tok name : string) (confs : list SingleNodeConf) (opts : list RedLockOption) (r : RedLock) :
  NewRedLock tok name confs opts = inl r → wellFormed r.
Proof.
  rewrite NewRedLock_run.
  destruct (Z.of_nat (length confs) <? 3); [discriminate|].
  destruct (_ && _); [discriminate|].
  intros [= <-]. constructor.
Qed.

Lemma RedLock_UnLock_wellFormed (ctx : Context) (r : RedLock) (w : World) :
  wellFormed r → wellFormed (RedLock_UnLock ctx r w).1.2.
Proof.
  intros Hwf.
  destruct (unlockEach_spec ctx (locks r) (successLocks r) None w Hwf)
    as (err & w' & evs & Hrun & _).
  unfold RedLock_UnLock. rewrite Hrun. exact Hwf.
Qed.

(** ** The compare-and-swap guard *)

(** A second [Lock] on a lock whose renewal task is still registered
    waits, once it has the key, for that task to leave: after an [Unlock]
    until the task's next tick, 10 s after the first [Lock]; for ever when
    the task was never told to stop (here the key has gone by other means). *)
Example Lock_waits_for_the_task :
  Lock Background watched (setServer "127.0.0.1:6379" ∅ watchedWorld) = Spins
  ∧ ∃ r' w', Lock Background watched (Unlock Background watched watchedWorld).2
             = Returns (None, r', w')
             ∧ now w' = 10 * Second ∧ runningDog r' = 1 ∧ stopDog r' = Some 1%nat.
Proof.
  split; [vm_compute; reflexivity|]. eexists _, _.
  split; [vm_compute; reflexivity|]. split_and!; vm_compute; reflexivity.
Qed.

(** The task's first renewal, begun at 10 s, lasts 15 s, and [Unlock] comes
    at 22 s: the tick of 20 s is received when the renewal ends, at 25 s,
    and the task leaves then; a [Lock] that follows at once returns at 25 s.
    With an [Unlock] at 5 s and a [Lock] at 12 s the task has left at its
    first tick and the [Lock] does not wait. *)
Example Lock_waits_for_a_slow_renewal :
  let at_ t durs :=
    mkWorld t (servers watchedWorld) [] [] (nextCtx watchedWorld) []
            (trace watchedWorld) (dogs watchedWorld) (fun _ => durs) in
  (∃ r' w', Lock Background watched
              (Unlock Background watched (at_ (22 * Second) [15000000000%N])).2
            = Returns (None, r', w')
            ∧ now w' = 25 * Second)
  ∧ (∃ r' w', Lock Background watched
                (setNow (12 * Second) (Unlock Background watched (at_ (5 * Second) [])).2)
              = Returns (None, r', w')
              ∧ now w' = 12 * Second).
Proof.
  split; eexists _, _; (split; [vm_compute; reflexivity|vm_compute; reflexivity]).
Qed.

(** * Further properties of the code *)

(** ** Defaults of the options *)

(** The ceiling of blocking mode after construction: a lock built in
    blocking mode waits a positive number of seconds, the caller's when
    that is positive and 5 otherwise; with blocking off the caller's value
    is kept as it is, and the blocking flag is the caller's. *)
Theorem NewRedisLock_blocking_ceiling
    (tok name : string) (c : Client) (opts : list LockOption) :
  let given := applyLockOptions opts zeroLockOptions in
  let o := options (NewRedisLock tok name c opts) in
  isBlock o = isBlock given
  ∧ (isBlock given = true →
     0 < blockWaitingSeconds o
     ∧ blockWaitingSeconds o
       = if 0 <? blockWaitingSeconds given then blockWaitingSeconds given else 5)
  ∧ (isBlock given = false → blockWaitingSeconds o = blockWaitingSeconds given)
  ∧ (isBlock given = true ↔ existsb isBlockOption opts = true).
Proof.
  intros given o. unfold o. simpl. fold given. unfold setLockOptions.
  split_and!.
  - destruct (isBlock given && (blockWaitingSeconds given <=? 0)); simpl;
      by destruct (0 <? expireSeconds given).
  - intros Hb. rewrite Hb. simpl.
    destruct (blockWaitingSeconds given <=? 0) eqn:Hle; simpl;
      [apply Z.leb_le in Hle|apply Z.leb_gt in Hle];
      destruct (0 <? expireSeconds given); simpl;
      destruct (0 <? blockWaitingSeconds given) eqn:Hlt;
      try apply Z.ltb_lt in Hlt; try apply Z.ltb_ge in Hlt; split; lia.
  - intros Hb. rewrite Hb. simpl. by destruct (0 <? expireSeconds given).
  - unfold given. clear.
    assert (Hgen : ∀ o0, isBlock (applyLockOptions opts o0) = true
                         ↔ isBlock o0 = true
                           ∨ existsb isBlockOption opts = true).
    { induction opts as [|opt opts IH]; intros o0.
      - simpl. split; [auto|]. intros [?|?]; [done|discriminate].
      - change (applyLockOptions (opt :: opts) o0)
          with (applyLockOptions opts (applyLockOption opt o0)).
        rewrite IH. simpl. rewrite orb_true_iff.
        destruct opt; simpl; split; intros H; try tauto;
          destruct H as [H|H]; try tauto; try (right; tauto);
          destruct H as [H|H]; try discriminate; tauto. }
    rewrite Hgen. simpl. split; [intros [?|?]; [discriminate|done]|auto].
Qed.

Lemma NewRedisLock_blocking_ceiling_witness :
  blockWaitingSeconds (options (NewRedisLock "1_1" "k" sampleClient [WithBlock])) = 5
  ∧ blockWaitingSeconds
      (options (NewRedisLock "1_1" "k" sampleClient [WithBlockWaitingSeconds (-3)])) = -3.
Proof.
  destruct (NewRedisLock_blocking_ceiling "1_1" "k" sampleClient [WithBlock])
    as (_ & Hon & _ & _).
  destruct (NewRedisLock_blocking_ceiling "1_1" "k" sampleClient [WithBlockWaitingSeconds (-3)])
    as (_ & _ & Hoff & _).
  split; [exact (proj2 (Hon eq_refl))|exact (Hoff eq_refl)].
Defined.

Lemma applyClientOptions_dial (opts : list ClientOption) (c0 : ClientOptions) :
  let c := foldl (fun acc opt => applyClientOption opt acc) c0 opts in
  network c = network c0 ∧ address c = address c0 ∧ password c = password c0.
Proof.
  revert c0. induction opts as [|o os IH]; intros c0; [done|].
  simpl. destruct (IH (applyClientOption o c0)) as (Hn & Ha & Hp).
  rewrite Hn, Ha, Hp. by destruct o.
Qed.

(** The pool [NewClient] builds dials the network, address and password
    it was given, whatever the options. [MaxIdle] and [MaxActive] are never
    negative: each is the caller's value when that is 0 or more and the
    default (20, 100) only when it is negative. [IdleTimeout] is
    [time.Duration(s) * time.Second] on int64, with [s] the caller's
    seconds when 0 or more and the default 10 when negative: [s] seconds
    for [s] up to 9223372036, and wrapped around beyond, where it can be
    negative. Without options all three are 0. *)
Theorem NewClient_pool (net addr pw : string) (opts : list ClientOption) :
  let given := foldl (fun acc opt => applyClientOption opt acc)
                     (mkClientOptions 0 0 0 false net addr pw) opts in
  let p := pool (NewClient net addr pw opts) in
  let secs := if idleTimeoutSeconds given <? 0 then DefaultIdleTimeoutSeconds
              else idleTimeoutSeconds given in
  network p = net ∧ address p = addr ∧ password p = pw ∧ Wait p = wait given
  ∧ MaxIdle p = (if maxIdle given <? 0 then DefaultMaxIdle else maxIdle given)
  ∧ MaxActive p = (if maxActive given <? 0 then DefaultMaxActive else maxActive given)
  ∧ 0 ≤ MaxIdle p ∧ 0 ≤ MaxActive p
  ∧ 0 ≤ secs
  ∧ IdleTimeout p = wrap64 (secs * Second)
  ∧ (secs ≤ 9223372036 → IdleTimeout p = secs * Second ∧ 0 ≤ IdleTimeout p)
  ∧ (opts = [] → MaxIdle p = 0 ∧ IdleTimeout p = 0 ∧ MaxActive p = 0).
Proof.
  intros given p secs.
  destruct (applyClientOptions_dial opts (mkClientOptions 0 0 0 false net addr pw))
    as (Hn & Ha & Hp). fold given in Hn, Ha, Hp. simpl in Hn, Ha, Hp.
  assert (Hsecs : 0 ≤ secs).
  { unfold secs. destruct (idleTimeoutSeconds given <? 0) eqn:H2; [done|].
    by apply Z.ltb_ge in H2. }
  assert (Hidle : IdleTimeout p = wrap64 (secs * Second)).
  { unfold p, NewClient, secs. simpl. fold given. unfold setClientArgs, mul64.
    destruct (maxIdle given <? 0); simpl;
      destruct (idleTimeoutSeconds given <? 0); simpl;
      destruct (maxActive given <? 0); reflexivity. }
  assert (Hfit : secs ≤ 9223372036 → IdleTimeout p = secs * Second ∧ 0 ≤ IdleTimeout p).
  { intros Hle. rewrite Hidle, wrap64_small; unfold minInt64, maxInt64, Second; lia. }
  unfold p, NewClient in *. simpl in *. fold given in Hidle, Hfit |- *. unfold setClientArgs in *.
  destruct (maxIdle given <? 0) eqn:H1; simpl in *;
    destruct (idleTimeoutSeconds given <? 0) eqn:H2; simpl in *;
    destruct (maxActive given <? 0) eqn:H3; simpl in *;
    try apply Z.ltb_ge in H1; try apply Z.ltb_ge in H2; try apply Z.ltb_ge in H3;
    (split_and!; try done; try (intros ->; unfold given in *; simpl in *; done)).
Qed.

Lemma NewClient_pool_witness :
  MaxIdle (pool (NewClient "tcp" "127.0.0.1:6379" "" [])) = 0
  ∧ MaxIdle (pool (NewClient "tcp" "127.0.0.1:6379" "" [WithMaxIdle (-1)])) = 20
  ∧ IdleTimeout (pool (NewClient "tcp" "127.0.0.1:6379" "" [WithIdleTimeoutSeconds 3]))
    = 3 * Second
  ∧ IdleTimeout (pool (NewClient "tcp" "127.0.0.1:6379" "" [WithIdleTimeoutSeconds 9223372037]))
    < 0.
Proof.
  destruct (NewClient_pool "tcp" "127.0.0.1:6379" "" [])
    as (_ & _ & _ & _ & _ & _ & _ & _ & _ & _ & _ & Hzero).
  destruct (NewClient_pool "tcp" "127.0.0.1:6379" "" [WithMaxIdle (-1)])
    as (_ & _ & _ & _ & Hidle & _).
  destruct (NewClient_pool "tcp" "127.0.0.1:6379" "" [WithIdleTimeoutSeconds 3])
    as (_ & _ & _ & _ & _ & _ & _ & _ & _ & _ & Hfit & _).
  destruct (NewClient_pool "tcp" "127.0.0.1:6379" "" [WithIdleTimeoutSeconds 9223372037])
    as (_ & _ & _ & _ & _ & _ & _ & _ & _ & Hwrap & _).
  split; [exact (proj1 (Hzero eq_refl))|]. split; [exact Hidle|].
  split; [apply Hfit; vm_compute; discriminate|].
  rewrite Hwrap. vm_compute. reflexivity.
Defined.

(** ** One attempt, spelled out *)

Lemma tryLock_run (ctx : Context) (r : RedisLock) (w : World) :
  token r ≠ "" →
  0 < expireSeconds (options r) →
  let addr := address (client r) in
  let ks := arriving addr w in
  let base := setNow (now w + Z.of_N (took (nextFate w)))
                     (setServer addr ks (setFuture (tail (future w)) w)) in
  let taken := <[getLockKey r := mkEntry (token r) (expireSeconds (options r))]> ks in
  let after := match ks !! getLockKey r with Some _ => ks | None => taken end in
  tryLock ctx r w =
  match link (nextFate w) with
  | DialError msg =>
      (Some (connError msg), emit (attempt r (now w) (-1) (Some (connError msg))) base)
  | ConnError msg executed =>
      (Some (connError msg),
       emit (attempt r (now w) (-1) (Some (connError msg)))
            (if executed then setServer addr after base else base))
  | Delivered =>
      match ks !! getLockKey r with
      | Some _ =>
          (Some (Errorf_w "reply: 0, err: " ErrLockAcquiredByOthers),
           emit (attempt r (now w) 0 None) (setServer addr ks base))
      | None => (None, emit (attempt r (now w) 1 None) (setServer addr taken base))
      end
  end.
Proof.
  intros Htok Hexp addr ks base taken after.
  unfold tryLock. rewrite SetNEX_run by (auto using getLockKey_not_empty).
  fold addr. fold ks. unfold cmdSetEXNX.
  destruct (expireSeconds (options r) <=? 0) eqn:Hle; [apply Z.leb_le in Hle; lia|].
  unfold after, taken.
  destruct (link (nextFate w)) as [| msg | msg executed];
    destruct (ks !! getLockKey r) as [en|]; reflexivity.
Qed.

(** ** A lock with an empty token *)

(** A lock whose token is the empty string never gets as far as the
    server: the client refuses the empty value, [Lock] returns that error
    at once in either mode (it is not retryable), and neither the servers,
    nor the round trips to come, nor the clock have moved. *)
Theorem Lock_empty_token (ctx : Context) (r : RedisLock) (w : World) :
  token r = "" →
  ∃ w',
    Lock ctx r w = Returns (Some errEmpty, r, w')
    ∧ IsRetryableErr errEmpty = false
    ∧ servers w' = servers w ∧ future w' = future w ∧ now w' = now w
    ∧ trace w' = trace w ++ [attempt r (now w) (-1) (Some errEmpty)].
Proof.
  intros Htok.
  assert (Htry : tryLock ctx r w
                 = (Some errEmpty, emit (attempt r (now w) (-1) (Some errEmpty)) w)).
  { unfold tryLock, SetNEX, attempt. rewrite Htok.
    destruct (decide (getLockKey r = "" ∨ "" = "")) as [_|Hno]; [reflexivity|].
    exfalso. apply Hno. by right. }
  eexists. unfold Lock. rewrite Htry.
  destruct (negb (isBlock (options r))); simpl; by split_and!.
Qed.

Lemma Lock_empty_token_witness :
  token nameless = ""
  ∧ ∃ w', Lock Background nameless heldWorld = Returns (Some errEmpty, nameless, w')
          ∧ servers w' = servers heldWorld ∧ now w' = now heldWorld.
Proof.
  split; [reflexivity|].
  destruct (Lock_empty_token Background nameless heldWorld eq_refl)
    as (w' & Hrun & _ & Hs & _ & Hn & _).
  by exists w'.
Defined.

(** ** What a successful Lock leaves on the server *)

Lemma tryLock_success (ctx : Context) (r : RedisLock) (w w1 : World) :
  tryLock ctx r w = (None, w1) →
  let addr := address (client r) in
  token r ≠ "" ∧ 0 < expireSeconds (options r)
  ∧ answered w
  ∧ arriving addr w !! getLockKey r = None
  ∧ server addr w1
    = <[getLockKey r := mkEntry (token r) (expireSeconds (options r))]> (arriving addr w).
Proof.
  intros Htry addr.
  destruct (decide (token r = "")) as [Htok|Htok].
  { exfalso. revert Htry. unfold tryLock, SetNEX. rewrite Htok.
    destruct (decide (getLockKey r = "" ∨ "" = "")) as [_|Hno]; [discriminate|].
    exfalso. apply Hno. by right. }
  destruct (Z_lt_dec 0 (expireSeconds (options r))) as [Hexp|Hexp].
  - rewrite tryLock_run in Htry by assumption. fold addr in Htry.
    unfold answered.
    destruct (link (nextFate w)) as [| msg | msg executed]; [|discriminate|discriminate].
    destruct (arriving addr w !! getLockKey r) as [en|]; [discriminate|].
    injection Htry as <-. rewrite server_emit, server_setServer. done.
  - exfalso. revert Htry. unfold tryLock.
    rewrite SetNEX_run by (auto using getLockKey_not_empty). unfold cmdSetEXNX.
    destruct (expireSeconds (options r) <=? 0) eqn:Hle; [|apply Z.leb_gt in Hle; lia].
    destruct (link (nextFate w)); discriminate.
Qed.

Lemma pollLoop_success (ctx : Context) (r : RedisLock) (t0 timeoutAt : Z) :
  ∀ (fuel : nat) (last : Z) (w w' : World),
    pollLoop fuel ctx r t0 timeoutAt last w = Some (None, w') →
    ∃ w0, tryLock ctx r w0 = (None, w').
Proof.
  induction fuel as [|fuel IH]; intros last w w' Hrun; [done|].
  simpl in Hrun.
  destruct (select ctx timeoutAt _ _) as [[| |] w1]; [done|done|].
  destruct (tryLock ctx r w1) as [[e|] w2] eqn:Htry.
  - destruct (negb (IsRetryableErr e)); [done|]. by eapply IH.
  - injection Hrun as <-. by exists w1.
Qed.

Lemma Lock_success (ctx : Context) (r r' : RedisLock) (w w' : World) :
  Lock ctx r w = Returns (None, r', w') →
  ∃ w0 w1, tryLock ctx r w0 = (None, w1) ∧ servers w' = servers w1
           ∧ future w' = future w1 ∧ now w1 ≤ now w'.
Proof.
  unfold Lock. intros Hrun.
  assert (Hleave : ∀ w1, Lock_deferred ctx r None w1 = Returns (None, r', w') →
                         servers w' = servers w1 ∧ future w' = future w1 ∧ now w1 ≤ now w').
  { intros w1. unfold Lock_deferred, watchDog.
    destruct (negb (watchDogMode (options r))); [by intros [= <- <-]|].
    destruct (casLoop r w1) as [w0|] eqn:Hcas; [|done].
    apply casLoop_frame in Hcas as (_ & _ & _ & Hsv & Hfu & _ & _ & Hnow).
    by intros [= <- <-]. }
  destruct (tryLock ctx r w) as [[e|] w1] eqn:Htry.
  - destruct (negb (isBlock (options r))); [done|].
    destruct (negb (IsRetryableErr e)); [done|].
    destruct (tryGetBlockingLock ctx r w1) as [[[e'|] w2]|] eqn:Hloop; [done| |done].
    apply pollLoop_success in Hloop as [w0 Htry0].
    exists w0, w2. split; [exact Htry0|]. by apply Hleave.
  - exists w, w1. split; [exact Htry|]. by apply Hleave.
Qed.

Lemma Lock_leaves_token (ctx : Context) (r r' : RedisLock) (w w' : World) :
  Lock ctx r w = Returns (None, r', w') →
  server (address (client r)) w' !! getLockKey r
  = Some (mkEntry (token r) (expireSeconds (options r)))
  ∧ storedAt r' (server (address (client r')) w') = Some (token r')
  ∧ token r ≠ "" ∧ 0 < expireSeconds (options r).
Proof.
  intros Hrun.
  pose proof (Lock_spec ctx r w) as Hspec. rewrite Hrun in Hspec.
  destruct Hspec as (_ & _ & _ & _ & _ & _ & _ & _ & Hkey & Htok & Hcl & _).
  destruct (Lock_success ctx r r' w w' Hrun) as (w0 & w1 & Htry & Hsv & _).
  apply tryLock_success in Htry as (Hne & Hexp & _ & _ & Hstore).
  assert (Hhere : server (address (client r)) w' !! getLockKey r
                  = Some (mkEntry (token r) (expireSeconds (options r)))).
  { unfold server in *. rewrite Hsv, Hstore. apply lookup_insert_eq. }
  split; [exact Hhere|]. split; [|done].
  unfold storedAt, getLockKey. rewrite Hcl, Hkey, Htok.
  fold (getLockKey r). by rewrite Hhere.
Qed.




(** ** Mutual exclusion *)

Lemma tryLock_on_held (ctx : Context) (r : RedisLock) (w : World) (en : entry) :
  token r ≠ "" →
  0 < expireSeconds (options r) →
  undisturbed (address (client r)) w →
  server (address (client r)) w !! getLockKey r = Some en →
  ∃ w',
    tryLock ctx r w = (Some (Errorf_w "reply: 0, err: " ErrLockAcquiredByOthers), w')
    ∧ server (address (client r)) w' = server (address (client r)) w
    ∧ future w' = tail (future w)
    ∧ trace w' = trace w ++ [attempt r (now w) 0 None].
Proof.
  intros Htok Hexp [Hans Hsame] Hheld.
  rewrite tryLock_run by assumption. unfold answered in Hans. rewrite Hans, Hsame, Hheld.
  eexists. split; [reflexivity|]. rewrite server_emit, server_setServer. done.
Qed.

(** Once a [Lock] has returned nil, the key is taken for everybody, the
    lock object that holds it included (the lock is not reentrant): a
    [Lock] with blocking off by any lock object on the same key of the same
    server, with nothing having touched the server in between, fails with
    a retryable acquired-by-others error and leaves the holder's entry in
    place. *)
Theorem Lock_excludes (ctx ctx2 : Context) (r r' r2 : RedisLock) (w w1 : World) :
  Lock ctx r w = Returns (None, r', w1) →
  getLockKey r2 = getLockKey r →
  address (client r2) = address (client r) →
  isBlock (options r2) = false →
  token r2 ≠ "" →
  0 < expireSeconds (options r2) →
  undisturbed (address (client r)) w1 →
  ∃ e w2,
    Lock ctx2 r2 w1 = Returns (Some e, r2, w2)
    ∧ IsRetryableErr e = true
    ∧ server (address (client r)) w2 = server (address (client r)) w1
    ∧ storedAt r (server (address (client r)) w2) = Some (token r).
Proof.
  intros Hrun Hkey Haddr Hnb Htok Hexp Hquiet.
  destruct (Lock_leaves_token ctx r r' w w1 Hrun) as (Hheld & _).
  rewrite <- Haddr in Hquiet.
  destruct (tryLock_on_held ctx2 r2 w1 (mkEntry (token r) (expireSeconds (options r)))
                            Htok Hexp Hquiet) as (w2 & Htry & Hsrv & _).
  { rewrite Haddr, Hkey. exact Hheld. }
  exists (Errorf_w "reply: 0, err: " ErrLockAcquiredByOthers), w2.
  split; [by apply nonblocking_Lock_error|]. split; [reflexivity|].
  rewrite <- Haddr, Hsrv. split; [reflexivity|].
  unfold storedAt. rewrite Haddr, Hheld. reflexivity.
Qed.

Lemma Lock_excludes_witness :
  Lock Background passerby emptyWorld = Returns (None, watched, watchedWorld)
  ∧ ∃ e w2,
      Lock Background watched watchedWorld = Returns (Some e, watched, w2)
      ∧ IsRetryableErr e = true
      ∧ storedAt passerby (server (address (client passerby)) w2) = Some (token passerby).
Proof.
  assert (Hrun : Lock Background passerby emptyWorld = Returns (None, watched, watchedWorld))
    by (vm_compute; reflexivity).
  split; [exact Hrun|].
  destruct (Lock_excludes Background Background passerby watched watched
                          emptyWorld watchedWorld Hrun)
    as (e & w2 & Hrun2 & Hre & _ & Hst);
    try reflexivity; try discriminate.
  - split; reflexivity.
  - by exists e, w2.
Defined.

Lemma leftAlone_arriving (addr k : string) (w : World) :
  leftAlone k w → arriving addr w !! k = server addr w !! k.
Proof.
  unfold leftAlone, arriving, nextFate. intros H.
  destruct (future w) as [|f fs]; [done|]. by inversion H.
Qed.

Lemma leftAlone_tail (k : string) (w w' : World) :
  leftAlone k w → future w' = tail (future w) → leftAlone k w'.
Proof.
  unfold leftAlone. intros H ->. destruct (future w); [done|]. by inversion H.
Qed.

(** An attempt on a key that is taken when the command arrives: it fails,
    with acquired-by-others or with the failure of the round trip, and the
    entry stays. *)
Lemma tryLock_on_taken (ctx : Context) (r : RedisLock) (w : World) (en : entry) :
  token r ≠ "" →
  0 < expireSeconds (options r) →
  arriving (address (client r)) w !! getLockKey r = Some en →
  ∃ e w',
    tryLock ctx r w = (Some e, w')
    ∧ (e = Errorf_w "reply: 0, err: " ErrLockAcquiredByOthers ∨ ∃ msg, e = connError msg)
    ∧ server (address (client r)) w' !! getLockKey r = Some en
    ∧ future w' = tail (future w).
Proof.
  intros Htok Hexp Hheld. rewrite tryLock_run by assumption. rewrite Hheld.
  destruct (link (nextFate w)) as [| msg | msg executed]; [| |destruct executed];
    (eexists _, _; split; [reflexivity|]);
    rewrite server_emit, ?server_setServer, ?server_setNow, ?server_setServer;
    (split; [eauto|by split]).
Qed.

Lemma pollLoop_on_taken (ctx : Context) (r : RedisLock) (t0 timeoutAt : Z) (en : entry) :
  token r ≠ "" →
  0 < expireSeconds (options r) →
  ∀ (fuel : nat) (last : Z) (w w' : World) (res : option error),
    leftAlone (getLockKey r) w →
    server (address (client r)) w !! getLockKey r = Some en →
    pollLoop fuel ctx r t0 timeoutAt last w = Some (res, w') →
    (∃ e, res = Some e
          ∧ (e = errBlockingTimeout ∨ e = errContextDone ctx ∨ ∃ msg, e = connError msg))
    ∧ server (address (client r)) w' !! getLockKey r = Some en.
Proof.
  intros Htok Hexp.
  induction fuel as [|fuel IH]; intros last w w' res Hleft Hheld Hrun; [done|].
  simpl in Hrun.
  destruct (select ctx timeoutAt _ _) as [s w1] eqn:Hsel.
  apply select_spec in Hsel as (_ & _ & _ & _ & Hfu & Hsv & _).
  simpl in Hfu, Hsv.
  assert (Hsrv1 : server (address (client r)) w1 = server (address (client r)) w).
  { unfold server. by rewrite Hsv. }
  assert (Hleft1 : leftAlone (getLockKey r) w1).
  { unfold leftAlone. by rewrite Hfu. }
  destruct s.
  - injection Hrun as <- <-. rewrite Hsrv1. split; [|done]. eexists. split; [done|]. auto.
  - injection Hrun as <- <-. rewrite Hsrv1. split; [|done]. eexists. split; [done|]. auto.
  - destruct (tryLock_on_taken ctx r w1 en Htok Hexp) as (e & w2 & Htry & He & Hsrv2 & Hfu2).
    { rewrite leftAlone_arriving by done. by rewrite Hsrv1. }
    rewrite Htry in Hrun.
    destruct He as [->|(msg & ->)]; simpl in Hrun.
    + apply IH in Hrun; [done| |done]. by eapply leftAlone_tail.
    + injection Hrun as <- <-. split; [|done]. eexists. split; [done|]. eauto.
Qed.

(** A contender in blocking mode never gets a key that stays held: when
    the key is taken and neither another client nor expiry touches its
    entry for the time of the call (round trips may last as long as they
    like, and may fail), [Lock] comes back with the blocking-timeout error,
    with the context error or with the failure of a round trip, never with
    nil, and the holder's entry is as it was. *)
Theorem Lock_blocking_never_steals (ctx : Context) (r : RedisLock) (w : World) (en : entry) :
  isBlock (options r) = true →
  token r ≠ "" →
  0 < expireSeconds (options r) →
  leftAlone (getLockKey r) w →
  server (address (client r)) w !! getLockKey r = Some en →
  ∃ e w',
    Lock ctx r w = Returns (Some e, r, w')
    ∧ (e = errBlockingTimeout ∨ e = errContextDone ctx ∨ ∃ msg, e = connError msg)
    ∧ server (address (client r)) w' !! getLockKey r = Some en.
Proof.
  intros Hb Htok Hexp Hleft Hheld.
  destruct (tryLock_on_taken ctx r w en Htok Hexp) as (e & w1 & Htry & He & Hsrv1 & Hfu1).
  { by rewrite leftAlone_arriving. }
  unfold Lock. rewrite Htry, Hb. simpl.
  destruct He as [->|(msg & ->)]; simpl.
  - destruct (tryGetBlockingLock_spec ctx r w1) as (res & w' & _ & _ & Hrun & _).
    rewrite Hrun. unfold tryGetBlockingLock in Hrun.
    apply (pollLoop_on_taken ctx r _ _ en Htok Hexp) in Hrun as [(e & -> & He) Hsrv];
      [|by eapply leftAlone_tail|done].
    by exists e, w'.
  - exists (connError msg), w1. split; [done|]. split; [eauto|done].
Qed.

Lemma Lock_blocking_never_steals_witness :
  ∃ e w',
    Lock Background waiter (withFuture [sluggish; unreachable] heldWorld)
    = Returns (Some e, waiter, w')
    ∧ (e = errBlockingTimeout ∨ e = errContextDone Background ∨ ∃ msg, e = connError msg)
    ∧ server (address (client waiter)) w' !! getLockKey waiter = Some (mkEntry "100_1" 1).
Proof.
  apply (Lock_blocking_never_steals Background waiter
           (withFuture [sluggish; unreachable] heldWorld) (mkEntry "100_1" 1));
    try reflexivity; try discriminate.
  repeat constructor.
Defined.

(** ** Lock, then Unlock *)

Lemma Unlock_owner (ctx : Context) (r : RedisLock) (w : World) :
  undisturbed (address (client r)) w →
  storedAt r (server (address (client r)) w) = Some (token r) →
  ∃ w',
    Unlock ctx r w = (None, r, w')
    ∧ server (address (client r)) w' = delete (getLockKey r) (server (address (client r)) w)
    ∧ (∀ id, stopDog r = Some id → id ∈ cancelled w').
Proof.
  intros [Hans Hsame] Hown. rewrite Unlock_run.
  unfold answered in Hans. rewrite Hans, Hsame.
  rewrite decide_True by exact Hown.
  unfold Unlock_deferred. destruct (stopDog r) as [id|].
  - eexists. split; [reflexivity|]. split.
    + unfold server. simpl. by rewrite lookup_insert_eq.
    + intros id' [= <-]. simpl. apply elem_of_app. right. by apply list_elem_of_singleton.
  - eexists. split; [reflexivity|]. split; [|done].
    by rewrite server_emit, server_setServer.
Qed.

Lemma Unlock_stranger (ctx : Context) (r : RedisLock) (w : World) :
  undisturbed (address (client r)) w →
  storedAt r (server (address (client r)) w) ≠ Some (token r) →
  ∃ w',
    Unlock ctx r w = (Some errNotOwner, r, w')
    ∧ server (address (client r)) w' = server (address (client r)) w.
Proof.
  intros [Hans Hsame] Hother. rewrite Unlock_run.
  unfold answered in Hans. rewrite Hans, Hsame.
  rewrite decide_False by exact Hother.
  unfold Unlock_deferred. destruct (stopDog r) as [id|];
    (eexists; split; [reflexivity|]; unfold server; simpl; by rewrite lookup_insert_eq).
Qed.

(** Lock, Unlock, Unlock. After a [Lock] that returned nil, an [Unlock]
    of the same lock object, with nothing having touched the server in
    between, returns nil, leaves the key absent and has told the renewal
    task, if there is one, to stop. After that the key is free for any
    contender, and a second [Unlock] fails with the not-owner error and
    changes nothing. *)
Theorem Lock_Unlock_Unlock (ctx ctx2 ctx3 : Context) (r r' : RedisLock) (w w1 : World) :
  Lock ctx r w = Returns (None, r', w1) →
  undisturbed (address (client r)) w1 →
  ∃ w2,
    Unlock ctx2 r' w1 = (None, r', w2)
    ∧ server (address (client r)) w2 !! getLockKey r = None
    ∧ (∀ id, stopDog r' = Some id → id ∈ cancelled w2)
    ∧ (undisturbed (address (client r)) w2 →
       (∃ w3, Unlock ctx3 r' w2 = (Some errNotOwner, r', w3)
              ∧ server (address (client r)) w3 = server (address (client r)) w2)
       ∧ (∀ r2, getLockKey r2 = getLockKey r →
                address (client r2) = address (client r) →
                token r2 ≠ "" → 0 < expireSeconds (options r2) →
                ∃ w3, tryLock ctx3 r2 w2 = (None, w3))).
Proof.
  intros Hrun Hquiet.
  pose proof (Lock_spec ctx r w) as Hspec. rewrite Hrun in Hspec.
  destruct Hspec as (_ & _ & _ & _ & _ & _ & _ & _ & Hkey & Htok & Hcl & _).
  assert (Hlk : getLockKey r' = getLockKey r) by (unfold getLockKey; by rewrite Hkey).
  destruct (Lock_leaves_token ctx r r' w w1 Hrun) as (_ & Hown & _).
  rewrite <- Hcl in Hquiet |- *.
  destruct (Unlock_owner ctx2 r' w1 Hquiet Hown) as (w2 & Hun & Hsrv & Hstop).
  exists w2. split; [exact Hun|].
  assert (Hfree : server (address (client r')) w2 !! getLockKey r = None).
  { rewrite Hsrv, <- Hlk. apply lookup_delete_eq. }
  split; [exact Hfree|]. split; [exact Hstop|].
  intros Hquiet2. split.
  - apply Unlock_stranger; [exact Hquiet2|].
    unfold storedAt. rewrite Hlk, Hfree. discriminate.
  - intros r2 Hkey2 Haddr2 Htok2 Hexp2.
    rewrite tryLock_run by assumption.
    destruct Hquiet2 as [Hans Hsame]. unfold answered in Hans.
    rewrite Hans, Haddr2, Hsame, Hkey2, Hfree. by eexists.
Qed.

Lemma Lock_Unlock_Unlock_witness :
  ∃ w2 w3,
    Unlock Background watched watchedWorld = (None, watched, w2)
    ∧ server "127.0.0.1:6379" w2 !! "REDIS_LOCK_PREFIX_order" = None
    ∧ 0%nat ∈ cancelled w2
    ∧ Unlock Background watched w2 = (Some errNotOwner, watched, w3).
Proof.
  assert (Hrun : Lock Background passerby emptyWorld = Returns (None, watched, watchedWorld))
    by (vm_compute; reflexivity).
  destruct (Lock_Unlock_Unlock Background Background Background passerby watched
                               emptyWorld watchedWorld Hrun)
    as (w2 & Hun & Hfree & Hstop & Hnext).
  { split; reflexivity. }
  assert (Hquiet2 : undisturbed (address (client passerby)) w2).
  { assert (Hw2 : w2 = (Unlock Background watched watchedWorld).2) by (by rewrite Hun).
    rewrite Hw2. split; vm_compute; reflexivity. }
  destruct (Hnext Hquiet2) as [(w3 & Hun2 & _) _].
  exists w2, w3. split; [exact Hun|]. split; [exact Hfree|].
  split; [exact (Hstop 0%nat eq_refl)|exact Hun2].
Defined.

(** ** Renewal *)

Lemma cmdEval_extend (r : RedisLock) (seconds : Z) (ks : keyspace) :
  cmdEval LuaCheckAndExpireDistributionLock 1
          [ArgString (getLockKey r); ArgString (token r); ArgInt64 seconds] ks
  = if decide (storedAt r ks = Some (token r))
    then (inl (ReplyInt64 1),
          if seconds <=? 0 then delete (getLockKey r) ks
          else <[getLockKey r := mkEntry (token r) seconds]> ks)
    else (inl (ReplyInt64 0), ks).
Proof.
  unfold cmdEval, storedAt.
  destruct (ks !! getLockKey r) as [e|]; simpl.
  - destruct (decide (held e = token r)) as [Heq|Hne];
      destruct (decide (Some (held e) = Some (token r))) as [Heq'|Hne'];
      try reflexivity; try congruence. by rewrite Heq.
  - destruct (decide (None = Some (token r))); [done|reflexivity].
Qed.

Lemma DelayExpire_run (ctx : Context) (r : RedisLock) (seconds : Z) (w : World) :
  let addr := address (client r) in
  let ks := arriving addr w in
  let base := setNow (now w + Z.of_N (took (nextFate w)))
                     (setServer addr ks (setFuture (tail (future w)) w)) in
  let sent rep err :=
    EvEval (now w) addr LuaCheckAndExpireDistributionLock
           [ArgString (getLockKey r); ArgString (token r); ArgInt64 seconds] rep err in
  let after := if decide (storedAt r ks = Some (token r))
               then (if seconds <=? 0 then delete (getLockKey r) ks
                     else <[getLockKey r := mkEntry (token r) seconds]> ks)
               else ks in
  DelayExpire ctx r seconds w =
  match link (nextFate w) with
  | DialError msg =>
      (Some (connError msg), emit (sent (ReplyInt (-1)) (Some (connError msg))) base)
  | ConnError msg executed =>
      (Some (connError msg),
       emit (sent ReplyNil (Some (connError msg)))
            (if executed then setServer addr after base else base))
  | Delivered =>
      if decide (storedAt r ks = Some (token r))
      then (None, emit (sent (ReplyInt64 1) None) (setServer addr after base))
      else (Some errNotExtended, emit (sent (ReplyInt64 0) None) (setServer addr after base))
  end.
Proof.
  intros addr ks base sent after. unfold DelayExpire. rewrite Eval_run.
  fold addr. fold ks. rewrite cmdEval_extend. unfold after.
  destruct (link (nextFate w)) as [| msg | msg executed];
    destruct (decide (storedAt r ks = Some (token r))); reflexivity.
Qed.

Lemma DelayExpire_spec (ctx : Context) (r : RedisLock) (seconds : Z) (w : World) :
  let addr := address (client r) in
  let ks := arriving addr w in
  ∃ err w',
    DelayExpire ctx r seconds w = (err, w')
    ∧ (err = None ↔ answered w ∧ storedAt r ks = Some (token r))
    ∧ (err = None →
       server addr w' !! getLockKey r
       = if seconds <=? 0 then None else Some (mkEntry (token r) seconds))
    ∧ (err = Some errNotExtended ↔ answered w ∧ storedAt r ks ≠ Some (token r))
    ∧ (storedAt r ks ≠ Some (token r) → server addr w' = ks)
    ∧ (0 < seconds → storedAt r (server addr w') = storedAt r ks)
    ∧ (storedAt r (server addr w') = storedAt r ks ∨ storedAt r (server addr w') = None)
    ∧ (∀ k, k ≠ getLockKey r → server addr w' !! k = ks !! k)
    ∧ (∀ msg, failing msg w → err = Some (connError msg)).
Proof.
  intros addr ks. rewrite DelayExpire_run. fold addr. fold ks. unfold answered, failing.
  set (base := setNow _ _).
  assert (Hbase : server addr base = ks).
  { unfold base. by rewrite server_setNow, server_setServer. }
  set (after := if decide (storedAt r ks = Some (token r))
                then (if seconds <=? 0 then delete (getLockKey r) ks
                      else <[getLockKey r := mkEntry (token r) seconds]> ks)
                else ks).
  assert (Hafter : (0 < seconds → storedAt r after = storedAt r ks)
                   ∧ (storedAt r after = storedAt r ks ∨ storedAt r after = None)
                   ∧ (∀ k, k ≠ getLockKey r → after !! k = ks !! k)
                   ∧ (storedAt r ks ≠ Some (token r) → after = ks)
                   ∧ (storedAt r ks = Some (token r) →
                      after !! getLockKey r
                      = if seconds <=? 0 then None else Some (mkEntry (token r) seconds))).
  { unfold after. destruct (decide (storedAt r ks = Some (token r))) as [Hown|Hother].
    - destruct (seconds <=? 0) eqn:Hle; [apply Z.leb_le in Hle|apply Z.leb_gt in Hle].
      + split_and!; try done; try lia.
        * right. unfold storedAt. by rewrite lookup_delete_eq.
        * intros k Hk. by rewrite lookup_delete_ne.
        * intros _. apply lookup_delete_eq.
      + assert (Hsame : storedAt r (<[getLockKey r := mkEntry (token r) seconds]> ks)
                        = storedAt r ks).
        { unfold storedAt. rewrite lookup_insert_eq. simpl. by rewrite <- Hown. }
        split_and!; try done.
        * by left.
        * intros k Hk. by rewrite lookup_insert_ne.
        * intros _. apply lookup_insert_eq.
    - split_and!; try done. by left. }
  destruct Hafter as (Hval & Hval' & Hframe & Hsame & Hset).
  destruct (link (nextFate w)) as [| msg | msg executed] eqn:Hl;
    [destruct (decide (storedAt r ks = Some (token r))) as [Hown|Hother]| |].
  - eexists _, _. split; [reflexivity|]. rewrite server_emit, server_setServer.
    split_and!; try done.
    + intros _. by apply Hset.
    + split; [done|]. intros [_ ?]. done.
    + intros msg [?|[? ?]]; done.
  - eexists _, _. split; [reflexivity|]. rewrite server_emit, server_setServer.
    split_and!; try done.
    + split; [done|]. intros [_ ?]. done.
    + intros msg [?|[? ?]]; done.
  - eexists _, _. split; [reflexivity|]. rewrite server_emit, Hbase.
    split_and!; try done.
    + split; [done|]. intros [? _]. done.
    + split; [done|]. intros [? _]. done.
    + by left.
    + intros m [[= ->]|[? [=]]]. done.
  - eexists _, _. split; [reflexivity|]. rewrite server_emit.
    assert (Hsrv : server addr (if executed then setServer addr after base else base)
                   = if executed then after else ks).
    { destruct executed; [by rewrite server_setServer|exact Hbase]. }
    rewrite Hsrv. split_and!; try done.
    + split; [done|]. intros [? _]. done.
    + split; [done|]. intros [? _]. done.
    + intros Hother. destruct executed; [by apply Hsame|done].
    + intros Hpos. destruct executed; [by apply Hval|done].
    + destruct executed; [exact Hval'|by left].
    + intros k Hk. destruct executed; [by apply Hframe|done].
    + intros m [[=]|[? [= -> _]]]. done.
Qed.

(** Renewal is scoped to the owner. With [ks] the key space as the script
    finds it: [DelayExpire] returns nil exactly when the answer came back
    and the key holds this lock's token; the entry then has the new expiry
    when that is positive, and is gone when it is 0 or less (EXPIRE with
    such a time deletes the key). It returns the lost-ownership error
    exactly when the answer came back and the key holds something else or
    nothing, and nothing is then changed. With a positive time the value
    at the key is what it was, whatever the call returns; with any time the
    key never gets another value and is never created, and no other key of
    the server is touched. *)
Theorem DelayExpire_ownership (ctx : Context) (r : RedisLock) (seconds : Z) (w : World) :
  let addr := address (client r) in
  let ks := arriving addr w in
  ∃ err w',
    DelayExpire ctx r seconds w = (err, w')
    ∧ (err = None ↔ answered w ∧ storedAt r ks = Some (token r))
    ∧ (err = None →
       server addr w' !! getLockKey r
       = if seconds <=? 0 then None else Some (mkEntry (token r) seconds))
    ∧ (err = Some errNotExtended ↔ answered w ∧ storedAt r ks ≠ Some (token r))
    ∧ (storedAt r ks ≠ Some (token r) → server addr w' = ks)
    ∧ (0 < seconds → storedAt r (server addr w') = storedAt r ks)
    ∧ (storedAt r (server addr w') = storedAt r ks ∨ storedAt r (server addr w') = None)
    ∧ (∀ k, k ≠ getLockKey r → server addr w' !! k = ks !! k)
    ∧ (∀ msg, failing msg w → err = Some (connError msg)).
Proof. apply DelayExpire_spec. Qed.

Lemma DelayExpire_ownership_witness :
  (∃ w', DelayExpire Background holder 15 heldWorld = (None, w')
         ∧ server "127.0.0.1:6379" w' !! "REDIS_LOCK_PREFIX_order" = Some (mkEntry "100_1" 15))
  ∧ (∃ w', DelayExpire Background holder 0 heldWorld = (None, w')
           ∧ server "127.0.0.1:6379" w' !! "REDIS_LOCK_PREFIX_order" = None)
  ∧ (∃ w', DelayExpire Background passerby 15 heldWorld = (Some errNotExtended, w')
           ∧ server "127.0.0.1:6379" w' = server "127.0.0.1:6379" heldWorld).
Proof.
  split_and!.
  - destruct (DelayExpire_ownership Background holder 15 heldWorld)
      as (err & w' & Hrun & Hyes & Hset & _).
    assert (Herr : err = None) by (apply Hyes; split; reflexivity).
    subst err. exists w'. split; [exact Hrun|exact (Hset eq_refl)].
  - destruct (DelayExpire_ownership Background holder 0 heldWorld)
      as (err & w' & Hrun & Hyes & Hset & _).
    assert (Herr : err = None) by (apply Hyes; split; reflexivity).
    subst err. exists w'. split; [exact Hrun|exact (Hset eq_refl)].
  - destruct (DelayExpire_ownership Background passerby 15 heldWorld)
      as (err & w' & Hrun & _ & _ & Hno & Hkeep & _).
    assert (Hst : storedAt passerby (arriving (address (client passerby)) heldWorld)
                  ≠ Some (token passerby)) by (vm_compute; intros [=]).
    assert (Herr : err = Some errNotExtended) by (apply Hno; split; [reflexivity|exact Hst]).
    subst err. exists w'. split; [exact Hrun|exact (Hkeep Hst)].
Defined.

(** ** The renewal task *)

Lemma Unlock_cancels (ctx : Context) (r : RedisLock) (w : World) (id : nat) :
  stopDog r = Some id → id ∈ cancelled (Unlock ctx r w).2.
Proof.
  intros Hdog. rewrite Unlock_run. unfold Unlock_deferred. rewrite Hdog.
  destruct (link (nextFate w)) as [| msg | msg executed];
    [destruct (decide (storedAt r (arriving (address (client r)) w) = Some (token r)))
    | |destruct executed];
    simpl; apply elem_of_app; right; by apply list_elem_of_singleton.
Qed.

Lemma DelayExpire_future (ctx : Context) (r : RedisLock) (seconds : Z) (w : World) :
  future (DelayExpire ctx r seconds w).2 = tail (future w).
Proof.
  rewrite DelayExpire_run.
  destruct (link (nextFate w)) as [| msg | msg executed];
    [destruct (decide _)| |destruct executed]; reflexivity.
Qed.

(** One tick of the renewal task. After an [Unlock] of its lock, whatever
    that returned, the tick ends the task without a round trip; so does a
    parent context that is done. A tick of a task that goes on renews
    with 15 seconds (the period of 10 plus 5) and keeps going whatever the
    renewal returned; the value at the key is what the renewal found, and
    when that is the lock's token and the round trip is undisturbed the
    entry has 15 seconds to live afterwards. *)
Theorem runWatchDog_tick_spec (ctx ctx2 : Context) (r : RedisLock) (w : World) (id : nat) :
  let addr := address (client r) in
  (stopDog r = Some id →
   runWatchDog_tick ctx2 id r (Unlock ctx r w).2 = (false, (Unlock ctx r w).2))
  ∧ (ctx_Done ctx (now w) = true → runWatchDog_tick ctx id r w = (false, w))
  ∧ (ctx_Done ctx (now w) = false → id ∉ cancelled w →
     ∃ w',
       runWatchDog_tick ctx id r w = (true, w')
       ∧ future w' = tail (future w)
       ∧ storedAt r (server addr w') = storedAt r (arriving addr w)
       ∧ (answered w → storedAt r (arriving addr w) = Some (token r) →
          server addr w' !! getLockKey r = Some (mkEntry (token r) 15))).
Proof.
  intros addr. split_and!.
  - intros Hdog. unfold runWatchDog_tick.
    rewrite (bool_decide_eq_true_2 _ (Unlock_cancels ctx r w id Hdog)).
    by rewrite orb_true_r.
  - intros Hdone. unfold runWatchDog_tick. by rewrite Hdone.
  - intros Hlive Hid. unfold runWatchDog_tick.
    rewrite Hlive, (bool_decide_eq_false_2 _ Hid). simpl.
    destruct (DelayExpire_spec ctx r (WatchDogWorkStepSeconds + 5) w)
      as (err & w' & Hrun & Hnil & Hset & _ & _ & Hval & _).
    rewrite Hrun. exists w'. simpl. split_and!; try done.
    + pose proof (DelayExpire_future ctx r (WatchDogWorkStepSeconds + 5) w) as Hfu.
      by rewrite Hrun in Hfu.
    + by apply Hval.
    + intros Hans Hown. apply Hset. apply Hnil. done.
Qed.

Lemma runWatchDog_tick_spec_witness :
  runWatchDog_tick Background 0 watched (Unlock Background watched watchedWorld).2
  = (false, (Unlock Background watched watchedWorld).2)
  ∧ ∃ w', runWatchDog_tick Background 0 watched watchedWorld = (true, w')
          ∧ server "127.0.0.1:6379" w' !! "REDIS_LOCK_PREFIX_order"
            = Some (mkEntry "300_4" 15).
Proof.
  destruct (runWatchDog_tick_spec Background Background watched watchedWorld 0)
    as (Hstop & _ & Hlive).
  split; [exact (Hstop eq_refl)|].
  destruct (Hlive eq_refl) as (w' & Hrun & _ & _ & Hset).
  { vm_compute. intros H. inversion H. }
  exists w'. split; [exact Hrun|]. apply Hset; reflexivity.
Defined.

(** ** The single-flight guard *)




Lemma dogPeriod_pos : 0 < dogPeriod.
Proof. reflexivity. Qed.

Lemma dogTick_after (born t : Z) : t < dogTick born t.
Proof.
  unfold dogTick. pose proof dogPeriod_pos as HP.
  pose proof (Z.mod_pos_bound (t - born) dogPeriod HP) as Hm.
  pose proof (Z.div_mod (t - born) dogPeriod) as Hd.
  nia.
Qed.











(** ** The error of UnLock *)

Lemma Unlock_verdict (ctx : Context) (l : RedisLock) (w : World) :
  ∃ w' ev,
    Unlock ctx l w = (verdictOf ev, l, w')
    ∧ isReleaseOf l ev
    ∧ trace w' = trace w
                 ++ ev :: match stopDog l with Some id => [EvCancel id] | None => [] end.
Proof.
  rewrite Unlock_run. unfold Unlock_deferred.
  set (sent := fun rep err =>
         EvEval (now w) (address (client l)) LuaCheckAndDeleteDistributionLock
                [ArgString (getLockKey l); ArgString (token l)] rep err).
  destruct (link (nextFate w)) as [| msg | msg executed];
    [destruct (decide (storedAt l (arriving (address (client l)) w) = Some (token l)))
    | |destruct executed];
    destruct (stopDog l) as [id|];
    [ eexists _, (sent (ReplyInt64 1) None) | eexists _, (sent (ReplyInt64 1) None)
    | eexists _, (sent (ReplyInt64 0) None) | eexists _, (sent (ReplyInt64 0) None)
    | eexists _, (sent (ReplyInt (-1)) (Some (connError msg)))
    | eexists _, (sent (ReplyInt (-1)) (Some (connError msg)))
    | eexists _, (sent ReplyNil (Some (connError msg)))
    | eexists _, (sent ReplyNil (Some (connError msg)))
    | eexists _, (sent ReplyNil (Some (connError msg)))
    | eexists _, (sent ReplyNil (Some (connError msg))) ];
    (split; [reflexivity|]; split; [by eexists _, _, _|]; simpl; by rewrite <- ?app_assoc).
Qed.

Lemma foldl_keepLast_None (evs : list event) (acc : option error) :
  foldl keepLast acc evs = None ↔ acc = None ∧ Forall (fun ev => verdictOf ev = None) evs.
Proof.
  revert acc. induction evs as [|ev evs IH]; intros acc; simpl.
  - split; [intros ->; split; [done|constructor]|by intros [-> _]].
  - rewrite IH. unfold keepLast. destruct (verdictOf ev) as [e|] eqn:Hv.
    + split; [intros [? _]; done|]. intros [_ H]. inversion H; congruence.
    + split.
      * intros [-> H]. split; [done|]. by constructor.
      * intros [-> H]. inversion H. done.
Qed.

Lemma unlockEach_errors (ctx : Context) (ls : list RedisLock) :
  ∀ (success : list nat) (err0 : option error) (w : World),
    Forall (fun i => (i < length ls)%nat) success →
    ∃ w' evs,
      unlockEach ctx ls success err0 w = (foldl keepLast err0 evs, ls, w')
      ∧ trace w' = trace w ++ evs
      ∧ length (filter (fun ev => isEvalEvent ev = true) evs) = length success.
Proof.
  induction success as [|i rest IH]; intros err0 w Hwf.
  - exists w, []. by rewrite app_nil_r.
  - apply Forall_cons in Hwf as [Hi Hrest].
    destruct (lookup_lt_is_Some_2 ls i Hi) as [l Hl].
    simpl. rewrite Hl.
    destruct (Unlock_verdict ctx l w) as (w1 & ev & Hrun & (t & rep & rerr & ->) & Htr).
    rewrite Hrun. rewrite list_insert_id by exact Hl.
    destruct (IH (keepLast err0 (EvEval t (address (client l)) LuaCheckAndDeleteDistributionLock
                                       [ArgString (getLockKey l); ArgString (token l)] rep rerr))
                 w1 Hrest)
      as (w' & evs & Hrun' & Htr' & Hlen).
    eexists w', (_ :: _ ++ evs). split; [|split].
    + cbn [foldl].
      assert (Hskip : ∀ acc, foldl keepLast acc
                               (match stopDog l with Some id => [EvCancel id] | None => [] end
                                ++ evs)
                             = foldl keepLast acc evs).
      { intros acc. by destruct (stopDog l). }
      rewrite Hskip. exact Hrun'.
    + rewrite Htr', Htr. by rewrite <- app_assoc.
    + rewrite filter_eval_Unlock by done. simpl. by rewrite Hlen.
Qed.

(** [RedLock.UnLock] returns the error of the last release that failed:
    it returns nil exactly when every release it sent came back with the
    script's answer 1. A release that fails does not stop the later ones:
    the number of release scripts sent is the length of the success list,
    and the node locks and the success list are left as they were. *)
Theorem RedLock_UnLock_last_error (ctx : Context) (r : RedLock) (w : World) :
  wellFormed r →
  ∃ err w',
    RedLock_UnLock ctx r w = (err, r, w')
    ∧ trace w' = trace w ++ added w w'
    ∧ err = lastFailure (added w w')
    ∧ (err = None ↔ Forall (fun ev => verdictOf ev = None) (added w w'))
    ∧ length (filter (fun ev => isEvalEvent ev = true) (added w w'))
      = length (successLocks r).
Proof.
  intros Hwf.
  destruct (unlockEach_errors ctx (locks r) (successLocks r) None w Hwf)
    as (w' & evs & Hrun & Htr & Hlen).
  exists (foldl keepLast None evs), w'.
  assert (Hadded : added w w' = evs).
  { unfold added. by rewrite Htr, drop_app_length. }
  rewrite Hadded. unfold RedLock_UnLock. rewrite Hrun.
  split_and!; try done.
  - by destruct r.
  - rewrite foldl_keepLast_None. split; [by intros [_ ?]|done].
Qed.

Lemma RedLock_UnLock_last_error_witness :
  ∃ r1 w1 w2,
    RedLock_Lock Background trio contestedWorld = Returns (Some errQuorum, r1, w1)
    ∧ wellFormed r1
    ∧ RedLock_UnLock Background r1 w1 = (Some errNotOwner, r1, w2)
    ∧ lastFailure (added w1 w2) = Some errNotOwner.
Proof.
  assert (Hval : ∃ r1 w1 w2,
             RedLock_Lock Background trio contestedWorld = Returns (Some errQuorum, r1, w1)
             ∧ wellFormed r1
             ∧ RedLock_UnLock Background r1 w1 = (Some errNotOwner, r1, w2)).
  { eexists _, _, _. split; [vm_compute; reflexivity|].
    split; [repeat constructor|vm_compute; reflexivity]. }
  destruct Hval as (r1 & w1 & w2 & Hlock & Hwf & Hun).
  exists r1, w1, w2. split; [exact Hlock|]. split; [exact Hwf|]. split; [exact Hun|].
  destruct (RedLock_UnLock_last_error Background r1 w1 Hwf) as (err & w' & Hrun & _ & Hlast & _).
  rewrite Hun in Hrun. injection Hrun as <- <-. by rewrite <- Hlast.
Defined.

(** ** One attempt per node *)

Lemma nonblocking_Lock_trace (ctx : Context) (l l' : RedisLock) (w w1 : World) (err : option error) :
  isBlock (options l) = false →
  Lock ctx l w = Returns (err, l', w1) →
  ∃ ev go,
    trace w1 = trace w ++ ev :: go
    ∧ isAttempt l ev
    ∧ filter (fun ev => isSetNEXEvent ev = true) go = []
    ∧ options l' = options l.
Proof.
  intros Hnb Hrun. unfold Lock in Hrun.
  destruct (tryLock ctx l w) as [res w0] eqn:Htry.
  apply tryLock_spec in Htry as (code & e & Htr & _).
  assert (Hleave : ∀ res0, Lock_deferred ctx l res0 w0 = Returns (err, l', w1) →
                           ∃ go, trace w1 = trace w0 ++ go
                                 ∧ filter (fun ev => isSetNEXEvent ev = true) go = []
                                 ∧ options l' = options l).
  { intros res0. unfold Lock_deferred, watchDog. destruct res0 as [e0|].
    - intros [= <- <- <-]. exists []. by rewrite app_nil_r.
    - destruct (negb (watchDogMode (options l))).
      + intros [= <- <- <-]. exists []. by rewrite app_nil_r.
      + destruct (casLoop l w0) as [w00|] eqn:Hcas; [|done].
        apply casLoop_frame in Hcas as (Htr0 & Hnc0 & _).
        intros [= <- <- <-]. exists [EvGo (nextCtx w0)]. simpl.
        by rewrite Htr0, Hnc0. }
  assert (Hgo : ∃ go, trace w1 = trace w0 ++ go
                      ∧ filter (fun ev => isSetNEXEvent ev = true) go = []
                      ∧ options l' = options l).
  { destruct res as [e0|]; [|by apply (Hleave None)].
    rewrite Hnb in Hrun. simpl in Hrun. by apply (Hleave (Some e0)). }
  destruct Hgo as (go & Htr1 & Hgo & Hopt).
  exists (attempt l (now w) code e), go. split; [|split; [by eexists _, _, _|done]].
  rewrite Htr1, Htr. by rewrite <- app_assoc.
Qed.

Lemma lockEach_one_attempt_each (ctx : Context) (budget : Z) :
  ∀ (todo : list RedisLock) (i : nat) (success : list nat) (count : Z) (w : World)
    (ls : list RedisLock) (s : list nat) (n : Z) (w1 : World),
    Forall (fun l => isBlock (options l) = false) todo →
    lockEach ctx budget i todo success count w = Returns (ls, s, n, w1) →
    ∃ evs,
      trace w1 = trace w ++ evs
      ∧ Forall2 isAttempt todo (filter (fun ev => isSetNEXEvent ev = true) evs)
      ∧ Forall (fun l => isBlock (options l) = false) ls.
Proof.
  induction todo as [|l rest IH]; intros i success count w ls s n w1 Hnb Hrun.
  - injection Hrun as <- <- <- <-. exists []. rewrite app_nil_r.
    split; [done|]. split; constructor.
  - apply Forall_cons in Hnb as [Hl Hrest]. simpl in Hrun.
    destruct (Lock ctx l w) as [[[err l'] w0]| |] eqn:Hlock; [|done|done].
    destruct (nonblocking_Lock_trace ctx l l' w w0 err Hl Hlock)
      as (ev & go & Htr & Hev & Hgo & Hopt).
    destruct (bool_decide (err = None) && (now w0 - now w <=? budget)).
    + destruct (lockEach ctx budget (S i) rest (success ++ [i]) (count + 1) w0)
        as [[[[ls0 s0] n0] w2]| |] eqn:Hround; [|done|done].
      injection Hrun as <- <- <- <-.
      apply IH in Hround as (evs & Htr2 & Hall & Hnb2); [|exact Hrest].
      exists (ev :: go ++ evs). split; [|split].
      * rewrite Htr2, Htr. by rewrite <- app_assoc.
      * destruct Hev as (t & c & e & ->).
        rewrite filter_cons_True by done. rewrite filter_app, Hgo. simpl.
        constructor; [by eexists _, _, _|exact Hall].
      * constructor; [by rewrite Hopt|exact Hnb2].
    + destruct (lockEach ctx budget (S i) rest success count w0)
        as [[[[ls0 s0] n0] w2]| |] eqn:Hround; [|done|done].
      injection Hrun as <- <- <- <-.
      apply IH in Hround as (evs & Htr2 & Hall & Hnb2); [|exact Hrest].
      exists (ev :: go ++ evs). split; [|split].
      * rewrite Htr2, Htr. by rewrite <- app_assoc.
      * destruct Hev as (t & c & e & ->).
        rewrite filter_cons_True by done. rewrite filter_app, Hgo. simpl.
        constructor; [by eexists _, _, _|exact Hall].
      * constructor; [by rewrite Hopt|exact Hnb2].
Qed.

Lemma filter_SetNEX_releases (evs : list event) :
  Forall (fun ev => isEvalEvent ev = true ∨ ∃ id, ev = EvCancel id) evs →
  filter (fun ev => isSetNEXEvent ev = true) evs = [].
Proof.
  induction 1 as [|ev evs Hev _ IH]; [reflexivity|].
  rewrite filter_cons_False; [exact IH|].
  destruct Hev as [Hev|[id ->]]; [destruct ev; simpl in *; congruence|simpl; discriminate].
Qed.

(** The node locks [NewRedLock] builds have blocking off, and stay so. On
    such a quorum lock a [RedLock.Lock] that returns has made exactly one
    SET NX EX round trip per node lock, in the order of the node list,
    whether it then rolled back or not: no node is polled. *)
Theorem RedLock_Lock_one_attempt_each (ctx : Context) (r r' : RedLock) (w w' : World)
    (err : option error) :
  wellFormed r →
  Forall (fun l => isBlock (options l) = false) (locks r) →
  RedLock_Lock ctx r w = Returns (err, r', w') →
  trace w' = trace w ++ added w w'
  ∧ Forall2 isAttempt (locks r) (filter (fun ev => isSetNEXEvent ev = true) (added w w'))
  ∧ Forall (fun l => isBlock (options l) = false) (locks r')
  ∧ (∀ tok name confs opts r0,
        NewRedLock tok name confs opts = inl r0 →
        Forall (fun l => isBlock (options l) = false) (locks r0)).
Proof.
  intros Hwf Hnb Hrun.
  assert (Hbuilt : ∀ tok name confs opts r0,
             NewRedLock tok name confs opts = inl r0 →
             Forall (fun l => isBlock (options l) = false) (locks r0)).
  { intros tok name confs opts r0. rewrite NewRedLock_run.
    destruct (Z.of_nat (length confs) <? 3); [discriminate|].
    destruct (_ && _); [discriminate|]. intros [= <-]. simpl.
    apply Forall_map, Forall_forall. intros conf _. simpl.
    unfold setLockOptions. simpl. by destruct (0 <? _). }
  pose proof (RedLock_Lock_spec ctx r w Hwf) as Hspec. rewrite Hrun in Hspec.
  destruct Hspec as (counted & ls & w1 & _ & Hsucc & Hlocks & _ & Hwf' & _).
  unfold RedLock_Lock in Hrun.
  destruct (lockEach ctx (singleNodesTimeout (redOptions r)) 0 (locks r) (successLocks r) 0 w)
    as [[[[ls0 s0] n0] w0]| |] eqn:Hround; [|done|done].
  pose proof (lockEach_spec ctx (singleNodesTimeout (redOptions r)) (locks r) 0
                            (successLocks r) 0 w) as Hlen.
  rewrite Hround in Hlen. destruct Hlen as (cnt & _ & -> & _ & _ & Hrange & Hlen & _).
  apply lockEach_one_attempt_each in Hround as (evs & Htr & Hall & Hnb'); [|exact Hnb].
  destruct (n0 <? _).
  - assert (Hin : Forall (fun i => (i < length ls0)%nat) (successLocks r ++ cnt)).
    { apply Forall_app. split; [by rewrite Hlen|].
      eapply Forall_impl; [exact Hrange|]. simpl. intros; lia. }
    destruct (rollback_spec ctx ls0 (successLocks r ++ cnt) w0 Hin)
      as (w2 & revs & Hroll & Htr2 & _ & Hkind).
    rewrite Hroll in Hrun. injection Hrun as <- <- <-. simpl.
    assert (Hadded : added w w2 = evs ++ revs).
    { unfold added. by rewrite Htr2, Htr, <- app_assoc, drop_app_length. }
    rewrite Hadded, filter_app, (filter_SetNEX_releases revs Hkind), app_nil_r.
    split_and!; try done. by rewrite Htr2, Htr, <- app_assoc.
  - injection Hrun as <- <- <-. simpl.
    assert (Hadded : added w w0 = evs).
    { unfold added. by rewrite Htr, drop_app_length. }
    rewrite Hadded. by split_and!.
Qed.

Lemma RedLock_Lock_one_attempt_each_witness :
  ∃ r' w',
    RedLock_Lock Background trio contestedWorld = Returns (Some errQuorum, r', w')
    ∧ Forall2 isAttempt (locks trio)
              (filter (fun ev => isSetNEXEvent ev = true) (added contestedWorld w')).
Proof.
  assert (Hrun : ∃ r' w',
             RedLock_Lock Background trio contestedWorld = Returns (Some errQuorum, r', w')).
  { eexists _, _. vm_compute. reflexivity. }
  destruct Hrun as (r' & w' & Hrun). exists r', w'. split; [exact Hrun|].
  refine (proj1 (proj2 (RedLock_Lock_one_attempt_each Background trio r' contestedWorld w'
                          _ _ _ Hrun))).
  - constructor.
  - repeat constructor.
Defined.

(** ** How late the blocking-timeout comes *)

Lemma pollLoop_timeout_prompt (ctx : Context) (r : RedisLock) (t0 timeoutAt : Z) :
  ∀ (fuel : nat) (j : Z) (w w' : World),
    0 ≤ j →
    now w ≤ t0 + (j + 1) * pollPeriod →
    quick w →
    t0 + j * pollPeriod < timeoutAt →
    pollLoop fuel ctx r t0 timeoutAt (t0 + j * pollPeriod) w = Some (Some errBlockingTimeout, w') →
    timeoutAt ≤ now w' < timeoutAt + pollPeriod
    ∧ ∃ k, 0 < k ∧ now w' = t0 + k * pollPeriod.
Proof.
  pose proof pollPeriod_pos as HP.
  induction fuel as [|fuel IH]; intros j w w' Hj Hnow Hquick Hbefore Hrun; [done|].
  simpl in Hrun.
  assert (Htick : nextTick t0 (t0 + j * pollPeriod) = t0 + (j + 1) * pollPeriod).
  { unfold nextTick. replace (t0 + j * pollPeriod - t0) with (j * pollPeriod) by lia.
    rewrite Z.div_mul by lia. reflexivity. }
  rewrite Htick in Hrun.
  replace (Z.max (now w) (t0 + (j + 1) * pollPeriod)) with (t0 + (j + 1) * pollPeriod) in Hrun by lia.
  set (t := t0 + (j + 1) * pollPeriod) in *.
  destruct (select ctx timeoutAt t (setNow t w)) as [s w1] eqn:Hsel.
  apply select_spec in Hsel as (_ & _ & _ & Hnow1 & Hfu & _ & Hs).
  simpl in Hnow1, Hfu.
  destruct s.
  - exfalso. injection Hrun as Herr _. revert Herr.
    unfold errContextDone, errBlockingTimeout, ctx_Err. destruct (cause ctx); discriminate.
  - injection Hrun as <-. rewrite Hnow1. split; [unfold t; lia|].
    exists (j + 1). split; [lia|reflexivity].
  - destruct Hs as [_ Hlt].
    destruct (tryLock ctx r w1) as [res1 w2] eqn:Htry.
    pose proof Htry as Htry'.
    apply tryLock_spec in Htry' as (code & err & _ & _ & _ & _ & Hnow2 & Hfu2 & _).
    rewrite Hnow1 in Hnow2.
    assert (Htook : Z.of_N (took (nextFate w1)) ≤ pollPeriod).
    { unfold nextFate. rewrite Hfu. unfold quick in Hquick.
      destruct (future w) as [|f fs]; simpl; [lia|]. by inversion Hquick. }
    assert (Hquick2 : quick w2).
    { unfold quick in *. destruct Hfu2 as [-> | ->]; rewrite Hfu; [done|].
      destruct (future w); [done|]. by inversion Hquick. }
    destruct res1 as [e|]; [|discriminate].
    destruct (negb (IsRetryableErr e)) eqn:Hnr.
    + exfalso. injection Hrun as -> _. discriminate Hnr.
    + replace t with (t0 + (j + 1) * pollPeriod) in Hrun by reflexivity.
      apply IH in Hrun; [exact Hrun|lia|unfold t in Hnow2; lia|exact Hquick2|exact Hlt].
Qed.

(** The blocking-timeout error is not returned before the ceiling, and,
    when the ceiling is positive and no round trip outlasts the polling
    period, less than one period (50 ms) after it: at the first tick of the
    ticker at or after the ceiling. *)
Theorem tryGetBlockingLock_timeout_prompt (ctx : Context) (r : RedisLock) (w w' : World) :
  0 < blockingCeiling r →
  quick w →
  tryGetBlockingLock ctx r w = Some (Some errBlockingTimeout, w') →
  now w + blockingCeiling r ≤ now w' < now w + blockingCeiling r + 50 * Millisecond
  ∧ ∃ k, 0 < k ∧ now w' = now w + k * (50 * Millisecond).
Proof.
  intros Hpos Hquick Hrun. pose proof pollPeriod_pos as HP.
  unfold tryGetBlockingLock in Hrun.
  replace (now w) with (now w + 0 * pollPeriod) in Hrun at 3 by lia.
  apply pollLoop_timeout_prompt in Hrun; [exact Hrun|lia|lia|exact Hquick|lia].
Qed.

Lemma tryGetBlockingLock_timeout_prompt_witness :
  0 < blockingCeiling waiter ∧ quick heldWorld
  ∧ ∃ w', tryGetBlockingLock Background waiter heldWorld = Some (Some errBlockingTimeout, w')
          ∧ now heldWorld + blockingCeiling waiter ≤ now w'
            < now heldWorld + blockingCeiling waiter + 50 * Millisecond.
Proof.
  assert (Hpos : 0 < blockingCeiling waiter) by (vm_compute; reflexivity).
  assert (Hquick : quick heldWorld) by constructor.
  split; [exact Hpos|]. split; [exact Hquick|].
  assert (Hrun : ∃ w', tryGetBlockingLock Background waiter heldWorld
                       = Some (Some errBlockingTimeout, w')).
  { eexists. vm_compute. reflexivity. }
  destruct Hrun as (w' & Hrun). exists w'. split; [exact Hrun|].
  exact (proj1 (tryGetBlockingLock_timeout_prompt Background waiter heldWorld w'
                  Hpos Hquick Hrun)).
Defined.

(** ** Nothing but the lock's own key *)

Lemma touchesOnly_intro (addr k : string) (w : World) (ev : event) (after : keyspace) (t : Z) :
  (∀ k', k' ≠ k → after !! k' = arriving addr w !! k') →
  touchesOnly addr k w
    (emit ev (setServer addr after
                (setNow t (setServer addr (arriving addr w) (setFuture (tail (future w)) w))))).
Proof.
  intros Hafter. split.
  - intros k' Hk'. rewrite server_emit, server_setServer. by apply Hafter.
  - intros a Ha. simpl. by rewrite !lookup_insert_ne.
Qed.

Lemma touchesOnly_base (addr k : string) (w : World) (ev : event) (t : Z) :
  touchesOnly addr k w
    (emit ev (setNow t (setServer addr (arriving addr w) (setFuture (tail (future w)) w)))).
Proof.
  split.
  - intros k' Hk'. by rewrite server_emit, server_setNow, server_setServer.
  - intros a Ha. simpl. by rewrite lookup_insert_ne.
Qed.

Lemma one_round_trip_frame (ctx : Context) (r : RedisLock) (seconds : Z) (w : World) :
  let addr := address (client r) in
  touchesOnly addr (getLockKey r) w (Unlock ctx r w).2
  ∧ touchesOnly addr (getLockKey r) w (DelayExpire ctx r seconds w).2
  ∧ (token r ≠ "" → touchesOnly addr (getLockKey r) w (tryLock ctx r w).2).
Proof.
  intros addr. split_and!.
  - rewrite Unlock_run. fold addr.
    assert (Hdef : ∀ e w1, touchesOnly addr (getLockKey r) w w1 →
                           touchesOnly addr (getLockKey r) w (Unlock_deferred r e w1).2).
    { intros e w1 [Hk Ha]. unfold Unlock_deferred. destruct (stopDog r); [|by split].
      split; [exact Hk|exact Ha]. }
    destruct (link (nextFate w)) as [| msg | msg executed];
      [destruct (decide _)| |destruct executed; [destruct (decide _)|]];
      apply Hdef;
      first [ apply touchesOnly_base
            | apply touchesOnly_intro; intros k' Hk'; by rewrite ?lookup_delete_ne ].
  - rewrite DelayExpire_run. fold addr.
    destruct (link (nextFate w)) as [| msg | msg executed];
      [destruct (decide _)| |destruct executed; [destruct (decide _)|]];
      try destruct (seconds <=? 0); simpl;
      first [ apply touchesOnly_base
            | apply touchesOnly_intro; intros k' Hk';
              by rewrite ?lookup_insert_ne, ?lookup_delete_ne ].
  - intros Htok. unfold tryLock.
    rewrite SetNEX_run by (auto using getLockKey_not_empty). fold addr.
    unfold cmdSetEXNX.
    destruct (link (nextFate w)) as [| msg | msg executed];
      [| |destruct executed];
      destruct (expireSeconds (options r) <=? 0);
      try destruct (arriving addr w !! getLockKey r) eqn:Hlook; simpl;
      first [ apply touchesOnly_base
            | apply touchesOnly_intro; intros k' Hk'; by rewrite ?lookup_insert_ne ].
Qed.

(** The three operations of a lock that make one round trip, the
    acquisition attempt, [Unlock] and [DelayExpire], leave every other key
    of the lock's server as their command found it and every other server
    as it was: a lock never touches anything but its own key. *)
Theorem lock_touches_own_key_only (ctx : Context) (r : RedisLock) (seconds : Z) (w : World) :
  let addr := address (client r) in
  touchesOnly addr (getLockKey r) w (Unlock ctx r w).2
  ∧ touchesOnly addr (getLockKey r) w (DelayExpire ctx r seconds w).2
  ∧ (token r ≠ "" → touchesOnly addr (getLockKey r) w (tryLock ctx r w).2).
Proof. apply one_round_trip_frame. Qed.

Lemma lock_touches_own_key_only_witness :
  token passerby ≠ ""
  ∧ servers (tryLock Background passerby contestedWorld).2 !! "10.0.0.2:6379"
    = servers contestedWorld !! "10.0.0.2:6379".
Proof.
  assert (Htok : token passerby ≠ "") by discriminate.
  split; [exact Htok|].
  destruct (lock_touches_own_key_only Background passerby 15 contestedWorld)
    as (_ & _ & Htry).
  apply (proj2 (Htry Htok)). discriminate.
Defined.

Lemma getLockKey_inj (r1 r2 : RedisLock) :
  getLockKey r1 = getLockKey r2 ↔ key r1 = key r2.
Proof.
  unfold getLockKey, RedisLockKeyPrefix. split; [|by intros ->].
  intros H. cbn in H. by simplify_eq.
Qed.

(** Locks on different keys do not meet, even on one server and with one
    token: their store keys differ, and neither an acquisition attempt nor
    an [Unlock] nor a renewal by one of them changes the entry of the
    other. *)
Theorem locks_on_other_keys_untouched
    (ctx : Context) (r other : RedisLock) (seconds : Z) (w : World) :
  key r ≠ key other →
  address (client r) = address (client other) →
  let addr := address (client other) in
  let found := arriving addr w !! getLockKey other in
  getLockKey r ≠ getLockKey other
  ∧ server addr (Unlock ctx r w).2 !! getLockKey other = found
  ∧ server addr (DelayExpire ctx r seconds w).2 !! getLockKey other = found
  ∧ (token r ≠ "" → server addr (tryLock ctx r w).2 !! getLockKey other = found).
Proof.
  intros Hkey Haddr addr found.
  assert (Hne : getLockKey other ≠ getLockKey r).
  { intros H. apply getLockKey_inj in H. congruence. }
  destruct (one_round_trip_frame ctx r seconds w) as (Hun & Hre & Htry).
  unfold found, addr. rewrite <- Haddr.
  split_and!.
  - congruence.
  - by apply (proj1 Hun).
  - by apply (proj1 Hre).
  - intros Htok. by apply (proj1 (Htry Htok)).
Qed.

Lemma locks_on_other_keys_untouched_witness :
  let invoice := NewRedisLock "100_1" "invoice" sampleClient [WithExpireSeconds 1] in
  key invoice ≠ key holder
  ∧ server "127.0.0.1:6379" (Unlock Background invoice heldWorld).2 !! getLockKey holder
    = Some (mkEntry "100_1" 1).
Proof.
  intros invoice.
  assert (Hkey : key invoice ≠ key holder) by discriminate.
  split; [exact Hkey|].
  destruct (locks_on_other_keys_untouched Background invoice holder 15 heldWorld Hkey eq_refl)
    as (_ & Hun & _).
  exact Hun.
Defined.
